(** * OpenLR paths connector: a shallow embedding of [openlr/paths_connector.cpp]

    The development follows the source file function by function:
    [IntersectionLen], [PrefEqualsSuff], [PathOverlappingLen], [ValidatePath],
    [PathsConnector::FindShortestPath],
    [PathsConnector::ConnectAdjacentCandidateLines] and
    [PathsConnector::ConnectCandidates].

    Conventions.
    - [uint32_t] values are integers in [Z]; the wrap-around of an unsigned
      addition and of a conversion from [double] is written out ([wrap32]).
    - [double] values are IEEE 754 binary64 numbers, the [spec_float] of the
      standard library with its operations at precision 53 and exponent bound
      1024: a sum, a difference and a quotient are rounded to nearest, ties to
      even, a division by zero gives an infinity or a NaN, and a comparison
      with a NaN is false.
    - [std::map] is a [gmap]; [operator[]] inserts a value-initialised entry
      when the key is absent, which is written out where the source uses it.
    - a failed [ASSERT]/[CHECK] and undefined behaviour (an index out of
      range, [front()]/[back()] of an empty vector) end a run with [Aborted];
      the two loops of the search that the type system cannot see terminating
      run on fuel and end with [OutOfFuel] when it is used up.
    - what the file takes from its headers ([Graph::Edge] with its order,
      [Edge::GetEndJunction], [Edge::IsFake], [EdgeLength],
      [Graph::GetOutgoingEdges], [FunctionalRoadClass]) is a parameter of the
      section that holds the model. *)

From Stdlib Require Import ZArith Lia SpecFloat.
From stdpp Require Import base decidable option list gmap.

Local Open Scope Z_scope.

(** ** Outcome of a run *)

Inductive result (A : Type) : Type :=
  | Ok (a : A)
  | OutOfFuel
  | Aborted.
Arguments Ok {A} a.
Arguments OutOfFuel {A}.
Arguments Aborted {A}.

#[global] Instance result_ret : MRet result := fun A a => Ok a.
#[global] Instance result_bind : MBind result := fun A B k c =>
  match c with
  | Ok a => k a
  | OutOfFuel => OutOfFuel
  | Aborted => Aborted
  end.

(** ** Machine integers *)

Definition wrap32 (z : Z) : Z := z mod 2 ^ 32.

(** [base::checked_cast<int32_t>]: the value itself, or a failed check. *)
Definition checked_cast_int32 (n : nat) : result Z :=
  if Z.of_nat n <=? 2147483647 then Ok (Z.of_nat n) else Aborted.

(** ** Doubles *)

(** IEEE 754 binary64: 53 bits of precision, infinities at exponent 1024. *)
Definition double : Type := spec_float.

(** [0.0] *)
Definition dzero : double := S754_zero false.

(** [a + b], [a - b] and [a / b], each rounded to nearest, ties to even. *)
Definition dadd : double → double → double := SFadd 53 1024.
Definition dsub : double → double → double := SFsub 53 1024.
Definition ddiv : double → double → double := SFdiv 53 1024.

(** [a < b] and [a <= b]; both are false when an operand is a NaN. *)
Definition dlt : double → double → bool := SFltb.
Definition dle : double → double → bool := SFleb.

(** Conversion [uint32_t -> double]; it is exact. *)
Definition of_uint32 (n : Z) : double := binary_normalize 53 1024 n 0 false.

(** The integral part of a double, the fractional part discarded; an infinity
    and a NaN have none, and 0 stands for it. *)
Definition truncate (x : double) : Z :=
  match x with
  | S754_finite s m e => cond_Zopp s (Z.shiftl (Z.pos m) e)
  | _ => 0
  end.

(** Conversion [double -> uint32_t]: the fractional part is discarded.  A value
    outside the range of the target type is undefined in C++; the model wraps
    it, and the theorems that depend on it assume the range. *)
Definition double_to_uint32 (x : double) : Z := wrap32 (truncate x).

(** [base::AbsDifference] on [double]. *)
Definition AbsDifference (a b : double) : double :=
  if dlt b a then dsub a b else dsub b a.

(** [std::vector::resize] on a vector of vectors. *)
Definition resize {A} (n : nat) (l : list (list A)) : list (list A) :=
  take n l ++ replicate (n - length l) [].

(** ** Data *)

(** [LocationReferencePoint], the two fields the connector reads. *)
Record LocationReferencePoint (FunctionalRoadClass : Type) := {
  m_functionalRoadClass : FunctionalRoadClass;
  m_distanceToNextPoint : Z
}.
Arguments m_functionalRoadClass {_} _.
Arguments m_distanceToNextPoint {_} _.

(** [v2::Stats], the one counter the connector writes. *)
Record Stats := { m_noShortestPathFound : Z }.

Section PathsConnector.

(** The collaborators of the connector: the edge type of the road graph with
    its equality, its order [operator<] and its default constructor, and the
    graph itself. *)
Context {Edge Junction FunctionalRoadClass : Type}.
Context `{Countable Edge}.
Variable edge_less : Edge -> Edge -> bool.
Variable default_edge : Edge.
Variable GetEndJunction : Edge -> Junction.
Variable IsFake : Edge -> bool.
Variable EdgeLength : Edge -> double.
Variable GetOutgoingEdges : Junction -> list Edge.
(** [m_pathLengthTolerance] *)
Variable pathLengthTolerance : double.

(** *** [IntersectionLen] *)

(** [std::sort] with [operator<]. *)
Fixpoint sort_insert (x : Edge) (l : list Edge) : list Edge :=
  match l with
  | [] => [x]
  | y :: l' => if edge_less y x then y :: sort_insert x l' else x :: l
  end.

Definition sort (l : list Edge) : list Edge := foldr sort_insert [] l.

(** [std::set_intersection] into a [CounterIterator]: the number of elements
    written. *)
Fixpoint set_intersection_count (a b : list Edge) : nat :=
  match a with
  | [] => O
  | x :: a' =>
    (fix scan (b : list Edge) : nat :=
       match b with
       | [] => O
       | y :: b' =>
         if edge_less x y then set_intersection_count a' b
         else if edge_less y x then scan b'
         else S (set_intersection_count a' b')
       end) b
  end.

Definition IntersectionLen (a b : list Edge) : nat :=
  set_intersection_count (sort a) (sort b).

(** *** [PrefEqualsSuff] *)

Definition PrefEqualsSuff (a b : list Edge) (len : nat) : bool :=
  bool_decide (drop (length a - len) a = take len b).

(** *** [PathOverlappingLen] *)

Definition PathOverlappingLen (a b : list Edge) : result Z :=
  let len := IntersectionLen a b in
  if PrefEqualsSuff a b len then checked_cast_int32 len else Ok (-1).

(** *** [ValidatePath] *)

Definition PathLength (path : list Edge) : double :=
  fold_left (fun pathLen e => dadd pathLen (EdgeLength e)) path dzero.

Definition ValidatePath (path : list Edge) (distanceToNextPoint : Z)
    (tolerance : double) : bool :=
  let pathLen := PathLength path in
  let pathDiffPercent :=
    ddiv (AbsDifference (of_uint32 distanceToNextPoint) pathLen)
         (of_uint32 distanceToNextPoint) in
  if dlt tolerance pathDiffPercent then false else true.

(** *** [PathsConnector::FindShortestPath] *)

Definition kLengthToleranceM : Z := 10.

Record State := { m_edge : Edge; m_score : Z }.

(** [State::operator>]: the tuples [(m_score, m_edge)] compared
    lexicographically. *)
Definition state_greater (a o : State) : bool :=
  (m_score o <? m_score a)
  || (negb (m_score a <? m_score o) && edge_less (m_edge o) (m_edge a)).

(** [q.top()] followed by [q.pop()] on
    [priority_queue<State, vector<State>, greater<State>>]: the least state
    and the remaining ones. *)
Fixpoint pq_pop (q : list State) : option (State * list State) :=
  match q with
  | [] => None
  | s :: q' =>
    match pq_pop q' with
    | None => Some (s, [])
    | Some (m, r) => if state_greater s m then Some (m, s :: r) else Some (s, q')
    end
  end.

Record SearchState := {
  q : list State;
  scores : gmap Edge Z;
  links : gmap Edge Edge
}.

(** The body of the loop over the outgoing edges. *)
Definition relax (u : Edge) (us : Z) (st : SearchState) (e : Edge) : SearchState :=
  let eScore : double := dadd (of_uint32 us) (EdgeLength e) in
  let improves :=
    match scores st !! e with
    | None => true
    | Some old => dlt eScore (of_uint32 old)
    end in
  if improves then
    {| q := {| m_edge := e; m_score := double_to_uint32 eScore |} :: q st;
       scores := <[e := double_to_uint32 eScore]> (scores st);
       links := <[e := u]> (links st) |}
  else st.

Inductive StepOutcome :=
  | Exhausted
  | Continue (st : SearchState)
  | Reached (u : Edge) (st : SearchState).

(** One turn of [while (!q.empty())]. *)
Definition step (to : Edge) (maxPathLength : Z) (st : SearchState) : StepOutcome :=
  match pq_pop (q st) with
  | None => Exhausted
  | Some (state, q') =>
    let u := m_edge state in
    let us := m_score state in
    if wrap32 (maxPathLength + kLengthToleranceM) <? us then
      Continue {| q := q'; scores := scores st; links := links st |}
    else
      (* scores[u] *)
      let scores' :=
        match scores st !! u with
        | Some _ => scores st
        | None => <[u := 0]> (scores st)
        end in
      if default 0 (scores st !! u) <? us then
        Continue {| q := q'; scores := scores'; links := links st |}
      else if decide (u = to) then
        Reached u {| q := q'; scores := scores'; links := links st |}
      else
        Continue (foldl (relax u us)
                        {| q := q'; scores := scores'; links := links st |}
                        (GetOutgoingEdges (GetEndJunction u)))
  end.

(** [for (auto e = u; e != from; e = links[e]) path.push_back(e);] *)
Fixpoint walk_links (fuel : nat) (links : gmap Edge Edge) (from e : Edge)
    (path : list Edge) : result (list Edge) :=
  if decide (e = from) then Ok path
  else
    match fuel with
    | O => OutOfFuel
    | S fuel' =>
      let links' :=
        match links !! e with
        | Some _ => links
        | None => <[e := default_edge]> links
        end in
      walk_links fuel' links' from (default default_edge (links !! e)) (path ++ [e])
    end.

Fixpoint search_loop (fuel : nat) (from to : Edge) (maxPathLength : Z)
    (path : list Edge) (st : SearchState) : result (bool * list Edge) :=
  match fuel with
  | O => OutOfFuel
  | S fuel' =>
    match step to maxPathLength st with
    | Exhausted => Ok (false, path)
    | Continue st' => search_loop fuel' from to maxPathLength path st'
    | Reached u st' =>
      path' ← walk_links fuel' (links st') from u path;
      Ok (true, reverse (path' ++ [from]))
    end
  end.

Definition FindShortestPath (fuel : nat) (from to : Edge)
    (frc : FunctionalRoadClass) (maxPathLength : Z) (path : list Edge)
    : result (bool * list Edge) :=
  search_loop fuel from to maxPathLength path
    {| q := [ {| m_edge := from; m_score := 0 |} ];
       scores := {[ from := 0 ]};
       links := ∅ |}.

(** *** [PathsConnector::ConnectAdjacentCandidateLines] *)

Definition ConnectAdjacentCandidateLines (fuel : nat) (from to : list Edge)
    (frc : FunctionalRoadClass) (distanceToNextPoint : Z)
    (resultPath : list Edge) : result (bool * list Edge) :=
  match to with
  | [] => Aborted
  | to_front :: to_rest =>
    skip ← PathOverlappingLen from to;
    if negb (skip =? 0) then
      if skip =? -1 then Ok (false, resultPath)
      else Ok (true, resultPath ++ from ++ drop (Z.to_nat skip) to)
    else
      match last from with
      | None => Aborted
      | Some from_back =>
        if decide (from_back = to_front) then Aborted
        else
          '(found, shortestPath) ←
            FindShortestPath fuel from_back to_front frc distanceToNextPoint [];
          if negb found then Ok (false, resultPath)
          else Ok (found, resultPath ++ removelast from ++ shortestPath ++ to_rest)
      end
  end.

(** *** [PathsConnector::ConnectCandidates] *)

(** The calls a run makes to its two helpers, with the index of the segment
    (0 for the first pair of points) that makes them.  The source keeps no
    such list; it is carried along to state which helpers a run invokes. *)
Inductive Call :=
  | CallConnect (segment : nat) (from to : list Edge)
  | CallValidate (segment : nat) (path : list Edge).

Definition call_segment (c : Call) : nat :=
  match c with
  | CallConnect i _ _ => i
  | CallValidate i _ => i
  end.

(** The variables of one turn of the loop over the segments. *)
Record SegState := {
  found : bool;
  resultPathPart : list Edge;
  fakePath : list Edge;
  calls : list Call
}.

Definition LRP := LocationReferencePoint FunctionalRoadClass.

(** The body of the inner loop, for one pair of candidates. *)
Definition tryPair (fuel : nat) (segment : nat) (point : LRP)
    (from to : list Edge) (s : SegState) : result SegState :=
  let distanceToNextPoint := m_distanceToNextPoint point in
  (* resultPathPart.clear() *)
  '(found1, part) ←
    ConnectAdjacentCandidateLines fuel from to (m_functionalRoadClass point)
      distanceToNextPoint [];
  let calls1 := calls s ++ [CallConnect segment from to] in
  if negb found1 then
    Ok {| found := false; resultPathPart := part; fakePath := fakePath s;
          calls := calls1 |}
  else
    let found2 := ValidatePath part distanceToNextPoint pathLengthTolerance in
    let calls2 := calls1 ++ [CallValidate segment part] in
    if bool_decide (fakePath s = []) && found2 then
      match head part, last part with
      | Some front, Some back =>
        if IsFake front || IsFake back then
          Ok {| found := false; resultPathPart := part; fakePath := part;
                calls := calls2 |}
        else
          Ok {| found := found2; resultPathPart := part;
                fakePath := fakePath s; calls := calls2 |}
      | _, _ => Aborted
      end
    else
      Ok {| found := found2; resultPathPart := part; fakePath := fakePath s;
            calls := calls2 |}.

(** [for (toInd = 0; toInd < toCandidates.size() && !found; ++toInd)] *)
Fixpoint toLoop (fuel : nat) (segment : nat) (point : LRP) (from : list Edge)
    (toCandidates : list (list Edge)) (s : SegState) : result SegState :=
  match toCandidates with
  | [] => Ok s
  | to :: rest =>
    if found s then Ok s
    else s' ← tryPair fuel segment point from to s;
         toLoop fuel segment point from rest s'
  end.

(** [for (fromInd = 0; fromInd < fromCandidates.size() && !found; ++fromInd)] *)
Fixpoint fromLoop (fuel : nat) (segment : nat) (point : LRP)
    (fromCandidates toCandidates : list (list Edge)) (s : SegState)
    : result SegState :=
  match fromCandidates with
  | [] => Ok s
  | from :: rest =>
    if found s then Ok s
    else s' ← toLoop fuel segment point from toCandidates s;
         fromLoop fuel segment point rest toCandidates s'
  end.

(** One turn of the loop over the segments up to, and without, the test
    [if (!found)]. *)
Definition connectSegment (fuel : nat) (segment : nat) (point : LRP)
    (fromCandidates toCandidates : list (list Edge))
    (part0 : list Edge) (calls0 : list Call) : result SegState :=
  s ← fromLoop fuel segment point fromCandidates toCandidates
        {| found := false; resultPathPart := part0; fakePath := [];
           calls := calls0 |};
  if negb (bool_decide (fakePath s = [])) && negb (found s) then
    Ok {| found := true; resultPathPart := fakePath s; fakePath := fakePath s;
          calls := calls s |}
  else Ok s.

(** What a call leaves behind: the output vector, the statistics and the
    calls made. *)
Record ConnectState := {
  resultPath : list (list Edge);
  stat : Stats;
  made : list Call
}.

(** [for (size_t i = 1; i < points.size(); ++i)], with [remaining] turns to
    go. *)
Fixpoint segmentLoop (fuel : nat) (points : list LRP)
    (lineCandidates : list (list (list Edge))) (remaining i : nat)
    (c : ConnectState) : result (bool * ConnectState) :=
  match remaining with
  | O => Ok (true, c)
  | S remaining' =>
    match points !! (i - 1)%nat, lineCandidates !! (i - 1)%nat,
          lineCandidates !! i, resultPath c !! (i - 1)%nat with
    | Some point, Some fromCandidates, Some toCandidates, Some part0 =>
      s ← connectSegment fuel (i - 1)%nat point fromCandidates toCandidates
            part0 (made c);
      if found s then
        segmentLoop fuel points lineCandidates remaining' (S i)
          {| resultPath := <[(i - 1)%nat := resultPathPart s]> (resultPath c);
             stat := stat c; made := calls s |}
      else
        Ok (false,
            {| resultPath := <[(i - 1)%nat := []]> (resultPath c);
               stat := {| m_noShortestPathFound :=
                            m_noShortestPathFound (stat c) + 1 |};
               made := calls s |})
    | _, _, _, _ => Aborted
    end
  end.

Definition ConnectCandidates (fuel : nat) (points : list LRP)
    (lineCandidates : list (list (list Edge)))
    (resultPath0 : list (list Edge)) (stat0 : Stats)
    : result (bool * ConnectState) :=
  match points with
  | [] => Aborted
  | _ =>
    segmentLoop fuel points lineCandidates (length points - 1)%nat 1%nat
      {| resultPath := resize (length points - 1) resultPath0;
         stat := stat0; made := [] |}
  end.

(** ** Vocabulary of the statements *)

(** The edges of [a] that also occur in [b], in the order of [a]. *)
Definition common (a b : list Edge) : list Edge := filter (.∈ b) a.

(** The edges common to [a] and [b] are the last [k] edges of [a], which are,
    in order, the first [k] edges of [b]. *)
Definition CleanOverlap (a b : list Edge) (k : nat) : Prop :=
  (k ≤ length a)%nat ∧ (k ≤ length b)%nat ∧
  drop (length a - k) a = take k b ∧
  ∀ e, e ∈ a → e ∈ b → e ∈ take k b.

(** [operator<] is a strict total order. *)
Definition StrictTotal : Prop :=
  (∀ x, edge_less x x = false) ∧
  (∀ x y z, edge_less x y = true → edge_less y z = true → edge_less x z = true) ∧
  (∀ x y, edge_less x y = false → edge_less y x = false → x = y).

Fixpoint sorted (l : list Edge) : Prop :=
  match l with
  | [] => True
  | x :: l' => Forall (λ y, edge_less x y = true) l' ∧ sorted l'
  end.

(** The number of times [e] occurs in [l]. *)
Definition occurrences (e : Edge) (l : list Edge) : nat :=
  length (filter (λ x, x = e) l).

(** [links[e]] as a value, and what the access leaves in the map. *)
Definition link_of (links : gmap Edge Edge) (e : Edge) : Edge :=
  default default_edge (links !! e).

Definition touch (links : gmap Edge Edge) (e : Edge) : gmap Edge Edge :=
  match links !! e with
  | Some _ => links
  | None => <[e := default_edge]> links
  end.

(** The edges met when following [next] from [e] until [from] is met. *)
Inductive Walk (next : Edge → Edge) (from : Edge) : Edge → list Edge → Prop :=
  | Walk_stop : Walk next from from []
  | Walk_step e l :
      e ≠ from → Walk next from (next e) l → Walk next from e (e :: l).

(** The pairs of candidates of a segment in the order the two loops visit
    them. *)
Fixpoint candidate_pairs (fromCandidates toCandidates : list (list Edge))
    : list (list Edge * list Edge) :=
  match fromCandidates with
  | [] => []
  | from :: rest =>
    ((λ to, (from, to)) <$> toCandidates) ++ candidate_pairs rest toCandidates
  end.

(** What one pair of candidates yields: its connected path when the
    connection succeeds and the validator accepts the path. *)
Definition attempt (fuel : nat) (point : LRP) (pair : list Edge * list Edge)
    : result (option (list Edge)) :=
  '(found1, part) ←
    ConnectAdjacentCandidateLines fuel pair.1 pair.2
      (m_functionalRoadClass point) (m_distanceToNextPoint point) [];
  Ok (if found1 && ValidatePath part (m_distanceToNextPoint point)
                     pathLengthTolerance
      then Some part else None).

Definition has_fake_boundary (path : list Edge) : bool :=
  match head path, last path with
  | Some front, Some back => IsFake front || IsFake back
  | _, _ => false
  end.

(** The path a segment ends with, from its validated paths in the order of
    the pairs: the first one, unless it has a fake boundary edge and another
    validated path comes after it, in which case the next one. *)
Definition segment_choice (validated : list (list Edge)) : option (list Edge) :=
  match validated with
  | [] => None
  | p :: later =>
    if has_fake_boundary p then Some (default p (head later)) else Some p
  end.

(** What a segment ends with. *)
Definition outcome (s : SegState) : option (list Edge) :=
  if found s then Some (resultPathPart s) else None.

(** The two variables of the candidate loops that decide how they go on, and
    their change by one pair that yields [r]. *)
Definition advance (v : option (list Edge) * list Edge)
    (r : option (list Edge)) : option (list Edge) * list Edge :=
  match v.1, r with
  | Some _, _ => v
  | None, None => v
  | None, Some p =>
    if bool_decide (v.2 = []) && has_fake_boundary p then (None, p)
    else (Some p, v.2)
  end.

(** What the segment ends with once the pairs are used up. *)
Definition settle (v : option (list Edge) * list Edge) : option (list Edge) :=
  match v.1 with
  | Some p => Some p
  | None => if bool_decide (v.2 = []) then None else Some v.2
  end.

(** [r] is a splice of the candidates [from] and [to]: either [from]
    followed by [to] without its first [k] edges, duplicate-free as a whole,
    or [from] without its last edge, a duplicate-free path [P] from the last
    edge of [from] to the first edge of [to], and [to] without its first
    edge. *)
Definition Spliced (from to r : list Edge) : Prop :=
  (∃ k, r = from ++ drop k to ∧ NoDup r) ∨
  (∃ P, r = removelast from ++ P ++ tail to
        ∧ NoDup (removelast from) ∧ NoDup P ∧ NoDup (tail to)
        ∧ head P = last from ∧ last P = head to).

(** [p] is what a successful connection of a pair of candidates of the
    segment leaves in an empty output. *)
Definition Produced (fuel : nat) (point : LRP)
    (fromCandidates toCandidates : list (list Edge)) (p : list Edge) : Prop :=
  ∃ from to, from ∈ fromCandidates ∧ to ∈ toCandidates ∧
    ConnectAdjacentCandidateLines fuel from to (m_functionalRoadClass point)
      (m_distanceToNextPoint point) [] = Ok (true, p).

(** Segment [j] ends with [o] (its path, or none), every pair of its
    candidates yielding a result. *)
Definition segment_result (fuel : nat) (points : list LRP)
    (lineCandidates : list (list (list Edge))) (j : nat)
    (o : option (list Edge)) : Prop :=
  ∃ point fromCandidates toCandidates rs,
    points !! j = Some point ∧
    lineCandidates !! j = Some fromCandidates ∧
    lineCandidates !! S j = Some toCandidates ∧
    Forall2 (λ pair r, attempt fuel point pair = Ok r)
            (candidate_pairs fromCandidates toCandidates) rs ∧
    segment_choice (omap id rs) = o.

(** The edges that leave the end of [u]. *)
Definition successors (u : Edge) : list Edge :=
  GetOutgoingEdges (GetEndJunction u).

(** [Route from p e]: the edges [p] are a path of the graph from the edge
    [from] to the edge [e]. *)
Inductive Route (from : Edge) : list Edge → Edge → Prop :=
  | Route_start : Route from [from] from
  | Route_next p u e :
      Route from p u → e ∈ successors u → Route from (p ++ [e]) e.

(** The length of an edge in whole units, which is what the search adds to a
    score when it stores it in a [uint32_t]. *)
Definition whole_length (e : Edge) : Z := truncate (EdgeLength e).

(** The score the search gives a path: the whole lengths of its edges after
    the first one. *)
Definition route_score (p : list Edge) : Z :=
  foldr (λ e acc, whole_length e + acc) 0 (tail p).

(** [relax] with the score computed in integers. *)
Definition relax_whole (u : Edge) (us : Z) (st : SearchState) (e : Edge)
    : SearchState :=
  let eScore := us + whole_length e in
  let improves :=
    match scores st !! e with
    | None => true
    | Some old => eScore <? old
    end in
  if improves then
    {| q := {| m_edge := e; m_score := eScore |} :: q st;
       scores := <[e := eScore]> (scores st);
       links := <[e := u]> (links st) |}
  else st.

(** The invariant of the search loop.  [D] lists the edges whose outgoing edges
    were relaxed, [U] is a finite set of edges closed under [successors]. *)
Record SearchInv (from to : Edge) (budget : Z) (U D : list Edge)
    (st : SearchState) : Prop := {
  inv_source : scores st !! from = Some 0;
  inv_range : ∀ e d, scores st !! e = Some d → 0 ≤ d < 2 ^ 32;
  inv_universe : ∀ e d, scores st !! e = Some d → e ∈ U;
  inv_queue : ∀ x, x ∈ q st →
    ∃ d, scores st !! m_edge x = Some d ∧ d ≤ m_score x;
  inv_pending : ∀ e d, scores st !! e = Some d → e ∉ D →
    {| m_edge := e; m_score := d |} ∈ q st ∨ budget < d;
  inv_done_min : ∀ e d x, e ∈ D → scores st !! e = Some d → x ∈ q st →
    d ≤ m_score x;
  inv_done : ∀ e, e ∈ D → is_Some (scores st !! e) ∧ e ≠ to;
  inv_link : ∀ e d, scores st !! e = Some d → e ≠ from →
    ∃ u du, links st !! e = Some u ∧ u ∈ D ∧ scores st !! u = Some du
            ∧ e ∈ successors u ∧ d = du + whole_length e;
  inv_chain : ∀ e, e ∈ D →
    ∃ l, Walk (link_of (links st)) from e l ∧ (∀ x, x ∈ l → x ∈ D)
         ∧ (length l ≤ length D)%nat
}.

(** The pairs [R] of an edge and one of its successors have been relaxed. *)
Definition Relaxed (R : Edge → Edge → Prop) (st : SearchState) : Prop :=
  ∀ u e du, R u e → scores st !! u = Some du →
    ∃ de, scores st !! e = Some de ∧ de ≤ du + whole_length e.

(** What the loop over the outgoing edges of [u] keeps. *)
Record RelaxInv (from to : Edge) (budget : Z) (U D : list Edge)
    (R : Edge → Edge → Prop) (u : Edge) (us : Z) (st : SearchState) : Prop := {
  rel_inv : SearchInv from to budget U D st;
  rel_relaxed : Relaxed R st;
  rel_sources : ∀ u' e, R u' e → u' ∈ D;
  rel_done : u ∈ D;
  rel_score : scores st !! u = Some us;
  rel_budget : us ≤ budget;
  rel_queue_min : ∀ x, x ∈ q st → us ≤ m_score x;
  rel_done_max : ∀ e d, e ∈ D → scores st !! e = Some d → d ≤ us
}.

(** The measure that bounds the number of turns of the search loop. *)
Definition potential (U : list Edge) (known : gmap Edge Z) : Z :=
  foldr (λ e acc, default (2 ^ 32) (known !! e) + acc) 0 U.

Definition measure (U : list Edge) (st : SearchState) : Z :=
  Z.of_nat (length (q st)) + 2 * potential U (scores st).

(** The relaxed pairs when the edges [D] are done. *)
Definition done_pairs (D : list Edge) (u e : Edge) : Prop :=
  u ∈ D ∧ e ∈ successors u.

(** [Chain l]: each edge of [l] leaves the end junction of the edge before
    it. *)
Fixpoint Chain (l : list Edge) : Prop :=
  match l with
  | u :: (e :: _) as l' => e ∈ successors u ∧ Chain l'
  | _ => True
  end.

(** The links the search keeps always lead along edges of the graph, and every
    queued edge other than the source has a link. *)
Definition LinksInv (from : Edge) (st : SearchState) : Prop :=
  (∀ e u, links st !! e = Some u →
          e ∈ successors u ∧ (u = from ∨ is_Some (links st !! u)))
  ∧ (∀ x, x ∈ q st → m_edge x = from ∨ is_Some (links st !! m_edge x)).

(** Two states of the candidate loops that differ at most in the content of
    the output slot. *)
Definition same_but_part (s s' : SegState) : Prop :=
  found s = found s' ∧ fakePath s = fakePath s' ∧ calls s = calls s'.

(** *** Doubles *)

Definition is_nan (x : double) : bool :=
  match x with
  | S754_nan => true
  | _ => false
  end.

(** A zero or a finite number. *)
Definition is_finite (x : double) : bool :=
  match x with
  | S754_zero _ | S754_finite _ _ _ => true
  | _ => false
  end.

(** The sum of the lengths of the edges of a path, added up in double
    arithmetic from the first edge on, starting at [0.0]. *)
Definition total_length (path : list Edge) : double :=
  foldl dadd dzero (EdgeLength <$> path).

(** The absolute difference of two doubles: the larger less the smaller. *)
Definition abs_difference (a b : double) : double :=
  if dle a b then dsub b a else dsub a b.

(** The relative deviation of a length from an expected distance, in double
    arithmetic. *)
Definition relative_deviation (expected : Z) (len : double) : double :=
  ddiv (abs_difference (of_uint32 expected) len) (of_uint32 expected).

(** The double [n / 2^21].  For [0 <= n < 2^53] these are the non-negative
    doubles below [2^32] with at most 21 binary digits after the point: the
    ones a [uint32_t] can be added to without rounding. *)
Definition grid21 (n : Z) : double := binary_normalize 53 1024 n (-21) false.

(** The double [n * 2^e0] for [0 <= n < 2^53], in its normal form. *)
Definition canon (e0 n : Z) : double :=
  match n with
  | Z.pos _ =>
    S754_finite false (Z.to_pos (n * 2 ^ (52 - Z.log2 n))) (e0 + Z.log2 n - 52)
  | _ => S754_zero false
  end.

(** A mantissa that lost no digit when it was shifted. *)
Definition shifted (m : Z) : shr_record :=
  {| shr_m := m; shr_r := false; shr_s := false |}.

(** ** Facts *)

(** *** Doubles *)

(** Exact results.  A number [n * 2^e0] with [0 <= n < 2^53] has one normal
    form, [canon e0 n], and the rounding of the library returns it for every
    mantissa and exponent that denote the number. *)

Lemma digits2_pos_log2 p : Z.pos (digits2_pos p) = Z.log2 (Z.pos p) + 1.
Proof.
  assert (digits2_pos p = Pos.size p) as ->
    by (induction p as [p IH | p IH |]; simpl; by rewrite ?IH).
  destruct p as [p | p |]; simpl; try done; by rewrite Pos2Z.inj_succ.
Qed.

Lemma pos_iter_xO m d : Z.pos (Pos.iter xO m d) = Z.pos m * 2 ^ Z.pos d.
Proof.
  induction d as [| d IH] using Pos.peano_ind.
  - simpl. lia.
  - rewrite Pos.iter_succ, Pos2Z.inj_xO, IH, Pos2Z.inj_succ, Z.pow_succ_r by lia.
    lia.
Qed.

Lemma shr_1_exact m : 0 ≤ m → shr_1 (shifted (m * 2)) = shifted m.
Proof.
  intros Hm. destruct m as [| p | p]; [done | | lia].
  by replace (Z.pos p * 2) with (Z.pos p~0) by lia.
Qed.

Lemma iter_pos_shr_exact p :
  ∀ m, 0 ≤ m → SpecFloat.iter_pos shr_1 p (shifted (m * 2 ^ Z.pos p)) = shifted m.
Proof.
  induction p as [p IH | p IH |]; intros m Hm; cbn [SpecFloat.iter_pos].
  - assert (2 ^ Z.pos p~1 = 2 ^ Z.pos p * 2 ^ Z.pos p * 2) as ->.
    { replace (Z.pos p~1) with (Z.pos p + Z.pos p + 1) by lia.
      rewrite !Z.pow_add_r by lia. by rewrite Z.pow_1_r. }
    rewrite !Z.mul_assoc, shr_1_exact, !IH; try done; nia.
  - assert (2 ^ Z.pos p~0 = 2 ^ Z.pos p * 2 ^ Z.pos p) as ->.
    { replace (Z.pos p~0) with (Z.pos p + Z.pos p) by lia.
      by rewrite Z.pow_add_r by lia. }
    rewrite !Z.mul_assoc, !IH; try done; nia.
  - rewrite Z.pow_1_r. by apply shr_1_exact.
Qed.

Lemma shr_exact m e n :
  0 ≤ m → 0 ≤ n → shr (shifted (m * 2 ^ n)) e n = (shifted m, e + n).
Proof.
  intros Hm Hn. destruct n as [| p | p]; [| | lia].
  - simpl. by rewrite Z.mul_1_r, Z.add_0_r.
  - unfold shr. by rewrite iter_pos_shr_exact.
Qed.

Lemma Zdigits2_log2 z : 0 < z → Zdigits2 z = Z.log2 z + 1.
Proof. destruct z as [| p | p]; try lia. intros _. apply digits2_pos_log2. Qed.

Lemma fexp_normal e : -1021 ≤ e → fexp 53 1024 e = e - 53.
Proof. unfold fexp, emin. lia. Qed.

Lemma log2_mantissa M k :
  0 ≤ k → 2 ^ 52 ≤ M < 2 ^ 53 → Z.log2 (M * 2 ^ k) = 52 + k.
Proof.
  intros Hk HM. rewrite Z.log2_mul_pow2 by lia.
  assert (Z.log2 M = 52) as ->; [| lia].
  apply Z.log2_unique; [lia |]. by change (Z.succ 52) with 53.
Qed.

Lemma binary_round_aux_exact (M k E : Z) :
  0 ≤ k → 2 ^ 52 ≤ M < 2 ^ 53 → -1074 ≤ E ≤ 971 →
  binary_round_aux 53 1024 false (M * 2 ^ k) (E - k) loc_Exact
  = S754_finite false (Z.to_pos M) E.
Proof.
  intros Hk HM HE. unfold binary_round_aux, shr_fexp.
  assert (0 < M * 2 ^ k) as Hpos by (assert (0 < 2 ^ k) by lia; nia).
  rewrite Zdigits2_log2, log2_mantissa, fexp_normal by (done || lia).
  replace (52 + k + 1 + (E - k) - 53 - (E - k)) with k by lia.
  change (shr_record_of_loc (M * 2 ^ k) loc_Exact) with (shifted (M * 2 ^ k)).
  rewrite shr_exact by lia.
  cbn [shifted shr_m loc_of_shr_record round_nearest_even].
  pose proof (log2_mantissa M 0 ltac:(lia) HM) as Hlog.
  rewrite Z.pow_0_r, Z.mul_1_r in Hlog.
  rewrite Zdigits2_log2, Hlog, fexp_normal by lia.
  match goal with
  | |- context [shr ?r ?e ?n] =>
    replace n with 0 by lia; replace e with E by lia
  end.
  cbn [shr shr_record_of_loc shr_m].
  destruct M as [| p | p]; [lia | | lia].
  by rewrite (proj2 (Z.leb_le E (1024 - 53))) by lia.
Qed.

Lemma binary_round_exact (mx : positive) (ex n e0 t : Z) :
  Z.pos mx = n * 2 ^ t → ex = e0 - t → 0 ≤ t → 0 < n < 2 ^ 53 →
  -1022 ≤ e0 ≤ 971 →
  binary_round 53 1024 false mx ex = canon e0 n.
Proof.
  intros Hmx -> Ht Hn He0.
  pose proof (Z.log2_nonneg n) as Hlog0.
  assert (Z.log2 n < 53) as Hlog by (apply Z.log2_lt_pow2; lia).
  pose proof (Z.log2_spec n ltac:(lia)) as Hspec.
  set (L := Z.log2 n) in *.
  set (M := n * 2 ^ (52 - L)).
  assert (2 ^ 52 ≤ M < 2 ^ 53) as HM.
  { subst M.
    replace (2 ^ 52) with (2 ^ L * 2 ^ (52 - L))
      by (rewrite <- Z.pow_add_r by lia; f_equal; lia).
    replace (2 ^ 53) with (2 ^ Z.succ L * 2 ^ (52 - L))
      by (rewrite <- Z.pow_add_r by lia; f_equal; lia).
    assert (0 < 2 ^ (52 - L)) by lia. nia. }
  assert (canon e0 n = S754_finite false (Z.to_pos M) (e0 + L - 52)) as ->
    by (unfold canon; destruct n; try lia; done).
  unfold binary_round.
  rewrite digits2_pos_log2, Hmx, Z.log2_mul_pow2 by lia. fold L.
  rewrite fexp_normal by lia.
  unfold shl_align.
  destruct (t + L + 1 + (e0 - t) - 53 - (e0 - t)) as [| d | d] eqn:Hshift.
  - rewrite Hmx.
    replace (n * 2 ^ t) with (M * 2 ^ 0)
      by (subst M; rewrite Z.pow_0_r, Z.mul_1_r; do 2 f_equal; lia).
    replace (e0 - t) with (e0 + L - 52 - 0) by lia.
    apply binary_round_aux_exact; lia.
  - rewrite Hmx.
    replace (n * 2 ^ t) with (M * 2 ^ Z.pos d).
    + replace (e0 - t) with (e0 + L - 52 - Z.pos d) by lia.
      apply binary_round_aux_exact; lia.
    + subst M. rewrite <- Z.mul_assoc, <- Z.pow_add_r by lia. f_equal. f_equal. lia.
  - rewrite pos_iter_xO, Hmx.
    replace (n * 2 ^ t * 2 ^ Z.pos d) with (M * 2 ^ 0).
    + replace (t + L + 1 + (e0 - t) - 53) with (e0 + L - 52 - 0) by lia.
      apply binary_round_aux_exact; lia.
    + subst M. rewrite Z.pow_0_r, Z.mul_1_r, <- Z.mul_assoc, <- Z.pow_add_r by lia.
      f_equal. f_equal. lia.
Qed.

Lemma binary_normalize_exact (e0 n : Z) :
  0 ≤ n < 2 ^ 53 → -1022 ≤ e0 ≤ 971 →
  binary_normalize 53 1024 n e0 false = canon e0 n.
Proof.
  intros Hn He0. destruct n as [| p | p]; [done | | lia].
  cbn [binary_normalize].
  apply (binary_round_exact p e0 (Z.pos p) e0 0); try lia.
Qed.

Lemma canon_mantissa e0 n :
  0 < n < 2 ^ 53 →
  ∃ m, canon e0 n = S754_finite false m (e0 + Z.log2 n - 52)
       ∧ Z.pos m = n * 2 ^ (52 - Z.log2 n).
Proof.
  intros Hn.
  assert (Z.log2 n < 53) as Hlog by (apply Z.log2_lt_pow2; lia).
  exists (Z.to_pos (n * 2 ^ (52 - Z.log2 n))). split.
  - unfold canon. destruct n; try lia; done.
  - apply Z2Pos.id. assert (0 < 2 ^ (52 - Z.log2 n)) by lia. nia.
Qed.

Lemma canon_scale e0 n k :
  0 ≤ k → 0 ≤ n → n * 2 ^ k < 2 ^ 53 →
  canon (e0 - k) (n * 2 ^ k) = canon e0 n.
Proof.
  intros Hk Hn Hfit. destruct (decide (n = 0)) as [-> | Hne]; [done |].
  assert (0 < n * 2 ^ k) as Hpos by (assert (0 < 2 ^ k) by lia; nia).
  assert (Z.log2 (n * 2 ^ k) < 53) as Hlog by (apply Z.log2_lt_pow2; lia).
  rewrite Z.log2_mul_pow2 in Hlog by lia.
  unfold canon. destruct (n * 2 ^ k) as [| p | p] eqn:Hp; try lia.
  destruct n as [| q | q]; try lia.
  rewrite <- Hp, Z.log2_mul_pow2 by lia.
  pose proof (Z.log2_nonneg (Z.pos q)).
  f_equal; [| lia].
  f_equal. rewrite <- Z.mul_assoc. f_equal.
  rewrite <- Z.pow_add_r by lia. f_equal. lia.
Qed.

Lemma shl_align_fst mx ex ez :
  ez ≤ ex → Z.pos (fst (shl_align mx ex ez)) = Z.pos mx * 2 ^ (ex - ez).
Proof.
  intros Hle. unfold shl_align.
  destruct (ez - ex) as [| d | d] eqn:Hd; try lia.
  - replace (ex - ez) with 0 by lia. simpl. lia.
  - simpl. rewrite pos_iter_xO. f_equal. f_equal. lia.
Qed.

(** Sums that fit 53 bits are exact. *)
Lemma dadd_canon e0 a b :
  0 ≤ a → 0 ≤ b → a + b < 2 ^ 53 → -1022 ≤ e0 ≤ 971 →
  dadd (canon e0 a) (canon e0 b) = canon e0 (a + b).
Proof.
  intros Ha Hb Hfit He0.
  destruct (decide (a = 0)) as [-> | Hane].
  { rewrite Z.add_0_l. destruct (decide (b = 0)) as [-> | Hbne]; [done |].
    destruct (canon_mantissa e0 b ltac:(lia)) as (m & -> & _). reflexivity. }
  destruct (decide (b = 0)) as [-> | Hbne].
  { rewrite Z.add_0_r.
    destruct (canon_mantissa e0 a ltac:(lia)) as (m & -> & _). reflexivity. }
  destruct (canon_mantissa e0 a ltac:(lia)) as (ma & -> & Hma).
  destruct (canon_mantissa e0 b ltac:(lia)) as (mb & -> & Hmb).
  assert (Z.log2 a < 53) as Hla by (apply Z.log2_lt_pow2; lia).
  assert (Z.log2 b < 53) as Hlb by (apply Z.log2_lt_pow2; lia).
  unfold dadd, SFadd.
  set (ea := e0 + Z.log2 a - 52). set (eb := e0 + Z.log2 b - 52).
  set (ez := Z.min ea eb).
  cbn [cond_Zopp].
  rewrite !shl_align_fst by lia.
  assert (Z.pos ma * 2 ^ (ea - ez) + Z.pos mb * 2 ^ (eb - ez)
          = (a + b) * 2 ^ (e0 - ez)) as Hsum.
  { rewrite Hma, Hmb, <- !Z.mul_assoc, <- !Z.pow_add_r by lia.
    replace (52 - Z.log2 a + (ea - ez)) with (e0 - ez) by lia.
    replace (52 - Z.log2 b + (eb - ez)) with (e0 - ez) by lia. lia. }
  rewrite Hsum.
  assert (0 < (a + b) * 2 ^ (e0 - ez)) as Hpos
    by (assert (0 < 2 ^ (e0 - ez)) by lia; nia).
  destruct ((a + b) * 2 ^ (e0 - ez)) as [| p | p] eqn:Hp; try lia.
  cbn [binary_normalize].
  apply (binary_round_exact p ez (a + b) e0 (e0 - ez)); lia.
Qed.

(** The order of the doubles is the order of the numbers. *)
Lemma dlt_canon e0 a b :
  0 ≤ a < 2 ^ 53 → 0 ≤ b < 2 ^ 53 →
  dlt (canon e0 a) (canon e0 b) = (a <? b).
Proof.
  intros Ha Hb.
  destruct (decide (a = 0)) as [-> | Hane].
  { destruct (decide (b = 0)) as [-> | Hbne]; [done |].
    destruct (canon_mantissa e0 b ltac:(lia)) as (m & -> & _).
    simpl. symmetry. apply Z.ltb_lt. lia. }
  destruct (decide (b = 0)) as [-> | Hbne].
  { destruct (canon_mantissa e0 a ltac:(lia)) as (m & -> & _).
    simpl. symmetry. apply Z.ltb_ge. lia. }
  destruct (canon_mantissa e0 a ltac:(lia)) as (ma & -> & Hma).
  destruct (canon_mantissa e0 b ltac:(lia)) as (mb & -> & Hmb).
  pose proof (Z.log2_spec a ltac:(lia)) as Hsa.
  pose proof (Z.log2_spec b ltac:(lia)) as Hsb.
  assert (Z.log2 a < 53) as Hla by (apply Z.log2_lt_pow2; lia).
  assert (Z.log2 b < 53) as Hlb by (apply Z.log2_lt_pow2; lia).
  unfold dlt, SFltb, SFcompare.
  destruct (Z.compare_spec (e0 + Z.log2 a - 52) (e0 + Z.log2 b - 52))
    as [Heq | Hlt | Hgt].
  - assert (Z.log2 a = Z.log2 b) as Hlog by lia.
    rewrite Pos.compare_cont_spec. simpl.
    change (ma ?= mb)%positive with (Z.pos ma ?= Z.pos mb).
    rewrite Hma, Hmb, Hlog.
    assert (0 < 2 ^ (52 - Z.log2 b)) as Hpow by lia.
    destruct (Z.ltb_spec a b) as [Hab | Hab].
    + assert (a * 2 ^ (52 - Z.log2 b) < b * 2 ^ (52 - Z.log2 b)) as Hc by nia.
      by rewrite (proj2 (Z.compare_lt_iff _ _) Hc).
    + assert (b * 2 ^ (52 - Z.log2 b) ≤ a * 2 ^ (52 - Z.log2 b)) as Hc by nia.
      destruct (Z.compare_spec (a * 2 ^ (52 - Z.log2 b))
                               (b * 2 ^ (52 - Z.log2 b))); try done. lia.
  - symmetry. apply Z.ltb_lt.
    assert (2 ^ Z.succ (Z.log2 a) ≤ 2 ^ Z.log2 b)
      by (apply Z.pow_le_mono_r; lia).
    lia.
  - symmetry. apply Z.ltb_ge.
    assert (2 ^ Z.succ (Z.log2 b) ≤ 2 ^ Z.log2 a)
      by (apply Z.pow_le_mono_r; lia).
    lia.
Qed.

(** The cut to whole units. *)
Lemma truncate_canon e0 n :
  0 ≤ n < 2 ^ 53 → e0 ≤ 0 → truncate (canon e0 n) = n / 2 ^ (- e0).
Proof.
  intros Hn He0.
  destruct (decide (n = 0)) as [-> | Hne]; [done |].
  destruct (canon_mantissa e0 n ltac:(lia)) as (m & -> & Hm).
  assert (Z.log2 n < 53) as Hlog by (apply Z.log2_lt_pow2; lia).
  pose proof (Z.log2_nonneg n).
  cbn [truncate cond_Zopp].
  rewrite Z.shiftl_div_pow2, Hm by lia.
  replace (- (e0 + Z.log2 n - 52)) with (- e0 + (52 - Z.log2 n)) by lia.
  rewrite Z.pow_add_r by lia.
  apply Z.div_mul_cancel_r; lia.
Qed.

(** Comparisons, and the operations that return a number when they are given
    numbers. *)

Lemma SFcompare_antisym x y :
  SFcompare y x = CompOpp <$> SFcompare x y.
Proof.
  destruct x as [sx | sx | | sx mx ex], y as [sy | sy | | sy my ey];
    try done; try (by destruct sx); try (by destruct sy);
    try (by destruct sx, sy).
  destruct sx, sy; simpl; try done.
  - rewrite (Z.compare_antisym ex ey).
    destruct (ex ?= ey); simpl; try done.
    by rewrite (Pos.compare_cont_antisym mx my Eq).
  - rewrite (Z.compare_antisym ex ey).
    destruct (ex ?= ey); simpl; try done.
    by rewrite (Pos.compare_cont_antisym mx my Eq).
Qed.

Lemma SFcompare_number x y :
  is_nan x = false → is_nan y = false → is_Some (SFcompare x y).
Proof.
  destruct x as [sx | sx | | sx mx ex], y as [sy | sy | | sy my ey];
    try done; intros _ _; simpl; eauto.
Qed.

Lemma dle_dlt x y :
  is_nan x = false → is_nan y = false → dle x y = negb (dlt y x).
Proof.
  intros Hx Hy. unfold dle, dlt, SFleb, SFltb.
  rewrite (SFcompare_antisym x y).
  destruct (SFcompare_number x y Hx Hy) as [c ->]. by destruct c.
Qed.

Lemma shr_1_nonneg mrs : 0 ≤ shr_m mrs → 0 ≤ shr_m (shr_1 mrs).
Proof.
  destruct mrs as [m r s]. simpl.
  destruct m as [| [p | p |] | p]; simpl; lia.
Qed.

Lemma iter_pos_shr_nonneg p :
  ∀ mrs, 0 ≤ shr_m mrs → 0 ≤ shr_m (SpecFloat.iter_pos shr_1 p mrs).
Proof.
  induction p as [p IH | p IH |]; intros mrs Hm; cbn [SpecFloat.iter_pos].
  - by apply IH, IH, shr_1_nonneg.
  - by apply IH, IH.
  - by apply shr_1_nonneg.
Qed.

Lemma shr_fexp_nonneg m e l :
  0 ≤ m → 0 ≤ shr_m (shr_fexp 53 1024 m e l).1.
Proof.
  intros Hm. unfold shr_fexp, shr.
  assert (0 ≤ shr_m (shr_record_of_loc m l)) by (by destruct l as [| []]).
  destruct (fexp 53 1024 (Zdigits2 m + e) - e); simpl; try done.
  by apply iter_pos_shr_nonneg.
Qed.

Lemma round_nearest_even_nonneg m l : 0 ≤ m → 0 ≤ round_nearest_even m l.
Proof.
  intros Hm. destruct l as [| []]; simpl; try done; [| lia].
  destruct (Z.even m); lia.
Qed.

Lemma binary_round_aux_number s m e l :
  0 ≤ m → is_nan (binary_round_aux 53 1024 s m e l) = false.
Proof.
  intros Hm. unfold binary_round_aux.
  pose proof (shr_fexp_nonneg m e l Hm) as H1.
  destruct (shr_fexp 53 1024 m e l) as [mrs' e']. simpl in H1.
  pose proof (shr_fexp_nonneg _ e' loc_Exact
                (round_nearest_even_nonneg _ (loc_of_shr_record mrs') H1)) as H2.
  destruct (shr_fexp 53 1024 _ e' loc_Exact) as [mrs'' e'']. simpl in H2.
  destruct (shr_m mrs'') as [| p | p]; [done | | lia].
  by destruct (e'' <=? 1024 - 53).
Qed.

Lemma binary_normalize_number m e s :
  is_nan (binary_normalize 53 1024 m e s) = false.
Proof.
  destruct m as [| p | p]; [done | |]; cbn [binary_normalize];
    unfold binary_round; destruct (shl_align _ _ _) as [mz ez];
    by apply binary_round_aux_number.
Qed.

Lemma dsub_number x y :
  is_nan x = false → is_nan y = false → is_finite x || is_finite y = true →
  is_nan (dsub x y) = false.
Proof.
  destruct x as [sx | sx | | sx mx ex], y as [sy | sy | | sy my ey];
    try done; intros _ _ _; unfold dsub, SFsub;
    try (by destruct sx, sy).
  apply binary_normalize_number.
Qed.

Lemma ddiv_number x y :
  is_nan x = false → (∃ m e, y = S754_finite false m e) →
  is_nan (ddiv x y) = false.
Proof.
  intros Hx (my & ey & ->).
  destruct x as [sx | sx | | sx mx ex]; try done.
  unfold ddiv, SFdiv, SFdiv_core_binary.
  set (m' := match _ - _ - _ with Z.pos _ => _ | 0 => _ | Z.neg _ => _ end).
  assert (0 ≤ m') as Hm'.
  { subst m'. destruct (_ - _ - _) as [| p | p]; try done.
    apply Z.shiftl_nonneg. lia. }
  pose proof (Z.div_pos m' (Z.pos my) Hm' ltac:(lia)) as Hq.
  unfold Z.div in Hq.
  destruct (Z.div_eucl m' (Z.pos my)) as [q r].
  by apply binary_round_aux_number.
Qed.

(** *** The validator *)

Lemma PathLength_total path : PathLength path = total_length path.
Proof.
  unfold PathLength, total_length. generalize dzero.
  induction path as [| e path IH]; intros acc; simpl; [done |]. apply IH.
Qed.

Lemma AbsDifference_abs a b : AbsDifference a b = abs_difference a b.
Proof.
  unfold AbsDifference, abs_difference.
  destruct (is_nan a) eqn:Ha; [by destruct a, b |].
  destruct (is_nan b) eqn:Hb; [by destruct a, b |].
  rewrite (dle_dlt a b Ha Hb). by destruct (dlt b a).
Qed.

Lemma of_uint32_canon n : 0 ≤ n < 2 ^ 32 → of_uint32 n = canon 0 n.
Proof. intros Hn. apply binary_normalize_exact; lia. Qed.

Lemma relative_deviation_number expected len :
  0 < expected < 2 ^ 32 → is_nan len = false →
  is_nan (relative_deviation expected len) = false.
Proof.
  intros Hd Hlen. unfold relative_deviation.
  rewrite of_uint32_canon by lia.
  destruct (canon_mantissa 0 expected ltac:(lia)) as (m & -> & _).
  apply ddiv_number; [| by eauto].
  unfold abs_difference.
  destruct (dle _ _); apply dsub_number; try done; apply orb_true_r.
Qed.

(** C6.  For a positive expected distance, a tolerance that is a number and a
    path whose length is one, the validator accepts the path exactly when the
    relative deviation of its length, the sum of the lengths of its edges,
    from the expected distance is at most the tolerance, all of it computed
    in double arithmetic: a deviation equal to the tolerance is accepted, a
    greater one is rejected. *)
Theorem ValidatePath_accepts_iff (path : list Edge) (expectedDistance : Z)
    (tolerance : double) :
  0 < expectedDistance < 2 ^ 32 →
  is_nan tolerance = false →
  is_nan (total_length path) = false →
  ValidatePath path expectedDistance tolerance = true ↔
  dle (relative_deviation expectedDistance (total_length path)) tolerance
  = true.
Proof.
  intros Hd Htol Hlen.
  pose proof (relative_deviation_number expectedDistance _ Hd Hlen) as Hdev.
  rewrite (dle_dlt _ _ Hdev Htol).
  unfold ValidatePath. rewrite PathLength_total, AbsDifference_abs.
  fold (relative_deviation expectedDistance (total_length path)).
  by destruct (dlt tolerance _).
Qed.

(** *** Lists *)

Lemma mbind_Ok {A B} (k : A → result B) (a : A) : (Ok a ≫= k) = k a.
Proof. reflexivity. Qed.

Lemma filter_ext_elem (P Q : Edge → Prop) `{!∀ x, Decision (P x)}
    `{!∀ x, Decision (Q x)} (l : list Edge) :
  (∀ x, x ∈ l → P x ↔ Q x) → filter P l = filter Q l.
Proof.
  induction l as [| x l IH]; intros Hyp; [done |].
  assert (filter P l = filter Q l) as IH'.
  { apply IH. intros y Hy. apply Hyp. by apply list_elem_of_further. }
  destruct (decide (P x)) as [HP | HP].
  - rewrite !filter_cons_True; [by rewrite IH' | | done].
    apply Hyp; [apply list_elem_of_here | done].
  - rewrite !filter_cons_False; [done | | done].
    intros HQ. apply HP. apply Hyp; [apply list_elem_of_here | done].
Qed.

Lemma filter_none (P : Edge → Prop) `{!∀ x, Decision (P x)} (l : list Edge) :
  (∀ x, x ∈ l → ¬ P x) → filter P l = [].
Proof.
  induction l as [| x l IH]; intros Hyp; [done |].
  rewrite filter_cons_False by (apply Hyp, list_elem_of_here).
  apply IH. intros y Hy. apply Hyp. by apply list_elem_of_further.
Qed.

Lemma filter_all (P : Edge → Prop) `{!∀ x, Decision (P x)} (l : list Edge) :
  (∀ x, x ∈ l → P x) → filter P l = l.
Proof.
  induction l as [| x l IH]; intros Hyp; [done |].
  rewrite filter_cons_True by (apply Hyp, list_elem_of_here).
  f_equal. apply IH. intros y Hy. apply Hyp. by apply list_elem_of_further.
Qed.

Lemma elem_of_take_subseteq (x : Edge) n l : x ∈ take n l → x ∈ l.
Proof. intros (i & Hi & _)%elem_of_take. by eapply list_elem_of_lookup_2. Qed.

Lemma elem_of_drop_subseteq (x : Edge) n l : x ∈ drop n l → x ∈ l.
Proof.
  rewrite <- (take_drop n l) at 2. rewrite elem_of_app. by right.
Qed.

(** A duplicate-free list inside [l] and as long as a duplicate-free [l]
    holds every element of [l]. *)
Lemma NoDup_length_incl_elem (k l : list Edge) :
  NoDup k → length k = length l → (∀ e, e ∈ k → e ∈ l) → ∀ e, e ∈ l → e ∈ k.
Proof.
  intros Hk Hlen Hincl e He.
  apply list_elem_of_In.
  apply (List.NoDup_length_incl (l := k) (l' := l)).
  - by apply NoDup_ListNoDup.
  - lia.
  - intros x Hx. apply list_elem_of_In. apply Hincl. by apply list_elem_of_In.
  - by apply list_elem_of_In.
Qed.

(** *** Following the links back *)

Lemma link_of_touch links e x : link_of (touch links e) x = link_of links x.
Proof.
  unfold link_of, touch. destruct (links !! e) eqn:He; [done |].
  destruct (decide (e = x)) as [<- | Hne].
  - by rewrite lookup_insert_eq, He.
  - by rewrite lookup_insert_ne.
Qed.

Lemma Walk_ext next next' from e l :
  (∀ x, next x = next' x) → Walk next from e l → Walk next' from e l.
Proof.
  intros Hext. induction 1 as [| e l Hne _ IH]; constructor; [done |].
  by rewrite <- Hext.
Qed.

Lemma walk_links_Walk fuel links from e path p :
  walk_links fuel links from e path = Ok p →
  ∃ l, p = path ++ l ∧ Walk (link_of links) from e l.
Proof.
  revert links e path.
  induction fuel as [| fuel IH]; intros links e path; simpl;
    destruct (decide (e = from)) as [-> | Hne]; intros Hrun; try done.
  - injection Hrun as <-. exists []. split; [by rewrite app_nil_r | constructor].
  - injection Hrun as <-. exists []. split; [by rewrite app_nil_r | constructor].
  - apply IH in Hrun as (l & -> & Hwalk).
    exists (e :: l). split; [by rewrite <- app_assoc |].
    constructor; [done |].
    eapply Walk_ext; [| exact Hwalk]. apply link_of_touch.
Qed.

Lemma Walk_walk_links_ext next from e l :
  Walk next from e l →
  ∀ links fuel path, (∀ x, next x = link_of links x) → (length l ≤ fuel)%nat →
  walk_links fuel links from e path = Ok (path ++ l).
Proof.
  induction 1 as [| e l Hne Hwalk IH]; intros links fuel path Hnext Hfuel.
  - destruct fuel; simpl; rewrite decide_True by done; by rewrite app_nil_r.
  - destruct fuel as [| fuel]; simpl in *; [lia |].
    rewrite decide_False by done.
    fold (touch links e). fold (link_of links e). rewrite <- Hnext.
    rewrite (IH (touch links e)); [by rewrite <- app_assoc | | lia].
    intros x. by rewrite link_of_touch.
Qed.

Lemma Walk_walk_links links from e l fuel path :
  Walk (link_of links) from e l → (length l ≤ fuel)%nat →
  walk_links fuel links from e path = Ok (path ++ l).
Proof. intros Hwalk Hfuel. by eapply Walk_walk_links_ext. Qed.

Lemma Walk_det next from e l1 l2 :
  Walk next from e l1 → Walk next from e l2 → l1 = l2.
Proof.
  intros Hw1. revert l2.
  induction Hw1 as [| e l1 Hne _ IH]; intros l2 Hw2; inversion Hw2; subst;
    try done.
  f_equal. by apply IH.
Qed.

Lemma Walk_from_not_in next from e l : Walk next from e l → from ∉ l.
Proof.
  induction 1 as [| e l Hne _ IH]; [apply not_elem_of_nil |].
  apply not_elem_of_cons. split; [done | exact IH].
Qed.

(** From an edge met on the way the walk goes on as the rest of the list. *)
Lemma Walk_suffix next from e l x :
  Walk next from e l → x ∈ l →
  ∃ l1 l2, l = l1 ++ l2 ∧ Walk next from x l2.
Proof.
  induction 1 as [| e l Hne Hwalk IH]; intros Hx; [by apply elem_of_nil in Hx |].
  destruct (decide (x = e)) as [-> | Hxe].
  - exists [], (e :: l). split; [done | by constructor].
  - apply elem_of_cons in Hx as [? | Hx]; [done |].
    destruct (IH Hx) as (l1 & l2 & -> & Hw2).
    by exists (e :: l1), l2.
Qed.

Lemma Walk_NoDup next from e l : Walk next from e l → NoDup l.
Proof.
  induction 1 as [| e l Hne Hwalk IH]; constructor; [| done].
  intros Hin.
  destruct (Walk_suffix _ _ _ _ _ Hwalk Hin) as (l1 & l2 & -> & Hw2).
  assert (l2 = e :: l1 ++ l2) as Heq
    by (eapply Walk_det; [exact Hw2 | by constructor]).
  apply (f_equal length) in Heq. simpl in Heq. rewrite length_app in Heq. lia.
Qed.

(** The path the search returns on success: the walk back from the target,
    closed by the source and reversed. *)
Lemma step_Reached to maxPathLength st u st' :
  step to maxPathLength st = Reached u st' → u = to.
Proof.
  unfold step. destruct (pq_pop (q st)) as [[state q'] |]; [| done].
  repeat case_match; try done; by intros [= <- _].
Qed.

Lemma search_loop_true fuel from to maxPathLength path st P :
  search_loop fuel from to maxPathLength path st = Ok (true, P) →
  ∃ next l, Walk next from to l ∧ P = reverse (path ++ l ++ [from]).
Proof.
  revert st. induction fuel as [| fuel IH]; intros st; simpl; [done |].
  destruct (step to maxPathLength st) as [| st' | u st'] eqn:Hstep.
  - done.
  - apply IH.
  - apply step_Reached in Hstep as ->.
    destruct (walk_links fuel (links st') from to path) as [p | |] eqn:Hwalk;
      try done.
    intros [= <-].
    apply walk_links_Walk in Hwalk as (l & -> & Hwalk).
    exists (link_of (links st')), l. split; [done |]. by rewrite <- app_assoc.
Qed.

Lemma FindShortestPath_true_shape fuel from to frc maxPathLength P :
  FindShortestPath fuel from to frc maxPathLength [] = Ok (true, P) →
  head P = Some from ∧ last P = Some to ∧ NoDup P.
Proof.
  intros Hrun. apply search_loop_true in Hrun as (next & l & Hwalk & ->).
  pose proof (Walk_NoDup _ _ _ _ Hwalk) as Hnd.
  pose proof (Walk_from_not_in _ _ _ _ Hwalk) as Hfrom.
  simpl. rewrite reverse_app. simpl. split_and!.
  - done.
  - destruct Hwalk as [| e l Hne Hwalk]; [done |].
    rewrite reverse_cons, app_comm_cons. apply last_snoc.
  - apply NoDup_cons. split.
    + by rewrite elem_of_reverse.
    + by rewrite reverse_Permutation.
Qed.

Lemma occurrences_app e l1 l2 :
  occurrences e (l1 ++ l2) = (occurrences e l1 + occurrences e l2)%nat.
Proof. unfold occurrences. by rewrite filter_app, length_app. Qed.

Lemma occurrences_none e l : e ∉ l → occurrences e l = O.
Proof.
  intros He. unfold occurrences. rewrite filter_none; [done |].
  by intros x Hx ->.
Qed.

Lemma occurrences_NoDup e l : NoDup l → e ∈ l → occurrences e l = 1%nat.
Proof.
  intros Hnd He. apply list_elem_of_split in He as (l1 & l2 & ->).
  apply NoDup_app in Hnd as (_ & Hdisj & [He2 _]%NoDup_cons).
  rewrite occurrences_app, (occurrences_none e l1).
  - pose proof (occurrences_none e l2 He2) as H2.
    unfold occurrences in *. rewrite filter_cons_True by done.
    simpl. by rewrite H2.
  - intros He1. apply (Hdisj e He1), list_elem_of_here.
Qed.

(** *** Sorting and counting the common edges *)

Lemma sort_insert_perm x l : sort_insert x l ≡ₚ x :: l.
Proof.
  induction l as [| y l IH]; simpl; [done |].
  destruct (edge_less y x); [| done].
  rewrite IH. apply Permutation_swap.
Qed.

Lemma sort_perm l : sort l ≡ₚ l.
Proof.
  induction l as [| x l IH]; simpl; [done |].
  by rewrite sort_insert_perm, IH.
Qed.

Lemma sort_elem x l : x ∈ sort l ↔ x ∈ l.
Proof. by rewrite sort_perm. Qed.

Section Ordered.

Hypothesis edge_order : StrictTotal.

Lemma sort_insert_sorted x l :
  sorted l → x ∉ l → sorted (sort_insert x l).
Proof.
  destruct edge_order as (Hirr & Htrans & Htot).
  induction l as [| y l IH]; simpl; intros Hs Hx.
  - split; [constructor | done].
  - destruct Hs as [Hy Hs].
    apply not_elem_of_cons in Hx as [Hxy Hx].
    destruct (edge_less y x) eqn:Hyx; simpl.
    + split; [| by apply IH].
      rewrite Forall_forall. intros z Hz.
      rewrite sort_insert_perm in Hz.
      apply elem_of_cons in Hz as [-> | Hz]; [done |].
      rewrite Forall_forall in Hy. by apply Hy.
    + assert (edge_less x y = true) as Hxy'.
      { destruct (edge_less x y) eqn:E; [done |].
        exfalso. apply Hxy. by apply Htot. }
      split; [| done].
      constructor; [done |].
      eapply Forall_impl; [exact Hy |]. simpl. intros z Hz.
      by eapply Htrans.
Qed.

Lemma sort_sorted l : NoDup l → sorted (sort l).
Proof.
  induction 1 as [| x l Hx Hnd IH]; simpl; [done |].
  apply sort_insert_sorted; [done |]. by rewrite sort_elem.
Qed.

Lemma sorted_head_not_in x y l :
  edge_less x y = true → Forall (λ z, edge_less y z = true) l → x ∉ y :: l.
Proof.
  destruct edge_order as (Hirr & Htrans & Htot).
  intros Hxy Hl Hin.
  apply elem_of_cons in Hin as [-> | Hin].
  - by rewrite Hirr in Hxy.
  - rewrite Forall_forall in Hl.
    specialize (Htrans _ _ _ Hxy (Hl _ Hin)). by rewrite Hirr in Htrans.
Qed.

Lemma set_intersection_count_common a b :
  sorted a → sorted b → set_intersection_count a b = length (common a b).
Proof.
  clear default_edge GetEndJunction IsFake EdgeLength GetOutgoingEdges
        pathLengthTolerance.
  destruct edge_order as (Hirr & Htrans & Htot).
  unfold common. revert b.
  induction a as [| x a IHa]; intros b Ha Hb; [done |].
  destruct Ha as [Hx Ha].
  induction b as [| y b IHb]; simpl.
  - rewrite filter_none; [done |]. by intros ? _ ?%elem_of_nil.
  - simpl in IHb. destruct Hb as [Hy Hb].
    destruct (edge_less x y) eqn:Hxy.
    + rewrite IHa by done.
      rewrite filter_cons_False; [done |].
      by apply sorted_head_not_in.
    + destruct (edge_less y x) eqn:Hyx.
      * rewrite IHb by done.
        assert (y ∉ x :: a) as Hya by (by apply sorted_head_not_in).
        f_equal. apply filter_ext_elem. intros z Hz.
        rewrite elem_of_cons.
        split; [tauto |]. intros [-> | ?]; done.
      * assert (x = y) as <- by (by apply Htot).
        rewrite filter_cons_True by apply list_elem_of_here.
        simpl. f_equal. rewrite IHa by done.
        f_equal. apply filter_ext_elem. intros z Hz.
        rewrite elem_of_cons.
        split; [tauto |]. intros [-> | ?]; [| done].
        rewrite Forall_forall in Hx. specialize (Hx _ Hz).
        by rewrite Hirr in Hx.
Qed.

Lemma IntersectionLen_common a b :
  NoDup a → NoDup b → IntersectionLen a b = length (common a b).
Proof.
  intros Ha Hb. unfold IntersectionLen.
  rewrite set_intersection_count_common by (by apply sort_sorted).
  unfold common. rewrite (sort_perm a).
  f_equal. apply filter_ext_elem. intros z _. apply sort_elem.
Qed.

(** *** Overlap of two duplicate-free sequences *)

Lemma clean_overlap_common a b k :
  NoDup a → CleanOverlap a b k → common a b = drop (length a - k) a.
Proof.
  intros Ha (Hka & Hkb & Heq & Hall). unfold common.
  rewrite <- (take_drop (length a - k) a) at 1.
  rewrite <- (take_drop (length a - k) a) in Ha.
  apply NoDup_app in Ha as (_ & Hdisj & _).
  rewrite filter_app, filter_none, filter_all; [done | |].
  - intros x Hx. rewrite Heq in Hx. by eapply elem_of_take_subseteq.
  - intros x Hx Hxb. apply (Hdisj x Hx).
    rewrite Heq. apply Hall; [| done]. by eapply elem_of_take_subseteq.
Qed.

Lemma common_length_le a b : NoDup a → (length (common a b) ≤ length b)%nat.
Proof.
  intros Ha. apply submseteq_length, NoDup_submseteq.
  - by apply NoDup_filter.
  - intros x Hx. by apply list_elem_of_filter in Hx as [? _].
Qed.

Lemma common_clean a b :
  NoDup a → NoDup b →
  PrefEqualsSuff a b (length (common a b)) = true →
  CleanOverlap a b (length (common a b)).
Proof.
  intros Ha Hb Hpre. apply bool_decide_eq_true in Hpre.
  pose proof (common_length_le a b Ha) as Hlb.
  assert (length (common a b) ≤ length a)%nat as Hla by apply length_filter.
  split_and!; try done.
  intros e Hea Heb.
  assert (e ∈ common a b) as Hec by (by apply list_elem_of_filter).
  clear Hea Heb. revert e Hec. apply NoDup_length_incl_elem.
  - rewrite <- (take_drop (length (common a b)) b) in Hb.
    by apply NoDup_app in Hb as (? & _).
  - by rewrite length_take_le.
  - intros e He. apply list_elem_of_filter. split.
    + by eapply elem_of_take_subseteq.
    + rewrite <- Hpre in He. by eapply elem_of_drop_subseteq.
Qed.

Lemma PathOverlappingLen_clean a b k :
  NoDup a → NoDup b → CleanOverlap a b k → Z.of_nat k ≤ 2147483647 →
  PathOverlappingLen a b = Ok (Z.of_nat k).
Proof.
  intros Ha Hb Hclean Hk. unfold PathOverlappingLen.
  rewrite IntersectionLen_common, (clean_overlap_common a b k) by done.
  destruct Hclean as (Hka & Hkb & Heq & _).
  rewrite length_drop.
  replace (length a - (length a - k))%nat with k by lia.
  unfold PrefEqualsSuff. rewrite bool_decide_eq_true_2 by done.
  unfold checked_cast_int32. by rewrite (proj2 (Z.leb_le _ _) Hk).
Qed.

Lemma PathOverlappingLen_invalid a b :
  NoDup a → NoDup b → (¬ ∃ k, CleanOverlap a b k) →
  PathOverlappingLen a b = Ok (-1).
Proof.
  intros Ha Hb Hno. unfold PathOverlappingLen.
  rewrite IntersectionLen_common by done.
  destruct (PrefEqualsSuff a b (length (common a b))) eqn:Hpre; [| done].
  exfalso. apply Hno. eexists. by apply common_clean.
Qed.

(** C4.  When the edges common to the duplicate-free sequences [A] and [B]
    are exactly the last [k > 0] edges of [A], equal in order to the first
    [k] edges of [B], the connection succeeds and appends [A] followed by
    [B] without its first [k] edges: [length A + length B - k] edges, none
    of them twice.  ([k] fits [int32_t], as [checked_cast] demands.) *)
Theorem ConnectAdjacentCandidateLines_clean_overlap (fuel : nat)
    (A B : list Edge) (frc : FunctionalRoadClass) (distanceToNextPoint : Z)
    (out : list Edge) (k : nat) :
  NoDup A → NoDup B → CleanOverlap A B k → (0 < k)%nat →
  Z.of_nat k ≤ 2147483647 →
  ConnectAdjacentCandidateLines fuel A B frc distanceToNextPoint out
  = Ok (true, out ++ A ++ drop k B)
  ∧ length (A ++ drop k B) = (length A + length B - k)%nat
  ∧ NoDup (A ++ drop k B).
Proof.
  intros HA HB Hclean Hk Hfit. split_and!.
  - unfold ConnectAdjacentCandidateLines.
    destruct B as [| b B'].
    { destruct Hclean as (_ & Hkb & _). simpl in Hkb. lia. }
    rewrite (PathOverlappingLen_clean A (b :: B') k) by done.
    rewrite mbind_Ok.
    destruct (Z.eqb_spec (Z.of_nat k) 0) as [E | _]; [lia |].
    destruct (Z.eqb_spec (Z.of_nat k) (-1)) as [E | _]; [lia |].
    simpl negb. cbv iota. by rewrite Nat2Z.id.
  - destruct Hclean as (Hka & Hkb & _).
    rewrite length_app, length_drop. lia.
  - destruct Hclean as (Hka & Hkb & Heq & Hall).
    rewrite <- (take_drop k B) in HB.
    apply NoDup_app in HB as (_ & Hdisj & Hdrop).
    apply NoDup_app. split_and!; [done | | done].
    intros e HeA HeB. apply (Hdisj e); [| done].
    apply Hall; [done |]. by eapply elem_of_drop_subseteq.
Qed.

(** C2, amended.  When the duplicate-free sequences [A] and [B] share an
    edge but their common edges are not a suffix of [A] equal to a prefix
    of [B], the connection fails at once: for every graph and every fuel,
    zero included, the result is failure and the output is left as it was,
    so no search is run. *)
Theorem ConnectAdjacentCandidateLines_invalid_overlap (fuel : nat)
    (A B : list Edge) (frc : FunctionalRoadClass) (distanceToNextPoint : Z)
    (out : list Edge) :
  NoDup A → NoDup B → (∃ e, e ∈ A ∧ e ∈ B) → (¬ ∃ k, CleanOverlap A B k) →
  ConnectAdjacentCandidateLines fuel A B frc distanceToNextPoint out
  = Ok (false, out).
Proof.
  intros HA HB (e & HeA & HeB) Hno. unfold ConnectAdjacentCandidateLines.
  destruct B as [| b B']; [by apply elem_of_nil in HeB |].
  by rewrite (PathOverlappingLen_invalid A (b :: B')).
Qed.

Lemma PathOverlappingLen_disjoint a b :
  NoDup a → NoDup b → (∀ e, e ∈ a → e ∉ b) → PathOverlappingLen a b = Ok 0.
Proof.
  intros Ha Hb Hdisj. unfold PathOverlappingLen.
  rewrite IntersectionLen_common by done.
  unfold common. rewrite filter_none by done. simpl.
  unfold PrefEqualsSuff. by rewrite Nat.sub_0_r, drop_all.
Qed.

(** C5.  When [from] and [to] share no edge and the search from the last
    edge of [from] to the first edge of [to] succeeds with [P], the
    connection appends [from] without its last edge, then [P], then [to]
    without its first edge.  [P] starts with the last edge of [from] and
    ends with the first edge of [to], and each of the two occurs exactly
    once in what is appended. *)
Theorem ConnectAdjacentCandidateLines_search_splice (fuel : nat)
    (from to : list Edge) (frc : FunctionalRoadClass)
    (distanceToNextPoint : Z) (out P : list Edge) (from_back to_front : Edge) :
  NoDup from → NoDup to → (∀ e, e ∈ from → e ∉ to) →
  last from = Some from_back → head to = Some to_front →
  FindShortestPath fuel from_back to_front frc distanceToNextPoint []
  = Ok (true, P) →
  ConnectAdjacentCandidateLines fuel from to frc distanceToNextPoint out
  = Ok (true, out ++ removelast from ++ P ++ tail to)
  ∧ head P = Some from_back ∧ last P = Some to_front
  ∧ occurrences from_back (removelast from ++ P ++ tail to) = 1%nat
  ∧ occurrences to_front (removelast from ++ P ++ tail to) = 1%nat.
Proof.
  intros Hfrom Hto Hdisj Hback Hfront Hsearch.
  destruct (FindShortestPath_true_shape _ _ _ _ _ _ Hsearch)
    as (HheadP & HlastP & HndP).
  destruct to as [| tf to_rest]; [done |]. injection Hfront as ->.
  apply last_Some in Hback as [from' ->].
  rewrite removelast_last. simpl tail.
  assert (from_back ∈ from' ++ [from_back]) as Hfb
    by (apply elem_of_app; right; apply list_elem_of_here).
  pose proof (proj1 (NoDup_app _ _) Hfrom) as (_ & Hfrom' & _).
  pose proof (proj1 (NoDup_cons _ _) Hto) as [Hto' _].
  split_and!; try done.
  - unfold ConnectAdjacentCandidateLines.
    rewrite PathOverlappingLen_disjoint; try done.
    + rewrite mbind_Ok. simpl negb. cbv iota.
      rewrite last_snoc, decide_False.
      * rewrite Hsearch, mbind_Ok. simpl. by rewrite removelast_last.
      * intros ->. apply (Hdisj to_front Hfb), list_elem_of_here.
  - rewrite !occurrences_app, (occurrences_NoDup _ P),
      !occurrences_none; try done.
    + intros Hin. apply (Hdisj _ Hfb). by apply list_elem_of_further.
    + intros Hin. apply (Hfrom' _ Hin), list_elem_of_here.
    + by apply head_Some_elem_of.
  - rewrite !occurrences_app, (occurrences_NoDup _ P),
      !occurrences_none; try done.
    + intros Hin. apply (Hdisj to_front); [| apply list_elem_of_here].
      apply elem_of_app. by left.
    + by apply last_Some_elem_of.
Qed.

End Ordered.

(** *** The loops over the pairs of candidates *)

Lemma ConnectAdjacentCandidateLines_nonempty fuel from to frc d p :
  ConnectAdjacentCandidateLines fuel from to frc d [] = Ok (true, p) → p ≠ [].
Proof.
  unfold ConnectAdjacentCandidateLines.
  destruct to as [| tf to_rest]; [done |].
  unfold PathOverlappingLen.
  destruct (PrefEqualsSuff from (tf :: to_rest) _) eqn:Hpre.
  - unfold checked_cast_int32.
    destruct (Z.of_nat _ <=? 2147483647) eqn:Hfit; [| done].
    rewrite mbind_Ok.
    destruct from as [| f from'].
    + unfold IntersectionLen. simpl. intros Hrun. by destruct fuel.
    + destruct (negb _).
      * destruct (_ =? -1); [done |]. by intros [= <-].
      * destruct (last (f :: from')) as [fb |]; [| done].
        case_decide; [done |].
        destruct (FindShortestPath _ _ _ _ _ _) as [[[] P] | |] eqn:Hs;
          simpl; try done.
        apply FindShortestPath_true_shape in Hs as (Hh & _ & _).
        intros [= <-]. intros Heq.
        apply app_eq_nil in Heq as [_ Heq].
        apply app_eq_nil in Heq as [-> _]. done.
  - rewrite mbind_Ok. simpl. done.
Qed.

Lemma attempt_nonempty fuel point pair p :
  attempt fuel point pair = Ok (Some p) → p ≠ [].
Proof.
  unfold attempt.
  destruct (ConnectAdjacentCandidateLines _ _ _ _ _ _) as [[[] part] | |] eqn:Hc;
    simpl; try done.
  case_match; [| done]. intros [= <-].
  by eapply ConnectAdjacentCandidateLines_nonempty.
Qed.

Lemma has_fake_boundary_nonempty p front back :
  head p = Some front → last p = Some back →
  has_fake_boundary p = IsFake front || IsFake back.
Proof. unfold has_fake_boundary. by intros -> ->. Qed.

Lemma nonempty_head_last (p : list Edge) :
  p ≠ [] → ∃ front back, head p = Some front ∧ last p = Some back.
Proof.
  intros Hp. destruct p as [| x p]; [done |].
  exists x. destruct (last (x :: p)) as [b |] eqn:Hl; [by exists b |].
  by apply last_None in Hl.
Qed.

(** One pair of candidates moves the loop variables as [advance] says. *)
Lemma tryPair_advance fuel segment point from to s r :
  attempt fuel point (from, to) = Ok r →
  found s = false →
  ∃ s', tryPair fuel segment point from to s = Ok s'
        ∧ (outcome s', fakePath s') = advance (None, fakePath s) r.
Proof.
  unfold attempt, tryPair. simpl. intros Hatt Hfound.
  destruct (ConnectAdjacentCandidateLines _ _ _ _ _ _) as [[found1 part] | |]
    eqn:Hc; simpl in *; try done.
  destruct found1; simpl in *.
  - destruct (ValidatePath part _ _) eqn:Hv; simpl in *.
    + injection Hatt as <-.
      apply ConnectAdjacentCandidateLines_nonempty in Hc.
      destruct (nonempty_head_last part Hc) as (front & back & Hh & Hl).
      unfold advance. simpl.
      rewrite (has_fake_boundary_nonempty part front back) by done.
      destruct (bool_decide (fakePath s = [])); simpl.
      * rewrite Hh, Hl. destruct (IsFake front || IsFake back); eauto.
      * eauto.
    + injection Hatt as <-. rewrite andb_false_r. eauto.
  - injection Hatt as <-. eauto.
Qed.

Lemma outcome_found s : found s = true → outcome s = Some (resultPathPart s).
Proof. unfold outcome. by intros ->. Qed.

Lemma outcome_searching s : found s = false → outcome s = None.
Proof. unfold outcome. by intros ->. Qed.

Lemma advance_accepted_step a d r : advance (Some a, d) r = (Some a, d).
Proof. reflexivity. Qed.

Lemma advance_accepted a d rs : foldl advance (Some a, d) rs = (Some a, d).
Proof. induction rs as [| r rs IH]; [done |]. simpl. exact IH. Qed.

Lemma toLoop_advance fuel segment point from toCandidates rs :
  Forall2 (λ to r, attempt fuel point (from, to) = Ok r) toCandidates rs →
  ∀ s, ∃ s', toLoop fuel segment point from toCandidates s = Ok s'
             ∧ (outcome s', fakePath s')
               = foldl advance (outcome s, fakePath s) rs.
Proof.
  induction 1 as [| to r toCandidates rs Hatt _ IH]; intros s; simpl.
  - eauto.
  - destruct (found s) eqn:Hfound.
    + exists s. split; [done |].
      by rewrite (outcome_found s Hfound), advance_accepted_step,
        advance_accepted.
    + destruct (tryPair_advance fuel segment point from to s r Hatt Hfound)
        as (s1 & -> & Hs1).
      rewrite mbind_Ok. destruct (IH s1) as (s' & -> & Hs').
      exists s'. split; [done |].
      by rewrite Hs', Hs1, (outcome_searching s Hfound).
Qed.

Lemma fromLoop_advance fuel segment point fromCandidates toCandidates :
  ∀ rs,
  Forall2 (λ pair r, attempt fuel point pair = Ok r)
          (candidate_pairs fromCandidates toCandidates) rs →
  ∀ s, ∃ s', fromLoop fuel segment point fromCandidates toCandidates s = Ok s'
             ∧ (outcome s', fakePath s')
               = foldl advance (outcome s, fakePath s) rs.
Proof.
  induction fromCandidates as [| from fromCandidates IH]; intros rs Hrs s; simpl.
  - apply Forall2_nil_inv_l in Hrs as ->. eauto.
  - simpl in Hrs.
    apply Forall2_app_inv_l in Hrs as (rs1 & rs2 & Hrs1 & Hrs2 & ->).
    apply Forall2_fmap_l in Hrs1. rewrite foldl_app.
    destruct (found s) eqn:Hfound.
    + exists s. split; [done |].
      by rewrite (outcome_found s Hfound), !advance_accepted.
    + destruct (toLoop_advance fuel segment point from toCandidates rs1 Hrs1 s)
        as (s1 & -> & Hs1).
      rewrite mbind_Ok. destruct (IH rs2 Hrs2 s1) as (s' & -> & Hs').
      exists s'. split; [done |]. by rewrite Hs', Hs1.
Qed.

Lemma connectSegment_settle fuel segment point fromCandidates toCandidates
    part0 calls0 rs :
  Forall2 (λ pair r, attempt fuel point pair = Ok r)
          (candidate_pairs fromCandidates toCandidates) rs →
  ∃ s, connectSegment fuel segment point fromCandidates toCandidates
         part0 calls0 = Ok s
       ∧ outcome s = settle (foldl advance (None, []) rs).
Proof.
  intros Hrs. unfold connectSegment.
  destruct (fromLoop_advance fuel segment point fromCandidates toCandidates
              rs Hrs
              {| found := false; resultPathPart := part0; fakePath := [];
                 calls := calls0 |}) as (s1 & -> & Hs1).
  rewrite mbind_Ok. unfold outcome in Hs1. simpl in Hs1.
  rewrite <- Hs1. unfold settle, outcome. simpl.
  destruct (found s1) eqn:Hfound; simpl.
  - rewrite andb_false_r. exists s1. by rewrite Hfound.
  - rewrite andb_true_r.
    destruct (bool_decide (fakePath s1 = [])); simpl.
    + exists s1. by rewrite Hfound.
    + eauto.
Qed.

Lemma settle_deferred d rs :
  d ≠ [] →
  settle (foldl advance (None, d) rs) = Some (default d (head (omap id rs))).
Proof.
  intros Hd. induction rs as [| [p |] rs IH]; simpl.
  - unfold settle. simpl. by rewrite bool_decide_eq_false_2.
  - unfold advance at 2. simpl. rewrite bool_decide_eq_false_2 by done.
    simpl. by rewrite advance_accepted.
  - exact IH.
Qed.

Lemma settle_segment_choice rs :
  (∀ p, Some p ∈ rs → p ≠ []) →
  settle (foldl advance (None, []) rs) = segment_choice (omap id rs).
Proof.
  induction rs as [| [p |] rs IH]; intros Hne; simpl.
  - done.
  - unfold advance at 2. simpl.
    destruct (has_fake_boundary p) eqn:Hfake.
    + rewrite settle_deferred; [done |]. apply Hne, list_elem_of_here.
    + by rewrite advance_accepted.
  - apply IH. intros p Hp. by apply Hne, list_elem_of_further.
Qed.

Lemma settle_attempts fuel point pairs rs :
  Forall2 (λ pair r, attempt fuel point pair = Ok r) pairs rs →
  settle (foldl advance (None, []) rs) = segment_choice (omap id rs).
Proof.
  intros Hrs. apply settle_segment_choice. intros p Hp.
  apply list_elem_of_lookup in Hp as [i Hi].
  destruct (Forall2_lookup_r _ _ _ _ _ Hrs Hi) as (pair & _ & Hatt).
  by eapply attempt_nonempty.
Qed.

(** C3, amended.  In a segment whose pairs of candidates each yield a
    result, the path the segment ends with is decided by its validated paths
    in the order of the pairs: none, if no pair validates; the first one if
    it has no fake boundary edge; and if the first one has a fake boundary
    edge, the validated path that comes next, with or without a fake
    boundary edge, or the first one itself when no other pair validates. *)
Theorem connectSegment_choice (fuel segment : nat) (point : LRP)
    (fromCandidates toCandidates : list (list Edge)) (part0 : list Edge)
    (calls0 : list Call) (rs : list (option (list Edge))) :
  Forall2 (λ pair r, attempt fuel point pair = Ok r)
          (candidate_pairs fromCandidates toCandidates) rs →
  ∃ s, connectSegment fuel segment point fromCandidates toCandidates
         part0 calls0 = Ok s
       ∧ outcome s = segment_choice (omap id rs).
Proof.
  intros Hrs.
  destruct (connectSegment_settle fuel segment point fromCandidates
              toCandidates part0 calls0 rs Hrs) as (s & Hs & Hout).
  exists s. split; [done |]. rewrite Hout. by eapply settle_attempts.
Qed.

(** *** Invariants of the loops over the pairs *)

Lemma toLoop_invariant (I : SegState → Prop) fuel segment point from
    toCandidates :
  (∀ to s s', to ∈ toCandidates → I s →
     tryPair fuel segment point from to s = Ok s' → I s') →
  ∀ s s', I s → toLoop fuel segment point from toCandidates s = Ok s' → I s'.
Proof.
  induction toCandidates as [| to toCandidates IH]; intros Hstep s s' HI; simpl.
  - by intros [= <-].
  - destruct (found s); [by intros [= <-] |].
    destruct (tryPair fuel segment point from to s) as [s1 | |] eqn:Htry;
      try done.
    rewrite mbind_Ok. apply IH.
    + intros to' s2 s3 Hto'. apply Hstep. by apply list_elem_of_further.
    + eapply Hstep; [apply list_elem_of_here | exact HI | exact Htry].
Qed.

Lemma fromLoop_invariant (I : SegState → Prop) fuel segment point
    fromCandidates toCandidates :
  (∀ from to s s', from ∈ fromCandidates → to ∈ toCandidates → I s →
     tryPair fuel segment point from to s = Ok s' → I s') →
  ∀ s s', I s →
    fromLoop fuel segment point fromCandidates toCandidates s = Ok s' → I s'.
Proof.
  induction fromCandidates as [| from fromCandidates IH];
    intros Hstep s s' HI; simpl.
  - by intros [= <-].
  - destruct (found s); [by intros [= <-] |].
    destruct (toLoop fuel segment point from toCandidates s) as [s1 | |]
      eqn:Hto; try done.
    rewrite mbind_Ok. apply IH.
    + intros from' to s2 s3 Hfrom'. apply Hstep. by apply list_elem_of_further.
    + eapply toLoop_invariant; [| exact HI | exact Hto].
      intros to s2 s3. apply Hstep, list_elem_of_here.
Qed.

Lemma tryPair_calls fuel segment point from to s s' (calls0 : list Call) :
  (∀ call, call ∈ calls s → call ∈ calls0 ∨ call_segment call = segment) →
  tryPair fuel segment point from to s = Ok s' →
  ∀ call, call ∈ calls s' → call ∈ calls0 ∨ call_segment call = segment.
Proof.
  intros Hs. unfold tryPair.
  destruct (ConnectAdjacentCandidateLines _ _ _ _ _ _) as [[found1 part] | |];
    try done.
  rewrite mbind_Ok.
  assert (∀ s', (calls s' = calls s ++ [CallConnect segment from to]
                 ∨ calls s' = (calls s ++ [CallConnect segment from to])
                              ++ [CallValidate segment part]) →
          ∀ call, call ∈ calls s' → call ∈ calls0 ∨ call_segment call = segment)
    as Hcalls.
  { intros s1 [-> | ->] call; rewrite ?elem_of_app, ?list_elem_of_singleton;
      intros Hcall; destruct_or?; subst; auto. }
  repeat case_match; try done; intros [= <-]; apply Hcalls; simpl; auto.
Qed.

Lemma connectSegment_calls fuel segment point fromCandidates toCandidates
    part0 (calls0 : list Call) s :
  connectSegment fuel segment point fromCandidates toCandidates part0 calls0
  = Ok s →
  ∀ call, call ∈ calls s → call ∈ calls0 ∨ call_segment call = segment.
Proof.
  unfold connectSegment.
  destruct (fromLoop _ _ _ _ _ _) as [s1 | |] eqn:Hloop; try done.
  rewrite mbind_Ok.
  assert (∀ call, call ∈ calls s1 → call ∈ calls0 ∨ call_segment call = segment)
    as Hs1.
  { eapply (fromLoop_invariant
              (λ s, ∀ call, call ∈ calls s →
                            call ∈ calls0 ∨ call_segment call = segment));
      [| | exact Hloop].
    - intros from to s2 s3 _ _. apply tryPair_calls.
    - simpl. auto. }
  case_match; by intros [= <-].
Qed.

Lemma tryPair_produced fuel segment point fromCandidates toCandidates
    from to s s' :
  from ∈ fromCandidates → to ∈ toCandidates →
  (fakePath s ≠ [] → Produced fuel point fromCandidates toCandidates (fakePath s)) →
  tryPair fuel segment point from to s = Ok s' →
  (found s' = true →
   Produced fuel point fromCandidates toCandidates (resultPathPart s'))
  ∧ (fakePath s' ≠ [] →
     Produced fuel point fromCandidates toCandidates (fakePath s')).
Proof.
  intros Hfrom Hto Hfake. unfold tryPair.
  destruct (ConnectAdjacentCandidateLines _ _ _ _ _ _) as [[found1 part] | |]
    eqn:Hc; try done.
  rewrite mbind_Ok.
  destruct found1; simpl.
  - assert (Produced fuel point fromCandidates toCandidates part) as Hpart
      by (by exists from, to).
    repeat case_match; try done; intros [= <-]; simpl; auto.
  - intros [= <-]. simpl. split; [done | exact Hfake].
Qed.

Lemma connectSegment_produced fuel segment point fromCandidates toCandidates
    part0 calls0 s :
  connectSegment fuel segment point fromCandidates toCandidates part0 calls0
  = Ok s →
  found s = true →
  Produced fuel point fromCandidates toCandidates (resultPathPart s).
Proof.
  unfold connectSegment.
  destruct (fromLoop _ _ _ _ _ _) as [s1 | |] eqn:Hloop; try done.
  rewrite mbind_Ok.
  assert ((found s1 = true →
           Produced fuel point fromCandidates toCandidates (resultPathPart s1))
          ∧ (fakePath s1 ≠ [] →
             Produced fuel point fromCandidates toCandidates (fakePath s1)))
    as [Hpart Hfake].
  { eapply (fromLoop_invariant
              (λ s, (found s = true →
                     Produced fuel point fromCandidates toCandidates
                              (resultPathPart s))
                    ∧ (fakePath s ≠ [] →
                       Produced fuel point fromCandidates toCandidates
                                (fakePath s)))); [| | exact Hloop].
    - intros from to s2 s3 Hfrom Hto [_ Hf]. by apply tryPair_produced.
    - simpl. split; done. }
  destruct (bool_decide (fakePath s1 = [])) eqn:Hempty; simpl.
  - intros [= <-]. exact Hpart.
  - apply bool_decide_eq_false in Hempty.
    destruct (found s1) eqn:Hfound; simpl; intros [= <-]; simpl; auto.
Qed.

(** *** The loop over the segments *)

Lemma list_insert_take_drop {A} (l : list A) (i : nat) (x : A) :
  (i < length l)%nat → <[i := x]> l = take i l ++ x :: drop (S i) l.
Proof.
  revert i. induction l as [| y l IH]; intros [| i] Hi; simpl in *;
    try lia; [done |].
  f_equal. apply IH. lia.
Qed.

Lemma length_resize {A} (n : nat) (l : list (list A)) : length (resize n l) = n.
Proof. unfold resize. rewrite length_app, length_take, length_replicate. lia. Qed.

Lemma segmentLoop_step fuel points lineCandidates remaining a c point
    fromCandidates toCandidates part0 :
  points !! a = Some point →
  lineCandidates !! a = Some fromCandidates →
  lineCandidates !! S a = Some toCandidates →
  resultPath c !! a = Some part0 →
  segmentLoop fuel points lineCandidates (S remaining) (S a) c
  = (s ← connectSegment fuel a point fromCandidates toCandidates part0 (made c);
     if found s then
       segmentLoop fuel points lineCandidates remaining (S (S a))
         {| resultPath := <[a := resultPathPart s]> (resultPath c);
            stat := stat c; made := calls s |}
     else
       Ok (false,
           {| resultPath := <[a := []]> (resultPath c);
              stat := {| m_noShortestPathFound :=
                           m_noShortestPathFound (stat c) + 1 |};
              made := calls s |})).
Proof.
  intros Hp Hf Ht Hr. simpl. rewrite Nat.sub_0_r, Hp, Hf, Ht, Hr. done.
Qed.

Lemma segment_result_run fuel points lineCandidates j o part0 calls0 :
  segment_result fuel points lineCandidates j o →
  ∃ point fromCandidates toCandidates s,
    points !! j = Some point ∧
    lineCandidates !! j = Some fromCandidates ∧
    lineCandidates !! S j = Some toCandidates ∧
    connectSegment fuel j point fromCandidates toCandidates part0 calls0 = Ok s
    ∧ outcome s = o.
Proof.
  intros (point & fromCandidates & toCandidates & rs & Hp & Hf & Ht & Hrs & <-).
  destruct (connectSegment_settle fuel j point fromCandidates toCandidates
              part0 calls0 rs Hrs) as (s & Hs & Hout).
  exists point, fromCandidates, toCandidates, s. split_and!; try done.
  rewrite Hout. by eapply settle_attempts.
Qed.

Lemma segmentLoop_fails fuel points lineCandidates (n i : nat) :
  (i < n)%nat →
  segment_result fuel points lineCandidates i None →
  ∀ rest a c,
    length (resultPath c) = n →
    (a + length rest)%nat = i →
    (∀ j P, rest !! j = Some P →
            segment_result fuel points lineCandidates (a + j) (Some P)) →
    (∀ call, call ∈ made c → (call_segment call ≤ i)%nat) →
    ∃ c', segmentLoop fuel points lineCandidates (n - a) (S a) c = Ok (false, c')
          ∧ resultPath c'
            = take a (resultPath c) ++ rest ++ [] :: drop (S i) (resultPath c)
          ∧ m_noShortestPathFound (stat c')
            = m_noShortestPathFound (stat c) + 1
          ∧ ∀ call, call ∈ made c' → (call_segment call ≤ i)%nat.
Proof.
  intros Hi Hfail.
  induction rest as [| P rest IH]; intros a c Hlen Ha Hrest Hmade; simpl in Ha.
  - assert (a = i) as -> by lia.
    destruct (lookup_lt_is_Some_2 (resultPath c) i) as [part0 Hpart0]; [lia |].
    destruct (segment_result_run _ _ _ _ _ part0 (made c) Hfail)
      as (point & fromCandidates & toCandidates & s & Hp & Hf & Ht & Hs & Hout).
    replace (n - i)%nat with (S (n - S i)) by lia.
    rewrite (segmentLoop_step _ _ _ _ _ _ _ _ _ _ Hp Hf Ht Hpart0), Hs, mbind_Ok.
    unfold outcome in Hout. destruct (found s); [done |].
    eexists. split; [done |]. simpl. split_and!.
    + apply list_insert_take_drop. lia.
    + done.
    + intros call Hcall.
      destruct (connectSegment_calls _ _ _ _ _ _ _ _ Hs call Hcall) as [? | ->];
        auto.
  - assert (a < i)%nat by lia.
    destruct (lookup_lt_is_Some_2 (resultPath c) a) as [part0 Hpart0]; [lia |].
    assert (segment_result fuel points lineCandidates a (Some P)) as Hseg.
    { specialize (Hrest O P eq_refl). by rewrite Nat.add_0_r in Hrest. }
    destruct (segment_result_run _ _ _ _ _ part0 (made c) Hseg)
      as (point & fromCandidates & toCandidates & s & Hp & Hf & Ht & Hs & Hout).
    replace (n - a)%nat with (S (n - S a)) by lia.
    rewrite (segmentLoop_step _ _ _ _ _ _ _ _ _ _ Hp Hf Ht Hpart0), Hs, mbind_Ok.
    unfold outcome in Hout. destruct (found s); [| done].
    injection Hout as ->.
    edestruct (IH (S a)) as (c' & -> & Hpath & Hstat & Hcalls).
    + simpl. by rewrite length_insert.
    + simpl. lia.
    + intros j Q HQ. replace (S a + j)%nat with (a + S j)%nat by lia.
      by apply Hrest.
    + simpl. intros call Hcall.
      destruct (connectSegment_calls _ _ _ _ _ _ _ _ Hs call Hcall) as [? | ->];
        [auto | lia].
    + exists c'. split; [done |]. split_and!; [| done | done].
      simpl in Hpath. rewrite Hpath, drop_insert_lt by lia.
      assert (take (S a) (<[a := P]> (resultPath c))
              = take a (resultPath c) ++ [P]) as ->.
      { rewrite list_insert_take_drop by lia.
        rewrite (cons_middle P), app_assoc.
        apply take_app_length'. rewrite length_app, length_take. simpl. lia. }
      by rewrite <- !app_assoc.
Qed.

(** C7, amended.  When the segments before segment [i] end with the paths
    [accepted] and no pair of candidates of segment [i] yields a validated
    path, the call returns failure; it leaves the accepted paths of the
    earlier segments in the output vector, an empty slot for segment [i] and
    the later slots as the resize left them; it adds exactly one to
    [m_noShortestPathFound]; and it makes no call for a segment after
    [i]. *)
Theorem ConnectCandidates_segment_fails (fuel : nat) (points : list LRP)
    (lineCandidates : list (list (list Edge)))
    (resultPath0 : list (list Edge)) (stat0 : Stats) (i : nat)
    (accepted : list (list Edge)) :
  (i < length points - 1)%nat →
  length accepted = i →
  (∀ j P, accepted !! j = Some P →
          segment_result fuel points lineCandidates j (Some P)) →
  segment_result fuel points lineCandidates i None →
  ∃ c, ConnectCandidates fuel points lineCandidates resultPath0 stat0
       = Ok (false, c)
       ∧ resultPath c
         = accepted ++ [] :: drop (S i) (resize (length points - 1) resultPath0)
       ∧ m_noShortestPathFound (stat c) = m_noShortestPathFound stat0 + 1
       ∧ ∀ call, call ∈ made c → (call_segment call ≤ i)%nat.
Proof.
  intros Hi Hacc Hsegs Hfail. unfold ConnectCandidates.
  destruct points as [| point0 points']; [simpl in Hi; lia |].
  set (points := point0 :: points') in *.
  destruct (segmentLoop_fails fuel points lineCandidates (length points - 1) i
              Hi Hfail accepted O
              {| resultPath := resize (length points - 1) resultPath0;
                 stat := stat0; made := [] |})
    as (c & Hrun & Hpath & Hstat & Hcalls).
  - apply length_resize.
  - done.
  - intros j P. apply Hsegs.
  - simpl. by intros call ?%elem_of_nil.
  - exists c. rewrite Nat.sub_0_r in Hrun. by split_and!.
Qed.

(** *** Every returned segment is a splice of two candidates *)

Lemma segmentLoop_produced fuel points lineCandidates :
  ∀ remaining a c c',
    segmentLoop fuel points lineCandidates remaining (S a) c = Ok (true, c') →
    (∀ j r, (j < a)%nat → resultPath c !! j = Some r →
            ∃ point fromCandidates toCandidates,
              points !! j = Some point ∧
              lineCandidates !! j = Some fromCandidates ∧
              lineCandidates !! S j = Some toCandidates ∧
              Produced fuel point fromCandidates toCandidates r) →
    length (resultPath c') = length (resultPath c) ∧
    ∀ j r, (j < a + remaining)%nat → resultPath c' !! j = Some r →
           ∃ point fromCandidates toCandidates,
             points !! j = Some point ∧
             lineCandidates !! j = Some fromCandidates ∧
             lineCandidates !! S j = Some toCandidates ∧
             Produced fuel point fromCandidates toCandidates r.
Proof.
  induction remaining as [| remaining IH]; intros a c c' Hrun Hinv.
  - simpl in Hrun. injection Hrun as <-. split; [done |].
    intros j r Hj. apply Hinv. lia.
  - destruct (points !! a) as [point |] eqn:Hp;
      [| by (simpl in Hrun; rewrite Nat.sub_0_r, Hp in Hrun)].
    destruct (lineCandidates !! a) as [fromCandidates |] eqn:Hf;
      [| by (simpl in Hrun; rewrite Nat.sub_0_r, Hp, Hf in Hrun)].
    destruct (lineCandidates !! S a) as [toCandidates |] eqn:Ht;
      [| by (simpl in Hrun; rewrite Nat.sub_0_r, Hp, Hf, Ht in Hrun)].
    destruct (resultPath c !! a) as [part0 |] eqn:Hr;
      [| by (simpl in Hrun; rewrite Nat.sub_0_r, Hp, Hf, Ht, Hr in Hrun)].
    rewrite (segmentLoop_step _ _ _ _ _ _ _ _ _ _ Hp Hf Ht Hr) in Hrun.
    destruct (connectSegment _ _ _ _ _ _ _) as [s | |] eqn:Hs; try done.
    rewrite mbind_Ok in Hrun.
    destruct (found s) eqn:Hfound; [| done].
    apply IH in Hrun as [Hlen Hall].
    + simpl in Hlen. rewrite length_insert in Hlen. split; [done |].
      intros j r Hj. apply Hall. lia.
    + simpl. intros j r Hj Hjr.
      destruct (decide (j = a)) as [-> | Hne].
      * rewrite list_lookup_insert_eq in Hjr
          by (by eapply lookup_lt_Some).
        injection Hjr as <-.
        exists point, fromCandidates, toCandidates. split_and!; try done.
        by eapply connectSegment_produced.
      * rewrite list_lookup_insert_ne in Hjr by done.
        apply Hinv; [lia | done].
Qed.

Section Splices.

Hypothesis edge_order : StrictTotal.

Lemma clean_overlap_NoDup a b k :
  NoDup a → NoDup b → CleanOverlap a b k → NoDup (a ++ drop k b).
Proof.
  intros Ha Hb (Hka & Hkb & Heq & Hall).
  rewrite <- (take_drop k b) in Hb.
  apply NoDup_app in Hb as (_ & Hdisj & Hdrop).
  apply NoDup_app. split_and!; [done | | done].
  intros e Hea Heb. apply (Hdisj e); [| done].
  apply Hall; [done |]. by eapply elem_of_drop_subseteq.
Qed.

Lemma ConnectAdjacentCandidateLines_spliced fuel from to frc d r :
  NoDup from → NoDup to →
  ConnectAdjacentCandidateLines fuel from to frc d [] = Ok (true, r) →
  Spliced from to r.
Proof.
  intros Hfrom Hto. unfold ConnectAdjacentCandidateLines.
  destruct to as [| tf to_rest]; [done |].
  unfold PathOverlappingLen.
  rewrite (IntersectionLen_common edge_order) by done.
  destruct (PrefEqualsSuff from (tf :: to_rest) _) eqn:Hpre; [| done].
  apply common_clean in Hpre; [| done | done].
  unfold checked_cast_int32.
  destruct (Z.of_nat _ <=? 2147483647); [| done].
  rewrite mbind_Ok.
  destruct (Z.eqb_spec (Z.of_nat (length (common from (tf :: to_rest)))) 0)
    as [Hzero | Hpos]; simpl negb; cbv iota.
  - destruct (last from) as [fb |] eqn:Hlast; [| done].
    case_decide; [done |].
    destruct (FindShortestPath _ _ _ _ _ _) as [[[] P] | |] eqn:Hs;
      simpl; try done.
    intros [= <-]. right. exists P.
    apply FindShortestPath_true_shape in Hs as (Hh & Hl & HP).
    apply last_Some in Hlast as [from' ->].
    rewrite removelast_last, last_snoc.
    apply NoDup_app in Hfrom as (Hfrom' & _).
    apply NoDup_cons in Hto as [_ Hrest].
    by split_and!.
  - destruct (_ =? -1); [done |]. intros [= <-]. left.
    rewrite Nat2Z.id. eexists. split; [done |].
    by apply clean_overlap_NoDup.
Qed.

(** C8, amended.  After a successful call on duplicate-free candidate
    sequences every returned segment is a splice of a candidate of its
    first point and a candidate of its second point: if the two overlap,
    the first followed by the rest of the second, with no edge twice; if
    they share no edge, the first without its last edge, a duplicate-free
    path found by the search, and the second without its first edge, each
    of the three parts without a repeated edge (the found path may pass
    over edges of the two candidates). *)
Theorem ConnectCandidates_segments_spliced (fuel : nat) (points : list LRP)
    (lineCandidates : list (list (list Edge)))
    (resultPath0 : list (list Edge)) (stat0 : Stats) (c : ConnectState) :
  (∀ candidates sequence,
     candidates ∈ lineCandidates → sequence ∈ candidates → NoDup sequence) →
  ConnectCandidates fuel points lineCandidates resultPath0 stat0
  = Ok (true, c) →
  length (resultPath c) = (length points - 1)%nat ∧
  ∀ j r, resultPath c !! j = Some r →
         ∃ fromCandidates toCandidates from to,
           lineCandidates !! j = Some fromCandidates ∧
           lineCandidates !! S j = Some toCandidates ∧
           from ∈ fromCandidates ∧ to ∈ toCandidates ∧
           Spliced from to r.
Proof.
  intros Hnodup. unfold ConnectCandidates.
  destruct points as [| point0 points']; [done |].
  set (points := point0 :: points') in *.
  intros Hrun. apply segmentLoop_produced in Hrun as [Hlen Hall].
  - simpl resultPath in Hlen. rewrite length_resize in Hlen.
    split; [done |]. intros j r Hjr.
    assert (j < 0 + (length points - 1))%nat as Hj
      by (apply lookup_lt_Some in Hjr; rewrite Hlen in Hjr;
          subst points; simpl in *; lia).
    destruct (Hall j r Hj Hjr)
      as (point & fromCandidates & toCandidates & Hp & Hf
          & Ht & from & to & Hfrom & Hto & Hc).
    exists fromCandidates, toCandidates, from, to. split_and!; try done.
    eapply ConnectAdjacentCandidateLines_spliced; [| | exact Hc].
    + eapply Hnodup; [| exact Hfrom]. by eapply list_elem_of_lookup_2.
    + eapply Hnodup; [| exact Hto]. by eapply list_elem_of_lookup_2.
  - intros j r Hj. lia.
Qed.

End Splices.

(** *** Scores in whole units *)

Lemma wrap32_small z : 0 ≤ z < 2 ^ 32 → wrap32 z = z.
Proof. intros Hz. unfold wrap32. by apply Z.mod_small. Qed.

Lemma grid21_canon n : 0 ≤ n < 2 ^ 53 → grid21 n = canon (-21) n.
Proof. intros Hn. apply binary_normalize_exact; lia. Qed.

Lemma of_uint32_grid us :
  0 ≤ us < 2 ^ 32 → of_uint32 us = canon (-21) (us * 2 ^ 21).
Proof.
  intros Hus. rewrite of_uint32_canon by done.
  symmetry. apply (canon_scale 0 us 21); lia.
Qed.

(** A score and a length of the grid add up without rounding. *)
Lemma score_grid (us n : Z) :
  0 ≤ us → 0 ≤ n → us + n / 2 ^ 21 < 2 ^ 32 →
  0 ≤ us * 2 ^ 21 + n < 2 ^ 53
  ∧ dadd (of_uint32 us) (grid21 n) = canon (-21) (us * 2 ^ 21 + n).
Proof.
  intros Hus Hn Hfit.
  pose proof (Z.div_pos n (2 ^ 21) Hn ltac:(lia)) as Hq.
  pose proof (Z.mod_pos_bound n (2 ^ 21) ltac:(lia)) as Hr.
  pose proof (Z.div_mod n (2 ^ 21) ltac:(lia)) as Hn'.
  assert (0 ≤ us * 2 ^ 21 + n < 2 ^ 53) as Hsum by lia.
  split; [done |].
  rewrite of_uint32_grid, grid21_canon by lia.
  apply dadd_canon; lia.
Qed.

Lemma double_to_uint32_grid (us n : Z) :
  0 ≤ us → 0 ≤ n → us + n / 2 ^ 21 < 2 ^ 32 →
  double_to_uint32 (dadd (of_uint32 us) (grid21 n)) = us + n / 2 ^ 21.
Proof.
  intros Hus Hn Hfit.
  destruct (score_grid us n Hus Hn Hfit) as [Hsum ->].
  pose proof (Z.div_pos n (2 ^ 21) Hn ltac:(lia)) as Hq.
  unfold double_to_uint32.
  rewrite truncate_canon by lia.
  change (2 ^ (- (-21))) with (2 ^ 21).
  rewrite Z.div_add_l by lia. apply wrap32_small. lia.
Qed.

Lemma improves_grid (us n old : Z) :
  0 ≤ us → 0 ≤ n → us + n / 2 ^ 21 < 2 ^ 32 → 0 ≤ old < 2 ^ 32 →
  dlt (dadd (of_uint32 us) (grid21 n)) (of_uint32 old)
  = (us + n / 2 ^ 21 <? old).
Proof.
  intros Hus Hn Hfit Hold.
  destruct (score_grid us n Hus Hn Hfit) as [Hsum ->].
  pose proof (Z.mod_pos_bound n (2 ^ 21) ltac:(lia)) as Hr.
  pose proof (Z.div_mod n (2 ^ 21) ltac:(lia)) as Hn'.
  rewrite of_uint32_grid, dlt_canon by lia.
  destruct (Z.ltb_spec (us + n / 2 ^ 21) old);
    [apply Z.ltb_lt | apply Z.ltb_ge]; lia.
Qed.

Lemma whole_length_grid e n :
  0 ≤ n < 2 ^ 53 → EdgeLength e = grid21 n → whole_length e = n / 2 ^ 21.
Proof.
  intros Hn Hlen. unfold whole_length.
  rewrite Hlen, grid21_canon, truncate_canon by lia. done.
Qed.

(** *** The priority queue *)

Lemma pq_pop_None queue : pq_pop queue = None → queue = [].
Proof.
  destruct queue as [| s queue]; [done |]. simpl.
  by destruct (pq_pop queue) as [[m r] |]; [case_match |].
Qed.

Lemma pq_pop_perm queue x queue' :
  pq_pop queue = Some (x, queue') → queue ≡ₚ x :: queue'.
Proof.
  revert x queue'. induction queue as [| s queue IH]; intros x queue'; simpl;
    [done |].
  destruct (pq_pop queue) as [[m r] |] eqn:Hpop.
  - destruct (state_greater s m); intros [= <- <-].
    + rewrite (IH m r eq_refl). apply Permutation_swap.
    + done.
  - intros [= <- <-]. by rewrite (pq_pop_None _ Hpop).
Qed.

Lemma pq_pop_min queue x queue' :
  pq_pop queue = Some (x, queue') →
  ∀ y, y ∈ queue' → m_score x ≤ m_score y.
Proof.
  revert x queue'. induction queue as [| s queue IH]; intros x queue'; simpl;
    [done |].
  destruct (pq_pop queue) as [[m r] |] eqn:Hpop.
  - pose proof (IH m r eq_refl) as Hmin.
    pose proof (pq_pop_perm _ _ _ Hpop) as Hperm.
    destruct (state_greater s m) eqn:Hgt; intros [= <- <-] y Hy.
    + apply elem_of_cons in Hy as [-> | Hy]; [| by apply Hmin].
      unfold state_greater in Hgt. lia.
    + rewrite Hperm in Hy.
      assert (m_score s ≤ m_score m) by (unfold state_greater in Hgt; lia).
      apply elem_of_cons in Hy as [-> | Hy]; [done |].
      specialize (Hmin y Hy). lia.
  - intros [= <- <-] y Hy. by apply elem_of_nil in Hy.
Qed.

Lemma Walk_ext_on next next' from e l :
  Walk next from e l → (∀ x, x ∈ l → next x = next' x) → Walk next' from e l.
Proof.
  induction 1 as [| e l Hne _ IH]; intros Hext; constructor; [done |].
  rewrite <- Hext by apply list_elem_of_here.
  apply IH. intros x Hx. by apply Hext, list_elem_of_further.
Qed.

Lemma potential_insert U known e new :
  new < default (2 ^ 32) (known !! e) →
  potential U (<[e := new]> known) ≤ potential U known
  ∧ (e ∈ U → potential U (<[e := new]> known) + 1 ≤ potential U known).
Proof.
  intros Hnew. induction U as [| x U [IH1 IH2]]; simpl.
  - split; [done |]. by intros ?%elem_of_nil.
  - destruct (decide (e = x)) as [<- | Hne].
    + rewrite lookup_insert_eq. simpl. split; [lia |]. intros _. lia.
    + rewrite lookup_insert_ne by done. split; [lia |].
      intros [? | Hin]%elem_of_cons; [done |]. specialize (IH2 Hin). lia.
Qed.

Lemma potential_nonneg U known :
  (∀ e d, known !! e = Some d → 0 ≤ d) → 0 ≤ potential U known.
Proof.
  intros Hpos. induction U as [| x U IH]; simpl; [done |].
  destruct (known !! x) as [d |] eqn:Hx; simpl; [| lia].
  specialize (Hpos x d Hx). lia.
Qed.

(** *** The search *)

Section Search.

Variables (from to : Edge) (maxPathLength : Z) (U : list Edge).

Hypothesis length_grid :
  ∀ e, ∃ n, 0 ≤ n < 2 ^ 53 ∧ EdgeLength e = grid21 n.
Hypothesis max_range :
  0 ≤ maxPathLength ∧ maxPathLength + kLengthToleranceM < 2 ^ 32.
Hypothesis score_range :
  ∀ e, e ∈ U → maxPathLength + kLengthToleranceM + whole_length e < 2 ^ 32.
Hypothesis U_from : from ∈ U.
Hypothesis U_closed : ∀ u e, u ∈ U → e ∈ successors u → e ∈ U.

Let budget : Z := maxPathLength + kLengthToleranceM.

Lemma whole_length_nonneg e : 0 ≤ whole_length e.
Proof.
  destruct (length_grid e) as (n & Hn & Hlen).
  rewrite (whole_length_grid e n Hn Hlen). apply Z.div_pos; lia.
Qed.

Lemma relax_relax_whole u us st e :
  0 ≤ us ≤ budget → e ∈ U →
  (∀ old, scores st !! e = Some old → 0 ≤ old < 2 ^ 32) →
  relax u us st e = relax_whole u us st e.
Proof.
  intros Hus He Hknown. unfold relax, relax_whole.
  destruct (length_grid e) as (n & Hn & Hlen).
  pose proof (score_range e He) as Hrange. fold budget in Hrange.
  rewrite (whole_length_grid e n Hn Hlen) in *.
  pose proof (Z.div_pos n (2 ^ 21) ltac:(lia) ltac:(lia)) as Hw.
  rewrite Hlen, double_to_uint32_grid by lia.
  destruct (scores st !! e) as [old |]; [| done].
  by rewrite improves_grid by (lia || by apply Hknown).
Qed.

Lemma RelaxInv_weaken D (R R' : Edge → Edge → Prop) u us st :
  (∀ u' e', R' u' e' → R u' e') →
  RelaxInv from to budget U D R u us st → RelaxInv from to budget U D R' u us st.
Proof.
  intros Hsub [Hinv Hrel Hsrc Hdone Hscore Hbudget Hqmin Hmax].
  split; try done.
  - intros u' e' du HR. by apply Hrel, Hsub.
  - intros u' e' HR. by eapply Hsrc, Hsub.
Qed.

(** Relaxing one outgoing edge of [u] keeps the invariant, adds the pair to
    the relaxed ones and does not raise the measure. *)
Lemma relax_whole_inv D R u us st e :
  RelaxInv from to budget U D R u us st →
  e ∈ successors u →
  RelaxInv from to budget U D (λ u' e', R u' e' ∨ (u' = u ∧ e' = e)) u us
           (relax_whole u us st e)
  ∧ measure U (relax_whole u us st e) ≤ measure U st.
Proof.
  intros [Hinv Hrel Hsrc Hdone Hscore Hbudget Hqmin Hmax] Hsucc.
  pose proof (whole_length_nonneg e) as Hw.
  destruct Hinv as [Isrc Irange Iuniv Iqueue Ipend Imin Idone Ilink Ichain].
  pose proof (Irange u us Hscore) as Hus.
  assert (u ∈ U) as HuU by (by eapply Iuniv).
  assert (e ∈ U) as HeU by (by eapply U_closed).
  pose proof (score_range e HeU) as Hrange. fold budget in Hrange.
  set (new := us + whole_length e).
  assert ((∃ old, scores st !! e = Some old ∧ old ≤ new
                  ∧ relax_whole u us st e = st)
          ∨ ((∀ old, scores st !! e = Some old → new < old)
             ∧ relax_whole u us st e
               = {| q := {| m_edge := e; m_score := new |} :: q st;
                    scores := <[e := new]> (scores st);
                    links := <[e := u]> (links st) |})) as [Hkeep | [Himp ->]].
  { unfold relax_whole. fold new.
    destruct (scores st !! e) as [old |] eqn:He.
    - destruct (Z.ltb_spec new old) as [Hlt | Hge].
      + right. split; [| done]. by intros ? [= <-].
      + left. by exists old.
    - right. split; [| done]. by intros ? [=]. }
  - destruct Hkeep as (old & He & Hold & ->). split; [| done].
    split; try done.
    + intros u' e' du [HR | [-> ->]] Hu'; [by eapply Hrel |].
      rewrite Hscore in Hu'. injection Hu' as <-. by exists old.
    + intros u' e' [HR | [-> _]]; [by eapply Hsrc | done].
  - assert (e ∉ D) as HeD.
    { intros HeD. destruct (Idone e HeD) as [[old He] _].
      specialize (Himp old He). specialize (Hmax e old HeD He). lia. }
    assert (e ≠ from) as Hefrom.
    { intros ->. specialize (Himp 0 Isrc). lia. }
    assert (e ≠ u) as Heu by (by intros ->).
    split.
    + split; [split |..]; simpl.
      * by rewrite lookup_insert_ne.
      * intros e' d. rewrite lookup_insert.
        case_decide as Hee; [intros [= <-]; lia | apply Irange].
      * intros e' d. rewrite lookup_insert.
        case_decide as Hee; [by intros [= <-]; subst | apply Iuniv].
      * intros x [-> | Hx]%elem_of_cons; simpl.
        -- exists new. by rewrite lookup_insert_eq.
        -- destruct (Iqueue x Hx) as (d & Hd & Hle).
           destruct (decide (e = m_edge x)) as [Hee | Hee].
           ++ exists new. rewrite <- Hee, lookup_insert_eq. split; [done |].
              rewrite <- Hee in Hd. specialize (Himp d Hd). lia.
           ++ exists d. by rewrite lookup_insert_ne.
      * intros e' d. rewrite lookup_insert.
        case_decide as Hee.
        -- intros [= <-] _. subst e'. left. apply list_elem_of_here.
        -- intros Hd He'. destruct (Ipend e' d Hd He') as [Hin | Hout].
           ++ left. by apply list_elem_of_further.
           ++ by right.
      * intros e' d x He'D.
        assert (e ≠ e') as Hee by (by intros ->).
        rewrite lookup_insert_ne by done.
        intros Hd [-> | Hx]%elem_of_cons; simpl.
        -- specialize (Hmax e' d He'D Hd). lia.
        -- by eapply Imin.
      * intros e' He'D.
        assert (e ≠ e') as Hee by (by intros ->).
        rewrite lookup_insert_ne by done. by apply Idone.
      * intros e' d. rewrite lookup_insert.
        case_decide as Hee.
        -- intros [= <-] _. subst e'. exists u, us.
           rewrite lookup_insert_eq, lookup_insert_ne by done. by split_and!.
        -- intros Hd He'.
           destruct (Ilink e' d Hd He') as (u' & du & Hl & Hu'D & Hu' & Hs & ->).
           exists u', du.
           assert (e ≠ u') as Heu' by (by intros ->).
           rewrite !lookup_insert_ne by done. by split_and!.
      * intros e' He'D.
        destruct (Ichain e' He'D) as (l & Hwalk & HlD & Hlen).
        exists l. split_and!; try done.
        eapply Walk_ext_on; [exact Hwalk |].
        intros x Hx. unfold link_of.
        assert (e ≠ x) as Hex by (intros ->; by apply HeD, HlD).
        by rewrite lookup_insert_ne.
      * intros u' e' du HR.
        assert (u' ∈ D) as Hu'D
          by (destruct HR as [HR | [-> _]]; [by eapply Hsrc | done]).
        assert (e ≠ u') as Heu' by (by intros ->).
        simpl. rewrite lookup_insert_ne by done. intros Hu'.
        destruct HR as [HR | [-> ->]].
        -- destruct (Hrel u' e' du HR Hu') as (de & Hde & Hle).
           destruct (decide (e = e')) as [<- | Hee].
           ++ exists new. rewrite lookup_insert_eq. split; [done |].
              specialize (Himp de Hde). lia.
           ++ exists de. by rewrite lookup_insert_ne.
        -- rewrite Hscore in Hu'. injection Hu' as <-.
           exists new. by rewrite lookup_insert_eq.
      * intros u' e' [HR | [-> _]]; [by eapply Hsrc | done].
      * done.
      * by rewrite lookup_insert_ne.
      * done.
      * intros x [-> | Hx]%elem_of_cons; simpl; [lia | by apply Hqmin].
      * intros e' d He'D.
        assert (e ≠ e') as Hee by (by intros ->).
        rewrite lookup_insert_ne by done. by apply Hmax.
    + unfold measure. simpl.
      destruct (potential_insert U (scores st) e new) as [_ Hpot].
      { destruct (scores st !! e) as [old |] eqn:He; simpl.
        - by apply Himp.
        - lia. }
      specialize (Hpot HeU). lia.
Qed.

Lemma relax_fold_inv D u us es :
  (∀ e, e ∈ es → e ∈ successors u) →
  ∀ R st, RelaxInv from to budget U D R u us st →
    RelaxInv from to budget U D (λ u' e', R u' e' ∨ (u' = u ∧ e' ∈ es)) u us
             (foldl (relax u us) st es)
    ∧ measure U (foldl (relax u us) st es) ≤ measure U st.
Proof.
  induction es as [| e es IH]; intros Hes R st HR; simpl.
  - split; [| done]. eapply RelaxInv_weaken; [| exact HR].
    intros u' e' [? | [_ []%elem_of_nil]]. done.
  - assert (e ∈ successors u) as He by apply Hes, list_elem_of_here.
    rewrite relax_relax_whole.
    + destruct (relax_whole_inv D R u us st e HR He) as [HR1 Hm1].
      destruct (IH (λ e' He', Hes e' (list_elem_of_further _ _ _ He')) _ _ HR1)
        as [HR2 Hm2].
      split; [| lia]. eapply RelaxInv_weaken; [| exact HR2].
      intros u' e' [? | [-> [-> | ?]%elem_of_cons]]; auto.
    + destruct HR as [Hinv _ _ _ Hscore Hbudget _ _].
      pose proof (inv_range _ _ _ _ _ _ Hinv u us Hscore). lia.
    + destruct HR as [Hinv _ _ _ Hscore _ _ _].
      eapply U_closed; [| exact He].
      by eapply (inv_universe _ _ _ _ _ _ Hinv).
    + destruct HR as [Hinv _ _ _ _ _ _ _].
      intros old Hold. by eapply (inv_range _ _ _ _ _ _ Hinv).
Qed.

(** Dropping a popped state that is over the budget or stale keeps the
    invariant. *)
Lemma pop_skip_inv D st x queue' :
  SearchInv from to budget U D st →
  pq_pop (q st) = Some (x, queue') →
  budget < m_score x ∨ (∃ d, scores st !! m_edge x = Some d ∧ d < m_score x) →
  SearchInv from to budget U D
            {| q := queue'; scores := scores st; links := links st |}.
Proof.
  intros [Isrc Irange Iuniv Iqueue Ipend Imin Idone Ilink Ichain] Hpop Hskip.
  pose proof (pq_pop_perm _ _ _ Hpop) as Hperm.
  assert (∀ y, y ∈ queue' → y ∈ q st) as Hsub
    by (intros y Hy; rewrite Hperm; by apply list_elem_of_further).
  split; simpl; try done.
  - intros y Hy. by apply Iqueue, Hsub.
  - intros e d Hd HeD.
    destruct (Ipend e d Hd HeD) as [Hin | Hout]; [| by right].
    rewrite Hperm in Hin. apply elem_of_cons in Hin as [<- | Hin]; [| by left].
    simpl in Hskip. destruct Hskip as [Hover | (d' & Hd' & Hstale)].
    + by right.
    + rewrite Hd in Hd'. injection Hd' as <-. lia.
  - intros e d y HeD Hd Hy. eapply Imin; [done | done | by apply Hsub].
Qed.

Lemma measure_pop st x queue' :
  pq_pop (q st) = Some (x, queue') →
  measure U {| q := queue'; scores := scores st; links := links st |} + 1
  = measure U st.
Proof.
  intros Hpop. apply pq_pop_perm in Hpop. unfold measure. simpl.
  rewrite Hpop. simpl. lia.
Qed.

(** Before the outgoing edges of a popped edge [u] are relaxed. *)
Lemma pop_expand_inv D st x queue' :
  SearchInv from to budget U D st →
  Relaxed (done_pairs D) st →
  pq_pop (q st) = Some (x, queue') →
  m_score x ≤ budget →
  scores st !! m_edge x = Some (m_score x) →
  m_edge x ≠ to →
  RelaxInv from to budget U (m_edge x :: D) (done_pairs D) (m_edge x) (m_score x)
           {| q := queue'; scores := scores st; links := links st |}.
Proof.
  intros Hinv Hrel Hpop Hbudget Hscore Hnotto.
  pose proof Hinv as [Isrc Irange Iuniv Iqueue Ipend Imin Idone Ilink Ichain].
  pose proof (pq_pop_perm _ _ _ Hpop) as Hperm.
  pose proof (pq_pop_min _ _ _ Hpop) as Hmin.
  assert (∀ y, y ∈ queue' → y ∈ q st) as Hsub
    by (intros y Hy; rewrite Hperm; by apply list_elem_of_further).
  assert (x ∈ q st) as Hx by (rewrite Hperm; apply list_elem_of_here).
  destruct x as [u us]. simpl in *.
  split; [split |..]; simpl; try done.
  - intros y Hy. by apply Iqueue, Hsub.
  - intros e d Hd [Heu HeD]%not_elem_of_cons.
    destruct (Ipend e d Hd HeD) as [Hin | Hout]; [| by right].
    rewrite Hperm in Hin.
    apply elem_of_cons in Hin as [[= -> ->] | Hin]; [done | by left].
  - intros e d y [-> | HeD]%elem_of_cons Hd Hy.
    + rewrite Hscore in Hd. injection Hd as <-. by apply (Hmin y).
    + eapply Imin; [done | done | by apply Hsub].
  - intros e [-> | HeD]%elem_of_cons; [by rewrite Hscore | by apply Idone].
  - intros e d Hd Hefrom.
    destruct (Ilink e d Hd Hefrom) as (u' & du & Hl & Hu'D & Hu' & Hs & ->).
    exists u', du. split_and!; try done. by apply list_elem_of_further.
  - intros e [-> | HeD]%elem_of_cons.
    + destruct (decide (u = from)) as [-> | Hufrom].
      * exists []. split_and!; [constructor | by intros ? ?%elem_of_nil |].
        simpl. lia.
      * destruct (Ilink u us Hscore Hufrom) as (u' & du & Hl & Hu'D & _).
        destruct (Ichain u' Hu'D) as (l & Hwalk & HlD & Hlen).
        exists (u :: l). split_and!.
        -- constructor; [done |]. unfold link_of at 2. by rewrite Hl.
        -- intros y [-> | Hy]%elem_of_cons;
             [apply list_elem_of_here | by apply list_elem_of_further, HlD].
        -- simpl. lia.
    + destruct (Ichain e HeD) as (l & Hwalk & HlD & Hlen).
      exists l. split_and!; [done | |].
      * intros y Hy. by apply list_elem_of_further, HlD.
      * simpl. lia.
  - intros u' e' [Hu' _]. by apply list_elem_of_further.
  - apply list_elem_of_here.
  - intros e d [-> | HeD]%elem_of_cons Hd.
    + rewrite Hscore in Hd. by injection Hd as <-.
    + by apply (Imin e d {| m_edge := u; m_score := us |}).
Qed.

Lemma budget_wrap : wrap32 (maxPathLength + kLengthToleranceM) = budget.
Proof.
  pose proof max_range as Hmax. apply wrap32_small.
  unfold budget, kLengthToleranceM in *. lia.
Qed.

(** One turn of the loop: it keeps the invariant and lowers the measure, or it
    stops on an empty queue, or it pops the target with its final score. *)
Lemma step_spec D st :
  SearchInv from to budget U D st →
  Relaxed (done_pairs D) st →
  match step to maxPathLength st with
  | Exhausted => q st = []
  | Continue st' =>
    ∃ D', SearchInv from to budget U D' st' ∧ Relaxed (done_pairs D') st'
          ∧ measure U st' + 1 ≤ measure U st
          ∧ (length D' ≤ S (length D))%nat
  | Reached u st' =>
    u = to ∧ links st' = links st
    ∧ ∃ d, scores st !! to = Some d ∧ d ≤ budget
           ∧ ∀ y, y ∈ q st → d ≤ m_score y
  end.
Proof.
  intros Hinv Hrel. unfold step.
  destruct (pq_pop (q st)) as [[x queue'] |] eqn:Hpop;
    [| by apply pq_pop_None].
  pose proof (pq_pop_perm _ _ _ Hpop) as Hperm.
  assert (x ∈ q st) as Hx by (rewrite Hperm; apply list_elem_of_here).
  destruct (inv_queue _ _ _ _ _ _ Hinv x Hx) as (d & Hd & Hle).
  rewrite budget_wrap, Hd. simpl.
  destruct (Z.ltb_spec budget (m_score x)) as [Hover | Hin].
  { exists D. split_and!; [| done | | lia].
    - eapply pop_skip_inv; eauto.
    - by rewrite <- (measure_pop st x queue'). }
  destruct (Z.ltb_spec d (m_score x)) as [Hstale | Hfresh].
  { exists D. split_and!; [| done | | lia].
    - eapply pop_skip_inv; eauto.
    - by rewrite <- (measure_pop st x queue'). }
  assert (d = m_score x) as -> by lia.
  destruct (decide (m_edge x = to)) as [Hto | Hnotto].
  { split_and!; [done | done |]. exists (m_score x). rewrite <- Hto.
    split_and!; [done | done |].
    intros y Hy. rewrite Hperm in Hy.
    apply elem_of_cons in Hy as [-> | Hy]; [done |].
    by apply (pq_pop_min _ _ _ Hpop). }
  pose proof (pop_expand_inv D st x queue' Hinv Hrel Hpop Hin Hd Hnotto) as Hmid.
  destruct (relax_fold_inv (m_edge x :: D) (m_edge x) (m_score x)
              (successors (m_edge x)) (λ e He, He) _ _ Hmid) as [Hend Hmeasure].
  exists (m_edge x :: D). split_and!.
  - by destruct Hend.
  - eapply (rel_relaxed _ _ _ _ _ (done_pairs (m_edge x :: D))).
    eapply RelaxInv_weaken; [| exact Hend].
    intros u' e' [[-> | Hu']%elem_of_cons He']; [by right | by left].
  - pose proof (measure_pop st x queue' Hpop). unfold successors in Hmeasure.
    lia.
  - done.
Qed.

Lemma Route_nonempty p e : Route from p e → p ≠ [].
Proof. destruct 1; [done |]. by destruct p. Qed.

Lemma route_score_snoc p e :
  p ≠ [] → route_score (p ++ [e]) = route_score p + whole_length e.
Proof.
  intros Hp. destruct p as [| x p]; [done |]. unfold route_score. simpl.
  clear Hp. induction p as [| y p IH]; simpl; [lia |]. rewrite IH. lia.
Qed.

(** A path to [e] either stays among the done edges, and then the score of [e]
    is at most the score of the path, or it meets an edge that is not done
    whose score is at most the score of the path. *)
Lemma route_lower_bound D st p e :
  SearchInv from to budget U D st →
  Relaxed (done_pairs D) st →
  Route from p e →
  (e ∈ D ∧ (∃ d, scores st !! e = Some d ∧ d ≤ route_score p))
  ∨ (∃ e' d', (e' ∉ D) ∧ scores st !! e' = Some d' ∧ d' ≤ route_score p).
Proof.
  intros Hinv Hrel. induction 1 as [| p u e Hroute IH Hsucc].
  - destruct (decide (from ∈ D)) as [Hin | Hout].
    + left. split; [done |]. exists 0. split; [by destruct Hinv | done].
    + right. exists from, 0. split_and!; [done | by destruct Hinv | done].
  - pose proof (whole_length_nonneg e) as Hw.
    rewrite route_score_snoc by (by eapply Route_nonempty).
    destruct IH as [[HuD (du & Hdu & Hle)] | (e' & d' & He' & Hd' & Hle)].
    + destruct (Hrel u e du (conj HuD Hsucc) Hdu) as (de & Hde & Hle').
      destruct (decide (e ∈ D)) as [Hin | Hout].
      * left. split; [done |]. exists de. split; [done | lia].
      * right. exists e, de. split_and!; [done | done | lia].
    + right. exists e', d'. split_and!; [done | done | lia].
Qed.

(** The links lead back from a scored edge along a path of the graph whose
    score is the score of the edge. *)
Lemma chain_route D st e l d :
  SearchInv from to budget U D st →
  Walk (link_of (links st)) from e l →
  scores st !! e = Some d →
  Route from (reverse (l ++ [from])) e
  ∧ route_score (reverse (l ++ [from])) = d.
Proof.
  intros Hinv Hwalk. revert d.
  induction Hwalk as [| e l Hne Hwalk IH]; intros d Hd.
  - simpl. rewrite (inv_source _ _ _ _ _ _ Hinv) in Hd. injection Hd as <-.
    split; [constructor | done].
  - destruct (inv_link _ _ _ _ _ _ Hinv e d Hd Hne)
      as (u & du & Hl & _ & Hdu & Hsucc & ->).
    unfold link_of in Hwalk, IH. rewrite Hl in Hwalk, IH. simpl in Hwalk, IH.
    destruct (IH du Hdu) as [Hroute Hscore].
    simpl. rewrite reverse_cons. split.
    + by econstructor.
    + rewrite route_score_snoc by (by eapply Route_nonempty). lia.
Qed.

Lemma measure_nonneg D st :
  SearchInv from to budget U D st → 0 ≤ measure U st.
Proof.
  intros Hinv. unfold measure.
  assert (0 ≤ potential U (scores st)); [| lia].
  apply potential_nonneg. intros e d Hd.
  by destruct (inv_range _ _ _ _ _ _ Hinv e d Hd).
Qed.

(** With enough fuel the loop returns, with a shortest path within the budget
    or with the fact that no path is within the budget. *)
Lemma search_loop_spec fuel :
  ∀ D st,
    SearchInv from to budget U D st →
    Relaxed (done_pairs D) st →
    (Z.to_nat (2 * measure U st) + length D + 2 ≤ fuel)%nat →
    ∃ found P,
      search_loop fuel from to maxPathLength [] st = Ok (found, P) ∧
      if found : bool then
        Route from P to ∧ route_score P ≤ budget
        ∧ ∀ p, Route from p to → route_score P ≤ route_score p
      else P = [] ∧ ∀ p, Route from p to → budget < route_score p.
Proof.
  induction fuel as [| fuel IH]; intros D st Hinv Hrel Hfuel; [lia |].
  simpl. pose proof (step_spec D st Hinv Hrel) as Hstep.
  pose proof (measure_nonneg D st Hinv) as Hm.
  destruct (step to maxPathLength st) as [| st' | u st'].
  - exists false, []. split_and!; [done | done |]. intros p Hp.
    destruct (Z.lt_ge_cases budget (route_score p)) as [| Hle]; [done |].
    exfalso.
    destruct (route_lower_bound D st p to Hinv Hrel Hp)
      as [[HtoD _] | (e' & d' & He' & Hd' & Hle')].
    + by destruct (inv_done _ _ _ _ _ _ Hinv to HtoD).
    + destruct (inv_pending _ _ _ _ _ _ Hinv e' d' Hd' He') as [Hin | Hout].
      * rewrite Hstep in Hin. by apply elem_of_nil in Hin.
      * lia.
  - destruct Hstep as (D' & Hinv' & Hrel' & Hmeasure & Hlen).
    pose proof (measure_nonneg D' st' Hinv') as Hm'.
    apply (IH D' st' Hinv' Hrel'). lia.
  - destruct Hstep as (-> & Hlinks & d & Hd & Hbudget & Hmin).
    assert (∃ l, Walk (link_of (links st)) from to l
                 ∧ (length l ≤ S (length D))%nat) as (l & Hwalk & Hlen).
    { destruct (decide (to = from)) as [-> | Hne].
      - exists []. split; [constructor | simpl; lia].
      - destruct (inv_link _ _ _ _ _ _ Hinv to d Hd Hne)
          as (u & du & Hl & HuD & _).
        destruct (inv_chain _ _ _ _ _ _ Hinv u HuD) as (l & Hwalk & _ & Hlen).
        exists (to :: l). split; [| simpl; lia].
        constructor; [done |]. unfold link_of at 2. by rewrite Hl. }
    rewrite Hlinks, (Walk_walk_links _ _ _ l) by (done || lia).
    rewrite mbind_Ok. simpl.
    destruct (chain_route D st to l d Hinv Hwalk Hd) as [Hroute Hscore].
    exists true, (reverse (l ++ [from])). split_and!; [done | done | lia |].
    intros p Hp. rewrite Hscore.
    destruct (route_lower_bound D st p to Hinv Hrel Hp)
      as [[HtoD _] | (e' & d' & He' & Hd' & Hle')].
    + by destruct (inv_done _ _ _ _ _ _ Hinv to HtoD).
    + destruct (inv_pending _ _ _ _ _ _ Hinv e' d' Hd' He') as [Hin | Hout].
      * specialize (Hmin _ Hin). simpl in Hmin. lia.
      * lia.
Qed.

Lemma initial_inv :
  SearchInv from to budget U []
            {| q := [ {| m_edge := from; m_score := 0 |} ];
               scores := {[ from := 0 ]};
               links := ∅ |}.
Proof.
  split; simpl.
  - apply lookup_singleton_eq.
  - intros e d [-> <-]%lookup_singleton_Some. lia.
  - by intros e d [<- _]%lookup_singleton_Some.
  - intros x ->%list_elem_of_singleton. exists 0. simpl.
    by rewrite lookup_singleton_eq.
  - intros e d [<- <-]%lookup_singleton_Some _. left. apply list_elem_of_here.
  - by intros e d x ?%elem_of_nil.
  - by intros e ?%elem_of_nil.
  - by intros e d [<- _]%lookup_singleton_Some.
  - by intros e ?%elem_of_nil.
Qed.


End Search.

(** *** The road class *)

(** C9.  The road class given to the search has no influence on its result:
    two calls that differ in it only return the same flag and the same
    path. *)
Theorem FindShortestPath_ignores_frc (fuel : nat) (source target : Edge)
    (frc1 frc2 : FunctionalRoadClass) (maxLength : Z) (path : list Edge) :
  FindShortestPath fuel source target frc1 maxLength path
  = FindShortestPath fuel source target frc2 maxLength path.
Proof. reflexivity. Qed.

(** *** A single point *)

(** C10.  With exactly one point the call succeeds with an empty list of
    segments, whatever the candidates, the output vector and the fuel are; it
    calls neither helper and leaves the statistics as they were. *)
Theorem ConnectCandidates_single_point (fuel : nat) (point : LRP)
    (lineCandidates : list (list (list Edge)))
    (resultPath0 : list (list Edge)) (stat0 : Stats) :
  ConnectCandidates fuel [point] lineCandidates resultPath0 stat0
  = Ok (true, {| resultPath := []; stat := stat0; made := [] |}).
Proof. reflexivity. Qed.

(** ** Further properties of the functions *)

(** *** [IntersectionLen] and [PrefEqualsSuff] *)

Lemma set_intersection_count_le a b :
  (set_intersection_count a b ≤ length a)%nat
  ∧ (set_intersection_count a b ≤ length b)%nat.
Proof.
  revert b. induction a as [| x a IHa]; intros b; [simpl; lia |].
  induction b as [| y b IHb]; [simpl; lia |].
  simpl in *. destruct (edge_less x y).
  - destruct (IHa (y :: b)). simpl in *. lia.
  - destruct (edge_less y x).
    + lia.
    + destruct (IHa b). lia.
Qed.

Lemma sort_length l : length (sort l) = length l.
Proof. by rewrite sort_perm. Qed.

(** X1.  The number [IntersectionLen] returns is at most the size of either vector,
    whatever the vectors hold and whatever [operator<] is: the two assertions
    of [PrefEqualsSuff] hold at its call from [PathOverlappingLen]. *)
Theorem IntersectionLen_bounded (a b : list Edge) :
  (IntersectionLen a b ≤ length a)%nat ∧ (IntersectionLen a b ≤ length b)%nat.
Proof.
  unfold IntersectionLen.
  destruct (set_intersection_count_le (sort a) (sort b)) as [Ha Hb].
  by rewrite !sort_length in *.
Qed.

(** *** [State::operator>] *)

(** X2.  When [operator<] on edges is a strict total order, so is [operator>] on
    the states of the search, which is what the priority queue asks of its
    comparison. *)
Theorem state_greater_strict_total :
  StrictTotal →
  (∀ a, state_greater a a = false)
  ∧ (∀ a b c, state_greater a b = true → state_greater b c = true →
              state_greater a c = true)
  ∧ (∀ a b, state_greater a b = false → state_greater b a = false → a = b).
Proof.
  intros (Hirr & Htrans & Htot). unfold state_greater. split_and!.
  - intros [e s]. simpl. rewrite Z.ltb_irrefl, Hirr. done.
  - intros [e1 s1] [e2 s2] [e3 s3]. simpl.
    destruct (Z.ltb_spec s2 s1), (Z.ltb_spec s1 s2), (Z.ltb_spec s3 s2),
      (Z.ltb_spec s2 s3), (Z.ltb_spec s3 s1), (Z.ltb_spec s1 s3);
      simpl; try lia; try done.
    intros H12 H23. by eapply Htrans.
  - intros [e1 s1] [e2 s2]. simpl.
    destruct (Z.ltb_spec s2 s1), (Z.ltb_spec s1 s2); simpl; try lia; try done.
    intros H12 H21. assert (s1 = s2) as -> by lia. f_equal. by apply Htot.
Qed.

(** *** [PathOverlappingLen] *)

Section Overlap.

Hypothesis edge_order : StrictTotal.

(** X3.  For duplicate-free sequences [a] and [b], [a] short enough for
    [int32_t]: [PathOverlappingLen] returns [k >= 0] exactly when the edges
    common to [a] and [b] are the last [k] edges of [a] and, in order, the
    first [k] edges of [b]; and it returns -1 exactly when they are so for no
    [k]. *)
Theorem PathOverlappingLen_result (a b : list Edge) :
  NoDup a → NoDup b → Z.of_nat (length a) ≤ 2147483647 →
  (∀ k, PathOverlappingLen a b = Ok (Z.of_nat k) ↔ CleanOverlap a b k)
  ∧ (PathOverlappingLen a b = Ok (-1) ↔ ¬ ∃ k, CleanOverlap a b k).
Proof.
  intros Ha Hb Hfit.
  assert (∀ k, CleanOverlap a b k → PathOverlappingLen a b = Ok (Z.of_nat k))
    as Hclean.
  { intros k Hk. apply PathOverlappingLen_clean; try done.
    destruct Hk as (Hka & _). lia. }
  split.
  - intros k. split; [| apply Hclean].
    unfold PathOverlappingLen. rewrite IntersectionLen_common by done.
    destruct (PrefEqualsSuff a b (length (common a b))) eqn:Hpre;
      [| intros [=]; lia].
    unfold checked_cast_int32. case_match; [| done].
    intros [= Heq%Nat2Z.inj]. subst k. by apply common_clean.
  - split.
    + intros Hminus [k Hk]. rewrite (Hclean k Hk) in Hminus.
      injection Hminus. lia.
    + by apply PathOverlappingLen_invalid.
Qed.

(** X4.  What [PathOverlappingLen] returns for duplicate-free sequences, when it is
    not -1, is the length of the longest suffix of [a] that is a prefix of
    [b], as its comment says. *)
Theorem PathOverlappingLen_longest (a b : list Edge) (k j : nat) :
  NoDup a → NoDup b →
  PathOverlappingLen a b = Ok (Z.of_nat k) →
  (j ≤ length a)%nat → (j ≤ length b)%nat →
  drop (length a - j) a = take j b →
  (j ≤ k)%nat.
Proof.
  intros Ha Hb. unfold PathOverlappingLen.
  rewrite IntersectionLen_common by done.
  destruct (PrefEqualsSuff a b (length (common a b))); [| intros [=]; lia].
  unfold checked_cast_int32. case_match; [| done].
  intros [= Heq%Nat2Z.inj] Hja Hjb Hsuffix. subst k.
  rewrite <- (length_take_le b j) by done.
  apply submseteq_length, NoDup_submseteq.
  - rewrite <- (take_drop j b) in Hb. by apply NoDup_app in Hb as (? & _).
  - intros e He. apply list_elem_of_filter. split.
    + by eapply elem_of_take_subseteq.
    + rewrite <- Hsuffix in He. by eapply elem_of_drop_subseteq.
Qed.

(** X5.  A duplicate-free, non-empty sequence connects with itself to itself,
    without a search. *)
Theorem ConnectAdjacentCandidateLines_same (fuel : nat) (a : list Edge)
    (frc : FunctionalRoadClass) (distanceToNextPoint : Z) (out : list Edge) :
  NoDup a → a ≠ [] → Z.of_nat (length a) ≤ 2147483647 →
  ConnectAdjacentCandidateLines fuel a a frc distanceToNextPoint out
  = Ok (true, out ++ a).
Proof.
  intros Ha Hne Hfit. unfold ConnectAdjacentCandidateLines.
  destruct a as [| x a'] eqn:Heq; [done |]. rewrite <- Heq in *.
  rewrite (PathOverlappingLen_clean edge_order a a (length a)); try done.
  - rewrite mbind_Ok.
    assert (Z.of_nat (length a) ≠ 0) as Hlen by (subst a; simpl; lia).
    destruct (Z.eqb_spec (Z.of_nat (length a)) 0) as [| _]; [done |].
    destruct (Z.eqb_spec (Z.of_nat (length a)) (-1)) as [| _]; [lia |].
    simpl negb. cbv iota. by rewrite Nat2Z.id, drop_all, app_nil_r.
  - split_and!; try done.
    + by rewrite Nat.sub_diag, firstn_all.
    + intros e He _. by rewrite firstn_all.
Qed.

End Overlap.

(** *** [FindShortestPath]: what holds for every graph and every budget *)

Lemma wrap32_nonneg z : 0 ≤ wrap32 z.
Proof. unfold wrap32. apply Z.mod_pos_bound. lia. Qed.

(** X6.  A search from an edge to itself succeeds at the first turn of the loop,
    whatever the graph and the budget are: the path is the edge alone, put in
    front of what the caller left in [path], reversed. *)
Theorem FindShortestPath_same_edge (fuel : nat) (e : Edge)
    (frc : FunctionalRoadClass) (maxLength : Z) (path : list Edge) :
  FindShortestPath (S fuel) e e frc maxLength path
  = Ok (true, e :: reverse path).
Proof.
  unfold FindShortestPath. simpl. unfold step. simpl.
  pose proof (wrap32_nonneg (maxLength + kLengthToleranceM)) as Hb.
  destruct (Z.ltb_spec (wrap32 (maxLength + kLengthToleranceM)) 0); [lia |].
  rewrite lookup_singleton_eq. simpl. rewrite decide_True by done.
  assert (∀ known, walk_links fuel known e e path = Ok path) as ->
    by (intros known; destruct fuel; simpl; by rewrite decide_True).
  rewrite mbind_Ok. by rewrite reverse_snoc.
Qed.

Lemma walk_links_path fuel links from e path :
  walk_links fuel links from e path
  = match walk_links fuel links from e [] with
    | Ok l => Ok (path ++ l)
    | OutOfFuel => OutOfFuel
    | Aborted => Aborted
    end.
Proof.
  revert links e path. induction fuel as [| fuel IH]; intros links e path; simpl.
  - case_decide; [by rewrite app_nil_r | done].
  - case_decide; [by rewrite app_nil_r |].
    rewrite (IH _ _ (path ++ [e])), (IH _ _ [e]).
    destruct (walk_links fuel _ from _ []); try done.
    by rewrite <- app_assoc.
Qed.

Lemma search_loop_path fuel from to maxPathLength path st :
  search_loop fuel from to maxPathLength path st
  = match search_loop fuel from to maxPathLength [] st with
    | Ok (true, P) => Ok (true, P ++ reverse path)
    | Ok (false, _) => Ok (false, path)
    | OutOfFuel => OutOfFuel
    | Aborted => Aborted
    end.
Proof.
  revert st. induction fuel as [| fuel IH]; intros st; simpl; [done |].
  destruct (step to maxPathLength st) as [| st' | u st']; [done | apply IH |].
  rewrite (walk_links_path _ _ _ _ path).
  destruct (walk_links fuel (links st') from u []) as [l | |]; try done.
  rewrite !mbind_Ok. simpl. by rewrite <- reverse_app, <- app_assoc.
Qed.

(** X7.  What the caller left in [path] stays there.  A failed search returns it
    untouched; a successful one returns the path it found followed by the old
    content in reverse order, the final [reverse] running over the whole
    vector. *)
Theorem FindShortestPath_path_argument (fuel : nat) (source target : Edge)
    (frc : FunctionalRoadClass) (maxLength : Z) (path : list Edge) :
  FindShortestPath fuel source target frc maxLength path
  = match FindShortestPath fuel source target frc maxLength [] with
    | Ok (true, P) => Ok (true, P ++ reverse path)
    | Ok (false, _) => Ok (false, path)
    | OutOfFuel => OutOfFuel
    | Aborted => Aborted
    end.
Proof. apply search_loop_path. Qed.

Lemma relax_links_inv from u us st e :
  LinksInv from st → e ∈ successors u →
  u = from ∨ is_Some (links st !! u) →
  LinksInv from (relax u us st e)
  ∧ (u = from ∨ is_Some (links (relax u us st e) !! u)).
Proof.
  intros [Hlinks Hqueue] Hsucc Hu.
  assert (∀ x, is_Some (links st !! x) → is_Some (<[e := u]> (links st) !! x))
    as Hkeep.
  { intros x Hx. rewrite lookup_insert. by case_decide. }
  assert (∀ d,
            LinksInv from
              {| q := {| m_edge := e; m_score := d |} :: q st;
                 scores := <[e := d]> (scores st);
                 links := <[e := u]> (links st) |}
            ∧ (u = from ∨ is_Some (<[e := u]> (links st) !! u))) as Hins.
  { intros d. split; [split |]; simpl.
    - intros e' u'. rewrite lookup_insert. case_decide as Hee.
      + intros [= <-]. subst e'. split; [done |].
        destruct Hu as [-> | Hu]; [by left | right; by apply Hkeep].
      + intros He'. destruct (Hlinks e' u' He') as [Hs [-> | Hu']].
        * split; [done | by left].
        * split; [done | right; by apply Hkeep].
    - intros x [-> | Hx]%elem_of_cons; simpl.
      + right. by rewrite lookup_insert_eq.
      + destruct (Hqueue x Hx) as [-> | Hx']; [by left | right; by apply Hkeep].
    - destruct Hu as [-> | Hu]; [by left | right; by apply Hkeep]. }
  unfold relax.
  destruct (scores st !! e); [destruct (dlt _ _) |]; simpl;
    try apply Hins.
  by split; [split |].
Qed.

Lemma relax_fold_links_inv from u us es :
  (∀ e, e ∈ es → e ∈ successors u) →
  ∀ st, LinksInv from st → u = from ∨ is_Some (links st !! u) →
        LinksInv from (foldl (relax u us) st es).
Proof.
  induction es as [| e es IH]; intros Hes st Hinv Hu; simpl; [done |].
  destruct (relax_links_inv from u us st e Hinv) as [Hinv' Hu'];
    [apply Hes, list_elem_of_here | done |].
  apply IH; [| done | done].
  intros e' He'. by apply Hes, list_elem_of_further.
Qed.

Lemma step_links_inv from to maxPathLength st :
  LinksInv from st →
  match step to maxPathLength st with
  | Exhausted => True
  | Continue st' => LinksInv from st'
  | Reached u st' =>
    u = to ∧ LinksInv from st' ∧ (u = from ∨ is_Some (links st' !! u))
  end.
Proof.
  intros [Hlinks Hqueue]. unfold step.
  destruct (pq_pop (q st)) as [[x queue'] |] eqn:Hpop; [| done].
  pose proof (pq_pop_perm _ _ _ Hpop) as Hperm.
  assert (x ∈ q st) as Hx by (rewrite Hperm; apply list_elem_of_here).
  assert (∀ y, y ∈ queue' → y ∈ q st) as Hsub
    by (intros y Hy; rewrite Hperm; by apply list_elem_of_further).
  assert (∀ known,
            LinksInv from {| q := queue'; scores := known; links := links st |})
    as Hpopped.
  { intros known. split; simpl; [done |]. intros y Hy. by apply Hqueue, Hsub. }
  destruct (_ <? m_score x); [apply Hpopped |].
  destruct (_ <? m_score x); [apply Hpopped |].
  case_decide as Hto.
  - split_and!; [done | apply Hpopped |]. simpl. by apply Hqueue.
  - apply relax_fold_links_inv; [done | apply Hpopped |]. simpl. by apply Hqueue.
Qed.

Lemma links_walk_route from (linked : gmap Edge Edge) e l :
  (∀ e u, linked !! e = Some u →
          e ∈ successors u ∧ (u = from ∨ is_Some (linked !! u))) →
  Walk (link_of linked) from e l →
  e = from ∨ is_Some (linked !! e) →
  Route from (reverse (l ++ [from])) e.
Proof.
  intros Hlinks. induction 1 as [| e l Hne Hwalk IH]; intros He.
  - constructor.
  - destruct He as [-> | [u Hu]]; [done |].
    destruct (Hlinks e u Hu) as [Hsucc Hu'].
    unfold link_of in Hwalk, IH. rewrite Hu in Hwalk, IH. simpl in *.
    simpl. rewrite reverse_cons. econstructor; [by apply IH | done].
Qed.

Lemma search_loop_route fuel from to maxPathLength st P :
  LinksInv from st →
  search_loop fuel from to maxPathLength [] st = Ok (true, P) →
  Route from P to.
Proof.
  revert st. induction fuel as [| fuel IH]; intros st Hinv; simpl; [done |].
  pose proof (step_links_inv from to maxPathLength st Hinv) as Hstep.
  destruct (step to maxPathLength st) as [| st' | u st']; [done | by apply IH |].
  destruct Hstep as (-> & [Hlinks _] & Hto).
  destruct (walk_links fuel (links st') from to []) as [l | |] eqn:Hwalk;
    try done.
  rewrite mbind_Ok. intros [= <-].
  apply walk_links_Walk in Hwalk as (l' & -> & Hwalk). simpl.
  by eapply links_walk_route.
Qed.

(** X8.  Whenever the search succeeds, what it returns is a path of the graph from
    the source to the target: it starts with the source, ends with the target,
    every edge leaves the end junction of the edge before it, and no edge
    occurs twice.  This holds for every graph, every budget and all edge
    lengths, also negative ones and ones that overflow a score. *)
Theorem FindShortestPath_returns_route (fuel : nat) (source target : Edge)
    (frc : FunctionalRoadClass) (maxLength : Z) (P : list Edge) :
  FindShortestPath fuel source target frc maxLength [] = Ok (true, P) →
  Route source P target
  ∧ head P = Some source ∧ last P = Some target ∧ NoDup P.
Proof.
  intros Hrun. split.
  - eapply search_loop_route; [| exact Hrun].
    split; simpl.
    + intros e u Hu. by rewrite lookup_empty in Hu.
    + intros x ->%list_elem_of_singleton. by left.
  - by eapply FindShortestPath_true_shape.
Qed.

(** *** [ConnectAdjacentCandidateLines]: the output and its ends *)

(** X9.  The output vector is only appended to: a failed connection leaves it as it
    was, a successful one adds to it what it would have put in an empty
    vector. *)
Theorem ConnectAdjacentCandidateLines_appends (fuel : nat)
    (from to : list Edge) (frc : FunctionalRoadClass)
    (distanceToNextPoint : Z) (out : list Edge) :
  ConnectAdjacentCandidateLines fuel from to frc distanceToNextPoint out
  = match ConnectAdjacentCandidateLines fuel from to frc distanceToNextPoint []
    with
    | Ok (true, r) => Ok (true, out ++ r)
    | Ok (false, _) => Ok (false, out)
    | OutOfFuel => OutOfFuel
    | Aborted => Aborted
    end.
Proof.
  unfold ConnectAdjacentCandidateLines.
  destruct to as [| to_front to_rest]; [done |].
  destruct (PathOverlappingLen from (to_front :: to_rest)) as [skip | |];
    [| done | done].
  rewrite !mbind_Ok.
  destruct (negb (skip =? 0)).
  - by destruct (skip =? -1).
  - destruct (last from) as [from_back |]; [| done].
    case_decide; [done |].
    by destruct (FindShortestPath _ _ _ _ _ _) as [[[] P] | |].
Qed.

Lemma last_drop_lt {A} (l : list A) (k : nat) :
  (k < length l)%nat → last (drop k l) = last l.
Proof.
  intros Hk. rewrite <- (take_drop k l) at 2. rewrite last_app.
  destruct (last (drop k l)) eqn:Hlast; [done |].
  apply last_None in Hlast. apply (f_equal length) in Hlast.
  rewrite length_drop in Hlast. simpl in Hlast. lia.
Qed.

Lemma removelast_last (l : list Edge) (x : Edge) :
  last l = Some x → l = removelast l ++ [x].
Proof.
  intros Hlast.
  destruct l as [| y l] using rev_ind; [done |].
  rewrite last_snoc in Hlast. injection Hlast as ->.
  by rewrite removelast_last.
Qed.

(** The overlap found by [PathOverlappingLen], when it is not [-1]. *)
Lemma PathOverlappingLen_Ok a b skip :
  PathOverlappingLen a b = Ok skip → skip ≠ -1 →
  ∃ k, skip = Z.of_nat k ∧ (k ≤ length a)%nat ∧ (k ≤ length b)%nat
       ∧ drop (length a - k) a = take k b.
Proof.
  unfold PathOverlappingLen, PrefEqualsSuff, checked_cast_int32.
  case_bool_decide as Heq; [| by intros [= <-]].
  destruct (Z.of_nat _ <=? 2147483647); [| done].
  intros [= <-] _. eexists. split; [done |].
  unfold IntersectionLen in *.
  pose proof (set_intersection_count_le (sort a) (sort b)) as Hle.
  rewrite !sort_length in Hle. by destruct Hle.
Qed.

(** What a successful connection leaves in an empty output, in the two ways
    the function has of building it. *)
Lemma ConnectAdjacentCandidateLines_true fuel from to frc d r :
  ConnectAdjacentCandidateLines fuel from to frc d [] = Ok (true, r) →
  (∃ k, (0 < k ≤ length from)%nat ∧ (k ≤ length to)%nat
        ∧ drop (length from - k) from = take k to
        ∧ r = from ++ drop k to)
  ∨ (∃ from_back to_front to_rest P,
       last from = Some from_back ∧ to = to_front :: to_rest
       ∧ FindShortestPath fuel from_back to_front frc d [] = Ok (true, P)
       ∧ r = removelast from ++ P ++ to_rest).
Proof.
  unfold ConnectAdjacentCandidateLines.
  destruct to as [| to_front to_rest]; [done |].
  destruct (PathOverlappingLen from (to_front :: to_rest)) as [skip | |] eqn:Hskip;
    [| done | done].
  rewrite mbind_Ok.
  destruct (Z.eqb_spec skip 0) as [-> | Hne0]; simpl.
  - destruct (last from) as [from_back |] eqn:Hback; [| done].
    case_decide; [done |].
    destruct (FindShortestPath _ _ _ _ _ _) as [[[] P] | |] eqn:Hsearch;
      try done.
    simpl. intros [= <-]. right. by exists from_back, to_front, to_rest, P.
  - destruct (Z.eqb_spec skip (-1)) as [-> | Hne1]; [done |].
    intros [= <-]. left.
    destruct (PathOverlappingLen_Ok _ _ _ Hskip Hne1) as (k & -> & Ha & Hb & Heq).
    exists k. rewrite Nat2Z.id. split_and!; try done. lia.
Qed.

Lemma connect_adjacent_ends fuel from to frc d r :
  ConnectAdjacentCandidateLines fuel from to frc d [] = Ok (true, r) →
  (∃ front, head r = Some front ∧ head from = Some front)
  ∧ (∃ back, last r = Some back ∧ last to = Some back).
Proof.
  intros [(k & Hk & Hkb & Heq & ->)
         | (from_back & to_front & to_rest & P & Hback & -> & Hsearch & ->)]
    %ConnectAdjacentCandidateLines_true.
  - split.
    + destruct from as [| f from']; [simpl in Hk; lia |]. by exists f.
    + destruct (decide (k = length to)) as [-> | Hlt].
      * rewrite drop_all, app_nil_r. rewrite firstn_all in Heq.
        rewrite <- (take_drop (length from - length to) from), Heq, last_app.
        destruct (last to) as [back |] eqn:Hlast; [by exists back |].
        apply last_None in Hlast. subst to. simpl in Hk. lia.
      * rewrite last_app, last_drop_lt by lia.
        destruct (last to) as [back |] eqn:Hlast; [by exists back |].
        apply last_None in Hlast. subst to. simpl in Hkb. lia.
  - apply FindShortestPath_true_shape in Hsearch as (Hhead & Hlast & _).
    split.
    + pose proof (removelast_last from from_back Hback) as Hsplit.
      destruct (removelast from) as [| f rest]; rewrite Hsplit; simpl.
      * destruct P as [| p P]; [done |]. simpl in *. by exists p.
      * by exists f.
    + destruct to_rest as [| t to_rest] using rev_ind.
      * rewrite app_nil_r, last_app, Hlast. by exists to_front.
      * exists t. rewrite !app_assoc, last_snoc.
        by rewrite app_comm_cons, last_snoc.
Qed.

(** X10.  A connected path begins with the first edge of the first candidate and
    ends with the last edge of the second one; in particular it is not empty,
    and both candidates are not empty. *)
Theorem ConnectAdjacentCandidateLines_endpoints (fuel : nat)
    (from to : list Edge) (frc : FunctionalRoadClass)
    (distanceToNextPoint : Z) (r : list Edge) :
  ConnectAdjacentCandidateLines fuel from to frc distanceToNextPoint []
  = Ok (true, r) →
  (∃ front, head r = Some front ∧ head from = Some front)
  ∧ (∃ back, last r = Some back ∧ last to = Some back).
Proof. apply connect_adjacent_ends. Qed.

Lemma Chain_app l1 l2 :
  Chain (l1 ++ l2) ↔
  Chain l1 ∧ Chain l2
  ∧ ∀ u e, last l1 = Some u → head l2 = Some e → e ∈ successors u.
Proof.
  induction l1 as [| x l1 IH]; simpl.
  - split; [by intros ? | by intros (_ & ? & _)].
  - destruct l1 as [| y l1]; simpl in *.
    + destruct l2 as [| z l2]; simpl.
      * split; [intros _; by split_and! | done].
      * split.
        -- intros [Hz Hl2]. split_and!; try done. by intros u e [= <-] [= <-].
        -- intros (_ & Hl2 & Hjoin). split; [by apply Hjoin | done].
    + rewrite IH. split.
      * intros (Hy & Hl1 & Hl2 & Hjoin). by split_and!.
      * intros ((Hy & Hl1) & Hl2 & Hjoin). by split_and!.
Qed.

Lemma Chain_drop l k : Chain l → Chain (drop k l).
Proof.
  intros Hl. rewrite <- (take_drop k l) in Hl. by apply Chain_app in Hl as (_ & ? & _).
Qed.

Lemma Chain_take l k : Chain l → Chain (take k l).
Proof.
  intros Hl. rewrite <- (take_drop k l) in Hl. by apply Chain_app in Hl as (? & _ & _).
Qed.

Lemma Route_Chain from p e : Route from p e → Chain p ∧ last p = Some e.
Proof.
  induction 1 as [| p u e Hroute [IHc IHl] Hsucc]; [done |].
  split; [| by rewrite last_snoc].
  apply Chain_app. split_and!; [done | done |].
  intros u' e' Hu' [= <-]. rewrite IHl in Hu'. by injection Hu' as <-.
Qed.

Lemma connect_adjacent_chain fuel from to frc d r :
  Chain from → Chain to →
  ConnectAdjacentCandidateLines fuel from to frc d [] = Ok (true, r) →
  Chain r.
Proof.
  intros Hfrom Hto
    [(k & Hk & Hkb & Heq & ->)
    | (from_back & to_front & to_rest & P & Hback & -> & Hsearch & ->)]
    %ConnectAdjacentCandidateLines_true.
  - apply Chain_app. split_and!; [done | by apply Chain_drop |].
    intros u e Hu He.
    (* [u] is the edge of [to] at [k - 1], [e] the one at [k] *)
    assert (to !! (k - 1)%nat = Some u) as Hat.
    { rewrite <- (lookup_take_lt to k) by lia. rewrite <- Heq.
      rewrite lookup_drop, last_lookup in *.
      rewrite <- Hu. f_equal. lia. }
    assert (to !! k = Some e) as Hnext.
    { by rewrite head_lookup, lookup_drop, Nat.add_0_r in He. }
    rewrite <- (take_drop (k - 1) to) in Hto.
    apply Chain_app in Hto as (_ & Hto & _).
    rewrite (drop_S to u (k - 1)) in Hto by done.
    replace (S (k - 1)) with k in Hto by lia.
    rewrite (drop_S to e k) in Hto by done.
    by destruct Hto.
  - assert (Route from_back P to_front ∧ head P = Some from_back) as [Hroute Hhead].
    { split.
      - eapply search_loop_route; [| exact Hsearch].
        split; simpl.
        + intros e u Hu. by rewrite lookup_empty in Hu.
        + intros x ->%list_elem_of_singleton. by left.
      - by apply FindShortestPath_true_shape in Hsearch as (? & _). }
    apply Route_Chain in Hroute as [HP Hlast].
    rewrite (removelast_last from from_back Hback) in Hfrom.
    apply Chain_app in Hfrom as (Hinit & _ & Hjoin1).
    simpl in Hto.
    apply Chain_app. split_and!; [done | |].
    + apply Chain_app. split_and!; [done | |].
      * destruct to_rest; [done | by destruct Hto].
      * intros u e Hu He. rewrite Hlast in Hu. injection Hu as <-.
        destruct to_rest as [| t to_rest]; [done |].
        injection He as <-. by destruct Hto.
    + intros u e Hu He. apply (Hjoin1 u e Hu).
      destruct P as [| p P]; [done |]. simpl in *. congruence.
Qed.

(** X11.  Connecting two paths of the graph gives a path of the graph: when in each
    candidate every edge leaves the end junction of the edge before it, so it
    is in the connected path, across the overlap and across the path the
    search puts between them. *)
Theorem ConnectAdjacentCandidateLines_chain (fuel : nat)
    (from to : list Edge) (frc : FunctionalRoadClass)
    (distanceToNextPoint : Z) (r : list Edge) :
  Chain from → Chain to →
  ConnectAdjacentCandidateLines fuel from to frc distanceToNextPoint []
  = Ok (true, r) →
  Chain r.
Proof. apply connect_adjacent_chain. Qed.

(** *** [ConnectCandidates]: what every call keeps *)

Lemma segmentLoop_lookups fuel points lineCandidates remaining a c :
  segmentLoop fuel points lineCandidates (S remaining) (S a) c ≠ Aborted →
  ∃ point fromCandidates toCandidates part0,
    points !! a = Some point ∧ lineCandidates !! a = Some fromCandidates
    ∧ lineCandidates !! S a = Some toCandidates
    ∧ resultPath c !! a = Some part0.
Proof.
  simpl. rewrite Nat.sub_0_r.
  destruct (points !! a) as [point |]; [| done].
  destruct (lineCandidates !! a) as [fromCandidates |]; [| done].
  destruct (lineCandidates !! S a) as [toCandidates |]; [| done].
  destruct (resultPath c !! a) as [part0 |]; [| done].
  intros _. by exists point, fromCandidates, toCandidates, part0.
Qed.

Lemma ConnectCandidates_produced fuel points lineCandidates resultPath0 stat0 c :
  ConnectCandidates fuel points lineCandidates resultPath0 stat0
  = Ok (true, c) →
  ∀ j r, resultPath c !! j = Some r →
         ∃ point fromCandidates toCandidates,
           points !! j = Some point ∧
           lineCandidates !! j = Some fromCandidates ∧
           lineCandidates !! S j = Some toCandidates ∧
           Produced fuel point fromCandidates toCandidates r.
Proof.
  unfold ConnectCandidates.
  destruct points as [| point0 points']; [done |].
  set (points := point0 :: points') in *.
  intros Hrun. apply segmentLoop_produced in Hrun as [Hlen Hall].
  - simpl resultPath in Hlen. rewrite length_resize in Hlen.
    intros j r Hjr. apply Hall; [| done].
    apply lookup_lt_Some in Hjr. rewrite Hlen in Hjr.
    subst points. simpl in *. lia.
  - intros j r Hj. lia.
Qed.

(** X12.  Every path of a successful call begins with the first edge of a candidate
    of its first point and ends with the last edge of a candidate of its
    second point. *)
Theorem ConnectCandidates_endpoints (fuel : nat) (points : list LRP)
    (lineCandidates : list (list (list Edge)))
    (resultPath0 : list (list Edge)) (stat0 : Stats) (c : ConnectState)
    (j : nat) (r : list Edge) :
  ConnectCandidates fuel points lineCandidates resultPath0 stat0
  = Ok (true, c) →
  resultPath c !! j = Some r →
  ∃ fromCandidates toCandidates from to front back,
    lineCandidates !! j = Some fromCandidates ∧
    lineCandidates !! S j = Some toCandidates ∧
    from ∈ fromCandidates ∧ to ∈ toCandidates ∧
    head from = Some front ∧ head r = Some front ∧
    last to = Some back ∧ last r = Some back.
Proof.
  intros Hrun Hjr.
  destruct (ConnectCandidates_produced _ _ _ _ _ _ Hrun j r Hjr)
    as (point & fromCandidates & toCandidates & _ & Hf & Ht
        & from & to & Hfrom & Hto & Hc).
  apply connect_adjacent_ends in Hc
    as [(front & Hfront & Hhead) (back & Hback & Hlast)].
  by exists fromCandidates, toCandidates, from, to, front, back.
Qed.

(** X13.  When every candidate is a path of the graph, every path of a successful
    call is one. *)
Theorem ConnectCandidates_chain (fuel : nat) (points : list LRP)
    (lineCandidates : list (list (list Edge)))
    (resultPath0 : list (list Edge)) (stat0 : Stats) (c : ConnectState) :
  (∀ candidates sequence,
     candidates ∈ lineCandidates → sequence ∈ candidates → Chain sequence) →
  ConnectCandidates fuel points lineCandidates resultPath0 stat0
  = Ok (true, c) →
  ∀ j r, resultPath c !! j = Some r → Chain r.
Proof.
  intros Hchain Hrun j r Hjr.
  destruct (ConnectCandidates_produced _ _ _ _ _ _ Hrun j r Hjr)
    as (point & fromCandidates & toCandidates & _ & Hf & Ht
        & from & to & Hfrom & Hto & Hc).
  eapply connect_adjacent_chain; [| | exact Hc].
  - eapply Hchain; [| exact Hfrom]. by eapply list_elem_of_lookup_2.
  - eapply Hchain; [| exact Hto]. by eapply list_elem_of_lookup_2.
Qed.

Lemma segmentLoop_slots (Q : nat → list Edge → Prop) fuel points
    lineCandidates :
  (∀ j point fromCandidates toCandidates part0 calls0 s,
     points !! j = Some point →
     lineCandidates !! j = Some fromCandidates →
     lineCandidates !! S j = Some toCandidates →
     connectSegment fuel j point fromCandidates toCandidates part0 calls0
     = Ok s →
     found s = true → Q j (resultPathPart s)) →
  ∀ remaining a c c',
    segmentLoop fuel points lineCandidates remaining (S a) c = Ok (true, c') →
    (∀ j r, (j < a)%nat → resultPath c !! j = Some r → Q j r) →
    ∀ j r, (j < a + remaining)%nat → resultPath c' !! j = Some r → Q j r.
Proof.
  intros Hseg.
  induction remaining as [| remaining IH]; intros a c c' Hrun Hinv.
  - simpl in Hrun. injection Hrun as <-.
    intros j r Hj. apply Hinv. lia.
  - destruct (segmentLoop_lookups fuel points lineCandidates remaining a c)
      as (point & fromCandidates & toCandidates & part0 & Hp & Hf & Ht & Hr);
      [by rewrite Hrun |].
    rewrite (segmentLoop_step _ _ _ _ _ _ _ _ _ _ Hp Hf Ht Hr) in Hrun.
    destruct (connectSegment _ _ _ _ _ _ _) as [s | |] eqn:Hs; try done.
    rewrite mbind_Ok in Hrun.
    destruct (found s) eqn:Hfound; [| done].
    intros j r Hj. eapply IH; [exact Hrun | | lia].
    simpl. intros j' r' Hj' Hjr'.
    destruct (decide (j' = a)) as [-> | Hne].
    + rewrite list_lookup_insert_eq in Hjr' by (by eapply lookup_lt_Some).
      injection Hjr' as <-. by eapply Hseg.
    + rewrite list_lookup_insert_ne in Hjr' by done.
      apply Hinv; [lia | done].
Qed.

Lemma tryPair_validated fuel segment point from to s s' :
  (fakePath s ≠ [] →
   ValidatePath (fakePath s) (m_distanceToNextPoint point) pathLengthTolerance
   = true) →
  tryPair fuel segment point from to s = Ok s' →
  (found s' = true →
   ValidatePath (resultPathPart s') (m_distanceToNextPoint point)
     pathLengthTolerance = true)
  ∧ (fakePath s' ≠ [] →
     ValidatePath (fakePath s') (m_distanceToNextPoint point)
       pathLengthTolerance = true).
Proof.
  intros Hfake. unfold tryPair.
  destruct (ConnectAdjacentCandidateLines _ _ _ _ _ _) as [[found1 part] | |];
    try done.
  rewrite mbind_Ok.
  destruct found1; simpl; [| by intros [= <-]].
  destruct (ValidatePath part _ _) eqn:Hvalid.
  - rewrite andb_true_r.
    repeat case_match; try done; intros [= <-]; simpl; auto.
  - rewrite andb_false_r. intros [= <-]. simpl. split; [done | exact Hfake].
Qed.

Lemma connectSegment_validated fuel segment point fromCandidates toCandidates
    part0 calls0 s :
  connectSegment fuel segment point fromCandidates toCandidates part0 calls0
  = Ok s →
  found s = true →
  ValidatePath (resultPathPart s) (m_distanceToNextPoint point)
    pathLengthTolerance = true.
Proof.
  unfold connectSegment.
  destruct (fromLoop _ _ _ _ _ _) as [s1 | |] eqn:Hloop; try done.
  rewrite mbind_Ok.
  assert ((found s1 = true →
           ValidatePath (resultPathPart s1) (m_distanceToNextPoint point)
             pathLengthTolerance = true)
          ∧ (fakePath s1 ≠ [] →
             ValidatePath (fakePath s1) (m_distanceToNextPoint point)
               pathLengthTolerance = true))
    as [Hpart Hfake].
  { eapply (fromLoop_invariant
              (λ s, (found s = true →
                     ValidatePath (resultPathPart s)
                       (m_distanceToNextPoint point) pathLengthTolerance
                     = true)
                    ∧ (fakePath s ≠ [] →
                       ValidatePath (fakePath s)
                         (m_distanceToNextPoint point) pathLengthTolerance
                       = true))); [| | exact Hloop].
    - intros from to s2 s3 _ _ [_ Hf]. by apply tryPair_validated.
    - simpl. split; done. }
  destruct (bool_decide (fakePath s1 = [])) eqn:Hempty; simpl.
  - intros [= <-]. exact Hpart.
  - apply bool_decide_eq_false in Hempty.
    destruct (found s1) eqn:Hfound; simpl; intros [= <-]; simpl; auto.
Qed.

(** X14.  Every path of a successful call was accepted by [ValidatePath] for the
    distance of its first point and the tolerance of the connector; this
    includes the paths with a fake first or last edge that were kept back and
    taken in the end. *)
Theorem ConnectCandidates_validated (fuel : nat) (points : list LRP)
    (lineCandidates : list (list (list Edge)))
    (resultPath0 : list (list Edge)) (stat0 : Stats) (c : ConnectState)
    (j : nat) (r : list Edge) (point : LRP) :
  ConnectCandidates fuel points lineCandidates resultPath0 stat0
  = Ok (true, c) →
  resultPath c !! j = Some r →
  points !! j = Some point →
  ValidatePath r (m_distanceToNextPoint point) pathLengthTolerance = true.
Proof.
  unfold ConnectCandidates.
  destruct points as [| point0 points']; [done |].
  set (points := point0 :: points') in *.
  intros Hrun Hjr Hpoint.
  pose proof (segmentLoop_slots
                (λ j r, ∀ point, points !! j = Some point →
                   ValidatePath r (m_distanceToNextPoint point)
                     pathLengthTolerance = true)
                fuel points lineCandidates) as Hslots.
  eapply (Hslots) with (a := 0%nat); [| exact Hrun | | | exact Hjr | exact Hpoint].
  - intros j' point' fromCandidates toCandidates part0 calls0 s Hp _ _ Hs Hfound
      point'' Hp'.
    pose proof (eq_trans (eq_sym Hp) Hp') as [= <-].
    by eapply connectSegment_validated.
  - intros j' r' Hj'. lia.
  - apply lookup_lt_Some in Hjr.
    (* the loop does not change the number of slots *)
    apply segmentLoop_produced in Hrun as [Hlen _]; [| intros ? ? ?; lia].
    rewrite Hlen in Hjr. simpl in Hjr. rewrite length_resize in Hjr.
    subst points. simpl in *. lia.
Qed.

Lemma segmentLoop_counter fuel points lineCandidates :
  ∀ remaining i c found c',
    segmentLoop fuel points lineCandidates remaining i c = Ok (found, c') →
    length (resultPath c') = length (resultPath c)
    ∧ m_noShortestPathFound (stat c')
      = m_noShortestPathFound (stat c) + (if found then 0 else 1).
Proof.
  induction remaining as [| remaining IH]; intros i c b c'; simpl.
  - intros [= <- <-]. split; [done | lia].
  - destruct (points !! (i - 1)%nat) as [point |]; [| done].
    destruct (lineCandidates !! (i - 1)%nat) as [fromCandidates |]; [| done].
    destruct (lineCandidates !! i) as [toCandidates |]; [| done].
    destruct (resultPath c !! (i - 1)%nat) as [part0 |]; [| done].
    destruct (connectSegment _ _ _ _ _ _ _) as [s | |]; try done.
    rewrite mbind_Ok.
    destruct (found s).
    + intros [Hlen Hstat]%IH. simpl in *.
      by rewrite length_insert in Hlen.
    + intros [= <- <-]. simpl. by rewrite length_insert.
Qed.

(** X15.  Whatever a call returns, the output has one slot for each pair of
    consecutive points, and the counter of the statistics is one higher than
    before when the call returns [false] and unchanged when it returns
    [true]. *)
Theorem ConnectCandidates_counter (fuel : nat) (points : list LRP)
    (lineCandidates : list (list (list Edge)))
    (resultPath0 : list (list Edge)) (stat0 : Stats) (found : bool)
    (c : ConnectState) :
  ConnectCandidates fuel points lineCandidates resultPath0 stat0
  = Ok (found, c) →
  length (resultPath c) = (length points - 1)%nat
  ∧ m_noShortestPathFound (stat c)
    = m_noShortestPathFound stat0 + (if found then 0 else 1).
Proof.
  unfold ConnectCandidates.
  destruct points as [| point0 points']; [done |].
  intros [Hlen Hstat]%segmentLoop_counter. simpl in Hlen, Hstat.
  rewrite length_resize in Hlen. simpl. by rewrite Nat.sub_0_r in *.
Qed.

Lemma tryPair_part fuel segment point from to s s' :
  same_but_part s s' →
  tryPair fuel segment point from to s = tryPair fuel segment point from to s'.
Proof. intros (_ & Hfake & Hcalls). unfold tryPair. by rewrite Hfake, Hcalls. Qed.

Lemma toLoop_part fuel segment point from toCandidates s s' :
  same_but_part s s' →
  (toLoop fuel segment point from toCandidates s = Ok s
   ∧ toLoop fuel segment point from toCandidates s' = Ok s')
  ∨ toLoop fuel segment point from toCandidates s
    = toLoop fuel segment point from toCandidates s'.
Proof.
  intros Hsame. destruct toCandidates as [| to rest]; simpl; [by left |].
  pose proof Hsame as (Hfound & _). rewrite <- Hfound.
  destruct (found s); [by left | right].
  by rewrite (tryPair_part _ _ _ _ _ s s').
Qed.

Lemma fromLoop_part fuel segment point fromCandidates toCandidates :
  ∀ s s', same_but_part s s' →
    (fromLoop fuel segment point fromCandidates toCandidates s = Ok s
     ∧ fromLoop fuel segment point fromCandidates toCandidates s' = Ok s')
    ∨ fromLoop fuel segment point fromCandidates toCandidates s
      = fromLoop fuel segment point fromCandidates toCandidates s'.
Proof.
  induction fromCandidates as [| from rest IH]; intros s s' Hsame; simpl;
    [by left |].
  pose proof Hsame as (Hfound & _). rewrite <- Hfound.
  destruct (found s); [by left |].
  destruct (toLoop_part fuel segment point from toCandidates s s' Hsame)
    as [[-> ->] | ->]; [| by right].
  rewrite !mbind_Ok. by apply IH.
Qed.

Lemma connectSegment_part fuel segment point fromCandidates toCandidates
    part0 part0' calls0 :
  (∃ s s',
     connectSegment fuel segment point fromCandidates toCandidates part0 calls0
     = Ok s
     ∧ connectSegment fuel segment point fromCandidates toCandidates part0'
         calls0 = Ok s'
     ∧ found s = false ∧ found s' = false ∧ calls s = calls s')
  ∨ connectSegment fuel segment point fromCandidates toCandidates part0 calls0
    = connectSegment fuel segment point fromCandidates toCandidates part0'
        calls0.
Proof.
  unfold connectSegment.
  destruct (fromLoop_part fuel segment point fromCandidates toCandidates
              {| found := false; resultPathPart := part0; fakePath := [];
                 calls := calls0 |}
              {| found := false; resultPathPart := part0'; fakePath := [];
                 calls := calls0 |})
    as [[-> ->] | ->]; [done | | by right].
  left. rewrite !mbind_Ok. simpl. by eexists _, _.
Qed.

Lemma take_S_insert {A} (l : list A) (a : nat) (x : A) :
  (a < length l)%nat → take (S a) (<[a := x]> l) = take a l ++ [x].
Proof.
  intros Ha. rewrite list_insert_take_drop by done.
  rewrite (cons_middle x), app_assoc.
  apply take_app_length'. rewrite length_app, length_take. simpl. lia.
Qed.

Lemma segmentLoop_part fuel points lineCandidates :
  ∀ remaining a c1 c2 found c',
    length (resultPath c1) = (a + remaining)%nat →
    length (resultPath c2) = (a + remaining)%nat →
    take a (resultPath c1) = take a (resultPath c2) →
    stat c1 = stat c2 → made c1 = made c2 →
    segmentLoop fuel points lineCandidates remaining (S a) c1
    = Ok (found, c') →
    ∃ c'', segmentLoop fuel points lineCandidates remaining (S a) c2
           = Ok (found, c'')
           ∧ stat c'' = stat c' ∧ made c'' = made c'
           ∧ (found = true → c'' = c').
Proof.
  induction remaining as [| remaining IH];
    intros a c1 c2 b c' Hlen1 Hlen2 Htake Hstat Hmade Hrun.
  - simpl in *. injection Hrun as <- <-. exists c2. split_and!; try done.
    intros _. rewrite Nat.add_0_r in *.
    rewrite !take_ge in Htake by lia.
    destruct c1, c2; simpl in *. by subst.
  - destruct (segmentLoop_lookups fuel points lineCandidates remaining a c1)
      as (point & fromCandidates & toCandidates & part0 & Hp & Hf & Ht & Hr);
      [by rewrite Hrun |].
    destruct (resultPath c2 !! a) as [part0' |] eqn:Hr';
      [| apply lookup_ge_None in Hr'; lia].
    rewrite (segmentLoop_step _ _ _ _ _ _ _ _ _ _ Hp Hf Ht Hr) in Hrun.
    rewrite (segmentLoop_step _ _ _ _ _ _ _ _ _ _ Hp Hf Ht Hr').
    rewrite <- Hmade, <- Hstat.
    destruct (connectSegment_part fuel a point fromCandidates toCandidates
                part0 part0' (made c1))
      as [(s & s' & Hs & Hs' & Hfound & Hfound' & Hcalls) | <-].
    + rewrite Hs, mbind_Ok, Hfound in Hrun. injection Hrun as <- <-.
      rewrite Hs', mbind_Ok, Hfound'. eexists. split; [done |].
      simpl. by rewrite Hcalls.
    + destruct (connectSegment _ _ _ _ _ _ _) as [s | |]; try done.
      rewrite mbind_Ok in *.
      destruct (found s).
      * eapply IH; [| | | | | exact Hrun]; simpl; try done.
        -- rewrite length_insert. lia.
        -- rewrite length_insert. lia.
        -- rewrite !take_S_insert by lia. by rewrite Htake.
      * injection Hrun as <- <-. eexists. by split_and!.
Qed.

(** X16.  What the output vector held before the call has no part in the result:
    the same call on another vector returns the same boolean, counts the same
    and calls the same helpers, and when it succeeds it leaves the same
    paths. *)
Theorem ConnectCandidates_forgets_output (fuel : nat) (points : list LRP)
    (lineCandidates : list (list (list Edge)))
    (resultPath0 resultPath1 : list (list Edge)) (stat0 : Stats)
    (found : bool) (c : ConnectState) :
  ConnectCandidates fuel points lineCandidates resultPath0 stat0
  = Ok (found, c) →
  ∃ c', ConnectCandidates fuel points lineCandidates resultPath1 stat0
        = Ok (found, c')
        ∧ stat c' = stat c ∧ made c' = made c
        ∧ (found = true → c' = c).
Proof.
  unfold ConnectCandidates.
  destruct points as [| point0 points']; [done |].
  apply segmentLoop_part; simpl; try done.
  - by rewrite length_resize, Nat.sub_0_r.
  - by rewrite length_resize, Nat.sub_0_r.
Qed.

(** *** [FindShortestPath]: the budget after wrap-around *)

Lemma double_to_uint32_from_zero (x : double) :
  double_to_uint32 (dadd (of_uint32 0) x) = double_to_uint32 x.
Proof. by destruct x as [[] | | |]. Qed.

Lemma relax_queue u us st e x :
  x ∈ q (relax u us st e) →
  x ∈ q st ∨ m_score x = double_to_uint32 (dadd (of_uint32 us) (EdgeLength e))
             ∧ e = m_edge x.
Proof.
  unfold relax.
  destruct (scores st !! e); [destruct (dlt _ _) |]; simpl;
    try (by left).
  all: intros [-> | Hx]%elem_of_cons; [by right | by left].
Qed.

Lemma relax_queue_length u us st e :
  (length (q (relax u us st e)) ≤ S (length (q st)))%nat.
Proof.
  unfold relax.
  destruct (scores st !! e); [destruct (dlt _ _) |]; simpl; lia.
Qed.

Lemma relax_fold_queue u us es :
  ∀ st,
    (∀ x, x ∈ q (foldl (relax u us) st es) →
          x ∈ q st ∨ ∃ e, e ∈ es
                         ∧ m_score x
                           = double_to_uint32 (dadd (of_uint32 us) (EdgeLength e)))
    ∧ (length (q (foldl (relax u us) st es)) ≤ length (q st) + length es)%nat.
Proof.
  induction es as [| e es IH]; intros st; simpl.
  - split; [by left | lia].
  - destruct (IH (relax u us st e)) as [Hin Hlen].
    pose proof (relax_queue_length u us st e) as Hone.
    split; [| lia].
    intros x [Hx | (e' & He' & Hx)]%Hin.
    + apply relax_queue in Hx as [Hx | [Hx _]]; [by left | right].
      exists e. split; [apply list_elem_of_here | done].
    + right. exists e'. split; [by apply list_elem_of_further | done].
Qed.

Lemma search_loop_over_budget fuel from to maxPathLength path :
  ∀ st,
    (∀ x, x ∈ q st → wrap32 (maxPathLength + kLengthToleranceM) < m_score x) →
    (length (q st) < fuel)%nat →
    search_loop fuel from to maxPathLength path st = Ok (false, path).
Proof.
  induction fuel as [| fuel IH]; intros st Hover Hfuel; [lia |].
  simpl. unfold step.
  destruct (pq_pop (q st)) as [[x queue'] |] eqn:Hpop; [| done].
  pose proof (pq_pop_perm _ _ _ Hpop) as Hperm.
  assert (x ∈ q st) as Hx by (rewrite Hperm; apply list_elem_of_here).
  rewrite (proj2 (Z.ltb_lt _ _) (Hover x Hx)).
  apply IH; simpl.
  - intros y Hy. apply Hover. rewrite Hperm. by apply list_elem_of_further.
  - apply Permutation_length in Hperm. simpl in Hperm. lia.
Qed.

(** X17.  The budget of the search is the [uint32_t] sum [maxLength + 10], taken
    after wrap-around.  When the score of every edge that leaves the source is
    above it, the search for another edge fails and leaves [path] as it was,
    however large [maxLength] is: for [maxLength] within 10 of the largest
    [uint32_t] the budget is below 10. *)
Theorem FindShortestPath_budget_wraps (fuel : nat) (source target : Edge)
    (frc : FunctionalRoadClass) (maxLength : Z) (path : list Edge) :
  source ≠ target →
  (∀ e, e ∈ successors source →
        wrap32 (maxLength + 10) < double_to_uint32 (EdgeLength e)) →
  (length (successors source) + 2 ≤ fuel)%nat →
  FindShortestPath fuel source target frc maxLength path = Ok (false, path).
Proof.
  intros Hne Hover Hfuel.
  destruct fuel as [| fuel]; [lia |].
  unfold FindShortestPath. simpl. unfold step. simpl.
  pose proof (wrap32_nonneg (maxLength + kLengthToleranceM)) as Hb.
  destruct (Z.ltb_spec (wrap32 (maxLength + kLengthToleranceM)) 0); [lia |].
  rewrite lookup_singleton_eq. simpl. rewrite decide_False by done.
  fold (successors source).
  match goal with
  | |- search_loop _ _ _ _ _ (foldl _ ?s _) = _ =>
    destruct (relax_fold_queue source 0 (successors source) s) as [Hin Hlen]
  end.
  cbn [q length] in Hin, Hlen.
  apply search_loop_over_budget.
  - intros x [[]%elem_of_nil | (e & He & ->)]%Hin.
    rewrite double_to_uint32_from_zero. by apply Hover.
  - lia.
Qed.

(** *** [PathOverlappingLen]: the range of the result *)

(** X18.  Whatever the two sequences are, the result is [-1] or the length of a
    suffix of [a] that equals the prefix of [b] of that length; so it is at
    most either size, and [begin(to) + skip] in
    [ConnectAdjacentCandidateLines] stays within [to]. *)
Theorem PathOverlappingLen_in_range (a b : list Edge) (skip : Z) :
  PathOverlappingLen a b = Ok skip →
  skip = -1
  ∨ (0 ≤ skip ≤ Z.of_nat (length a) ∧ skip ≤ Z.of_nat (length b)
     ∧ drop (length a - Z.to_nat skip) a = take (Z.to_nat skip) b).
Proof.
  intros Hrun. destruct (decide (skip = -1)) as [-> | Hne]; [by left | right].
  destruct (PathOverlappingLen_Ok a b skip Hrun Hne) as (k & -> & Ha & Hb & Heq).
  rewrite Nat2Z.id. split_and!; try done; lia.
Qed.

End PathsConnector.

(** * Sample runs

    Small graphs on which the functions are run.  Edges, junctions and road
    classes are numbers; [operator<] on edges is the order of the numbers. *)

Module Samples.

Definition less (a b : nat) : bool := Nat.ltb a b.

Definition point (distance : Z) : LocationReferencePoint nat :=
  {| m_functionalRoadClass := O; m_distanceToNextPoint := distance |}.

Definition no_stats : Stats := {| m_noShortestPathFound := 0 |}.

(** The double nearest to [n / d], what the literal denotes. *)
Definition ratio (n d : Z) : double := ddiv (of_uint32 n) (of_uint32 d).

(** ** A street with a turn back: edge 1 from X to Y, edge 2 from Y back to X,
    edge 3 from Y to Z, edge 4 from Z to W; every edge is 10 long. *)
Module Turn.

Definition end_junction (e : nat) : nat :=
  match e with
  | 1 => 1 | 2 => 0 | 3 => 2 | 4 => 3 | _ => 9
  end%nat.

Definition outgoing (j : nat) : list nat :=
  match j with
  | 0 => [1] | 1 => [2; 3] | 2 => [4] | _ => []
  end%nat.

Definition edge_length (e : nat) : double := of_uint32 10.

Definition is_fake (e : nat) : bool := false.

Definition search :=
  FindShortestPath (FunctionalRoadClass := nat) less O end_junction edge_length
    outgoing.

Definition connect :=
  ConnectAdjacentCandidateLines (FunctionalRoadClass := nat) less O
    end_junction edge_length outgoing.

Definition run :=
  ConnectCandidates (FunctionalRoadClass := nat) less O end_junction is_fake
    edge_length outgoing.

End Turn.

(** ** Two ways to a target: from the source 0 either over the edges 1 and 2,
    each 0.9 long, or over the edge 3, 1 long, to the target 4; source and
    target have length 0. *)
Module Fork.

Definition end_junction (e : nat) : nat :=
  match e with
  | 0 => 1 | 1 => 2 | 2 => 3 | 3 => 3 | 4 => 4 | _ => 9
  end%nat.

Definition outgoing (j : nat) : list nat :=
  match j with
  | 1 => [1; 3] | 2 => [2] | 3 => [4] | _ => []
  end%nat.

Definition edge_length (e : nat) : double :=
  match e with
  | 1%nat => ratio 9 10 | 2%nat => ratio 9 10 | 3%nat => of_uint32 1
  | _ => dzero
  end.

(** The same graph with the edges 1 and 2 each 3/4 long. *)
Definition grid_length (e : nat) : double :=
  match e with
  | 1%nat => ratio 3 4 | 2%nat => ratio 3 4 | 3%nat => of_uint32 1
  | _ => dzero
  end.

Definition universe : list nat := [0; 1; 2; 3; 4]%nat.

Definition search :=
  FindShortestPath (FunctionalRoadClass := nat) less O end_junction edge_length
    outgoing.

Definition search_grid :=
  FindShortestPath (FunctionalRoadClass := nat) less O end_junction grid_length
    outgoing.

End Fork.

(** ** Two adjacent edges: the source 0, 5 long, and the target 1, 8 long. *)
Module Pair.

Definition end_junction (e : nat) : nat :=
  match e with
  | 0 => 1 | _ => 2
  end%nat.

Definition outgoing (j : nat) : list nat :=
  match j with
  | 1 => [1] | _ => []
  end%nat.

Definition edge_length (e : nat) : double :=
  match e with
  | 0%nat => of_uint32 5 | 1%nat => of_uint32 8 | _ => dzero
  end.

Definition search :=
  FindShortestPath (FunctionalRoadClass := nat) less O end_junction edge_length
    outgoing.

End Pair.

(** ** A chain of three edges: the source 0, the edge 1, 1048576 long, and the
    target 2, 0.9999999999 long. *)
Module Carry.

Definition end_junction (e : nat) : nat := S e.

Definition outgoing (j : nat) : list nat :=
  match j with
  | 1 => [1] | 2 => [2] | _ => []
  end%nat.

Definition edge_length (e : nat) : double :=
  match e with
  | 1%nat => of_uint32 1048576 | 2%nat => ratio 9999999999 10000000000
  | _ => dzero
  end.

Definition search :=
  FindShortestPath (FunctionalRoadClass := nat) less O end_junction edge_length
    outgoing.

End Carry.

(** ** Edges that are not connected; edge 5 is fake; every edge is 10 long. *)
Module Loose.

Definition end_junction (e : nat) : nat := e.

Definition outgoing (j : nat) : list nat := [].

Definition edge_length (e : nat) : double := of_uint32 10.

Definition is_fake (e : nat) : bool := Nat.eqb e 5.

Definition try_pair :=
  attempt (FunctionalRoadClass := nat) less O end_junction edge_length outgoing.

Definition segment :=
  connectSegment (FunctionalRoadClass := nat) less O end_junction is_fake
    edge_length outgoing.

Definition run :=
  ConnectCandidates (FunctionalRoadClass := nat) less O end_junction is_fake
    edge_length outgoing.

End Loose.

(** ** Edges whose length is their number. *)
Module Ruler.

Definition edge_length (e : nat) : double := of_uint32 (Z.of_nat e).

End Ruler.

(** What a call on the street with a turn back leaves for the points 50 apart
    with the candidates [[1; 2]] and [[3; 4]]. *)
Definition turn_result : ConnectState :=
  {| resultPath := [[1; 2; 1; 3; 4]]%nat;
     stat := no_stats;
     made := [CallConnect 0 [1; 2] [3; 4];
              CallValidate 0 [1; 2; 1; 3; 4]]%nat |}.

Lemma less_strict_total : StrictTotal less.
Proof.
  unfold less. split_and!.
  - intros x. apply Nat.ltb_irrefl.
  - intros x y z Hxy%Nat.ltb_lt Hyz%Nat.ltb_lt. apply Nat.ltb_lt. lia.
  - intros x y Hxy%Nat.ltb_ge Hyx%Nat.ltb_ge. lia.
Qed.

Ltac decide_closed := apply (bool_decide_unpack _); vm_compute; exact I.

Ltac elem_cases H :=
  repeat (apply elem_of_cons in H as [-> | H]); [.. | by apply elem_of_nil in H].

Ltac refute H := exfalso; revert H; decide_closed.

(** ** The search *)


(** The score of a path leaves out the length of the source: the only path
    from 0 to 1 is 13 long, over [0 + 10], and it is found. *)
Example search_leaves_out_source_length :
  Pair.search 10 0%nat 1%nat O 0 [] = Ok (true, [0; 1]%nat)
  ∧ PathLength Pair.edge_length [0; 1]%nat = of_uint32 13
  ∧ route_score Pair.edge_length [0; 1]%nat = 8.
Proof. split_and!; by vm_compute. Qed.

(** The budget is a [uint32_t] sum: with [maxPathLength = 4294967290] it wraps
    to 4 and the path of score 8 is not found. *)
Example search_budget_wraps :
  Pair.search 10 0%nat 1%nat O 4294967290 [] = Ok (false, [])
  ∧ wrap32 (4294967290 + kLengthToleranceM) = 4.
Proof. split; by vm_compute. Qed.

(** Off the grid of lengths with 21 binary digits after the point the sum of
    a score and a length is rounded before it is cut: 1048576 + 0.9999999999
    is 1048577 as a double.  The path from 0 to 2 has the score 1048576, which
    is the budget [1048566 + 10], and it is not found. *)
Example search_rounds_the_sum :
  Carry.search 10 0%nat 2%nat O 1048566 [] = Ok (false, [])
  ∧ Route Carry.end_junction Carry.outgoing 0%nat [0; 1; 2]%nat 2%nat
  ∧ route_score Carry.edge_length [0; 1; 2]%nat = 1048566 + 10
  ∧ double_to_uint32 (dadd (of_uint32 1048576) (Carry.edge_length 2%nat))
    = 1048577.
Proof.
  split_and!; try (by vm_compute).
  apply (Route_next _ _ _ [0; 1]%nat 1%nat 2%nat); [| decide_closed].
  apply (Route_next _ _ _ [0]%nat 0%nat 1%nat); [| decide_closed].
  constructor.
Qed.


(** ** The validator *)

Example ValidatePath_accepts_130 :
  ValidatePath Ruler.edge_length [130%nat] 100 (ratio 3 10) = true.
Proof. by vm_compute. Qed.

Example ValidatePath_rejects_131 :
  ValidatePath Ruler.edge_length [131%nat] 100 (ratio 3 10) = false.
Proof. by vm_compute. Qed.

Example ValidatePath_accepts_70 :
  ValidatePath Ruler.edge_length [70%nat] 100 (ratio 3 10) = true.
Proof. by vm_compute. Qed.

Example ValidatePath_rejects_69 :
  ValidatePath Ruler.edge_length [69%nat] 100 (ratio 3 10) = false.
Proof. by vm_compute. Qed.

(** The deviation is rounded before it is compared: a path 2 long deviates
    from the distance 3 by a third, which as a double is the tolerance 1/3
    itself, and the path is accepted. *)
Example ValidatePath_rounds_the_deviation :
  ValidatePath Ruler.edge_length [2%nat] 3 (ratio 1 3) = true.
Proof. by vm_compute. Qed.

Lemma ValidatePath_accepts_iff_witness :
  is_nan (ratio 3 10) = false
  ∧ is_nan (total_length Ruler.edge_length [130%nat]) = false
  ∧ (ValidatePath Ruler.edge_length [130%nat] 100 (ratio 3 10) = true ↔
     dle (relative_deviation 100 (total_length Ruler.edge_length [130%nat]))
         (ratio 3 10) = true).
Proof.
  split_and!; [by vm_compute | by vm_compute |].
  apply (ValidatePath_accepts_iff Ruler.edge_length [130%nat] 100 (ratio 3 10)).
  - lia.
  - by vm_compute.
  - by vm_compute.
Defined.

(** ** Overlapping candidates *)

Lemma ConnectAdjacentCandidateLines_clean_overlap_witness :
  Turn.connect 0 [1; 2; 3]%nat [2; 3; 4]%nat O 50 []
  = Ok (true, [] ++ [1; 2; 3]%nat ++ drop 2 [2; 3; 4]%nat)
  ∧ length ([1; 2; 3]%nat ++ drop 2 [2; 3; 4]%nat) = (3 + 3 - 2)%nat
  ∧ NoDup ([1; 2; 3]%nat ++ drop 2 [2; 3; 4]%nat).
Proof.
  apply (ConnectAdjacentCandidateLines_clean_overlap less O Turn.end_junction
           Turn.edge_length Turn.outgoing less_strict_total 0
           [1; 2; 3]%nat [2; 3; 4]%nat O 50 [] 2).
  - decide_closed.
  - decide_closed.
  - split_and!; [simpl; lia | simpl; lia | done |].
    intros e HA HB. elem_cases HA; first [decide_closed | refute HB].
  - lia.
  - lia.
Defined.

(** C2 as stated fails.  The sequences [1; 2] and [3; 1] share the edge 1,
    which is neither the end of the first nor the start of the second; the
    search from 2 to 3 succeeds, and yet the connection fails. *)
Lemma invalid_overlap_is_not_searched :
  NoDup [1; 2]%nat ∧ NoDup [3; 1]%nat
  ∧ 1%nat ∈ [1; 2]%nat ∧ 1%nat ∈ [3; 1]%nat
  ∧ (¬ ∃ k, CleanOverlap [1; 2]%nat [3; 1]%nat k)
  ∧ Turn.search 10 2%nat 3%nat O 50 [] = Ok (true, [2; 1; 3]%nat)
  ∧ Turn.connect 10 [1; 2]%nat [3; 1]%nat O 50 [] = Ok (false, []).
Proof.
  split_and!; try decide_closed; try (by vm_compute).
  intros [k (Hka & Hkb & Heq & Hall)]. simpl in *.
  destruct k as [| [| [| k]]]; try done.
  specialize (Hall 1%nat ltac:(decide_closed) ltac:(decide_closed)).
  by apply elem_of_nil in Hall.
Qed.

Lemma ConnectAdjacentCandidateLines_invalid_overlap_witness :
  Turn.connect 10 [1; 2]%nat [3; 1]%nat O 50 [] = Ok (false, []).
Proof.
  apply (ConnectAdjacentCandidateLines_invalid_overlap less O Turn.end_junction
           Turn.edge_length Turn.outgoing less_strict_total 10
           [1; 2]%nat [3; 1]%nat O 50 []).
  - decide_closed.
  - decide_closed.
  - exists 1%nat. split; decide_closed.
  - intros [k (Hka & Hkb & Heq & Hall)]. simpl in *.
    destruct k as [| [| [| k]]]; try done.
    specialize (Hall 1%nat ltac:(decide_closed) ltac:(decide_closed)).
    by apply elem_of_nil in Hall.
Defined.

(** ** Candidates bridged by the search *)

Lemma ConnectAdjacentCandidateLines_search_splice_witness :
  Turn.connect 10 [1; 2]%nat [3; 4]%nat O 50 []
  = Ok (true, [] ++ removelast [1; 2]%nat ++ [2; 1; 3]%nat ++ tail [3; 4]%nat)
  ∧ head [2; 1; 3]%nat = Some 2%nat ∧ last [2; 1; 3]%nat = Some 3%nat
  ∧ occurrences 2%nat
      (removelast [1; 2]%nat ++ [2; 1; 3]%nat ++ tail [3; 4]%nat) = 1%nat
  ∧ occurrences 3%nat
      (removelast [1; 2]%nat ++ [2; 1; 3]%nat ++ tail [3; 4]%nat) = 1%nat.
Proof.
  apply (ConnectAdjacentCandidateLines_search_splice less O Turn.end_junction
           Turn.edge_length Turn.outgoing less_strict_total 10
           [1; 2]%nat [3; 4]%nat O 50 [] [2; 1; 3]%nat 2%nat 3%nat).
  - decide_closed.
  - decide_closed.
  - intros e He. elem_cases He; decide_closed.
  - reflexivity.
  - reflexivity.
  - by vm_compute.
Defined.

(** ** The fake edge policy *)

(** C3 as stated fails.  The pair [([5], [5])] yields the validated path [[5]],
    whose edges are fake, and it is put aside.  The next pair yields the
    validated path [[5; 7]], which starts with the fake edge 5: it is accepted
    at once, although pairs remain, and it is the result of the segment, not
    the path put aside first.  The later pair [([6], [6])] yields the validated
    path [[6]] without a fake edge, which is never tried. *)
Lemma second_fake_path_is_accepted :
  Loose.run (ratio 1 2) 10 [point 15; point 0]
            [[[5]; [6]]; [[5]; [5; 7]; [6]]]%nat [] no_stats
  = Ok (true,
        {| resultPath := [[5; 7]]%nat;
           stat := no_stats;
           made := [CallConnect 0 [5] [5]; CallValidate 0 [5];
                    CallConnect 0 [5] [5; 7]; CallValidate 0 [5; 7]]%nat |})
  ∧ Loose.try_pair (ratio 1 2) 10 (point 15) ([5], [5])%nat = Ok (Some [5]%nat)
  ∧ has_fake_boundary Loose.is_fake [5]%nat = true
  ∧ has_fake_boundary Loose.is_fake [5; 7]%nat = true
  ∧ Loose.try_pair (ratio 1 2) 10 (point 15) ([6], [6])%nat = Ok (Some [6]%nat)
  ∧ has_fake_boundary Loose.is_fake [6]%nat = false.
Proof. split_and!; by vm_compute. Qed.

Lemma connectSegment_choice_witness :
  ∃ s, Loose.segment (ratio 1 2) 10 0 (point 15)
         [[5]; [6]]%nat [[5]; [5; 7]; [6]]%nat [] [] = Ok s
       ∧ outcome s
         = segment_choice Loose.is_fake
             (omap id [Some [5]; Some [5; 7]; None; None; None; Some [6]]%nat).
Proof.
  apply (connectSegment_choice less O Loose.end_junction Loose.is_fake
           Loose.edge_length Loose.outgoing (ratio 1 2) 10 0 (point 15)
           [[5]; [6]]%nat [[5]; [5; 7]; [6]]%nat [] []
           [Some [5]; Some [5; 7]; None; None; None; Some [6]]%nat).
  simpl. repeat constructor; try (by vm_compute).
Defined.

(** ** A segment without an accepted path *)

(** C7 as stated fails.  The first segment is accepted with the path [[1]], the
    second has no accepted path: the call fails and the output vector still
    holds [[1]] in its first slot. *)
Lemma failure_leaves_earlier_segments :
  Loose.run (ratio 1 2) 10 [point 10; point 10; point 0]
            [[[1]]; [[1]]; [[2]]]%nat [] no_stats
  = Ok (false,
        {| resultPath := [[1]; []]%nat;
           stat := {| m_noShortestPathFound := 1 |};
           made := [CallConnect 0 [1] [1]; CallValidate 0 [1];
                    CallConnect 1 [1] [2]]%nat |}).
Proof. by vm_compute. Qed.

Lemma ConnectCandidates_segment_fails_witness :
  ∃ c, Loose.run (ratio 1 2) 10 [point 10; point 10; point 0]
                 [[[1]]; [[1]]; [[2]]]%nat [[9]; [9]; [9]]%nat no_stats
       = Ok (false, c)
       ∧ resultPath c
         = [[1]]%nat ++ [] :: drop 2 (resize (3 - 1) [[9]; [9]; [9]]%nat)
       ∧ m_noShortestPathFound (stat c) = 0 + 1
       ∧ ∀ call, call ∈ made c → (call_segment call ≤ 1)%nat.
Proof.
  apply (ConnectCandidates_segment_fails less O Loose.end_junction
           Loose.is_fake Loose.edge_length Loose.outgoing (ratio 1 2) 10
           [point 10; point 10; point 0] [[[1]]; [[1]]; [[2]]]%nat
           [[9]; [9]; [9]]%nat no_stats 1 [[1]]%nat).
  - simpl. lia.
  - reflexivity.
  - intros [| j] P HP; [| done]. injection HP as <-.
    exists (point 10), [[1]]%nat, [[1]]%nat, [Some [1]%nat].
    split_and!; try reflexivity.
    simpl. repeat constructor; try (by vm_compute).
  - exists (point 10), [[1]]%nat, [[2]]%nat, [None].
    split_and!; try reflexivity.
    simpl. repeat constructor; try (by vm_compute).
Defined.

(** ** Duplicate edges *)

(** C8 as stated fails.  The candidates [[1; 2]] and [[3; 4]] have no edge
    twice and share no edge; the shortest path from 2 to 3 turns back over
    the edge 1, and the accepted segment holds the edge 1 twice. *)
Lemma search_splice_repeats_an_edge :
  NoDup [1; 2]%nat ∧ NoDup [3; 4]%nat
  ∧ Turn.run (ratio 3 10) 10 [point 50; point 0] [[[1; 2]]; [[3; 4]]]%nat []
             no_stats
    = Ok (true,
          {| resultPath := [[1; 2; 1; 3; 4]]%nat;
             stat := no_stats;
             made := [CallConnect 0 [1; 2] [3; 4];
                      CallValidate 0 [1; 2; 1; 3; 4]]%nat |})
  ∧ ¬ NoDup [1; 2; 1; 3; 4]%nat.
Proof. split_and!; try decide_closed. by vm_compute. Qed.

Lemma ConnectCandidates_segments_spliced_witness :
  length [[1; 2; 1; 3; 4]]%nat = (2 - 1)%nat
  ∧ ∀ j r, [[1; 2; 1; 3; 4]]%nat !! j = Some r →
           ∃ fromCandidates toCandidates from to,
             [[[1; 2]]; [[3; 4]]]%nat !! j = Some fromCandidates
             ∧ [[[1; 2]]; [[3; 4]]]%nat !! S j = Some toCandidates
             ∧ from ∈ fromCandidates ∧ to ∈ toCandidates
             ∧ Spliced from to r.
Proof.
  apply (ConnectCandidates_segments_spliced less O Turn.end_junction
           Turn.is_fake Turn.edge_length Turn.outgoing (ratio 3 10)
           less_strict_total 10 [point 50; point 0]
           [[[1; 2]]; [[3; 4]]]%nat [] no_stats
           {| resultPath := [[1; 2; 1; 3; 4]]%nat;
              stat := no_stats;
              made := [CallConnect 0 [1; 2] [3; 4];
                       CallValidate 0 [1; 2; 1; 3; 4]]%nat |}).
  - intros candidates sequence Hc Hs.
    elem_cases Hc; elem_cases Hs; decide_closed.
  - by vm_compute.
Defined.

(** ** Further properties *)

Lemma state_greater_strict_total_witness :
  (∀ a, state_greater less a a = false)
  ∧ (∀ a b c, state_greater less a b = true → state_greater less b c = true →
              state_greater less a c = true)
  ∧ (∀ a b, state_greater less a b = false → state_greater less b a = false →
            a = b).
Proof. apply (state_greater_strict_total less less_strict_total). Defined.

Lemma PathOverlappingLen_result_witness :
  (∀ k, PathOverlappingLen less [1; 2; 3]%nat [2; 3; 4]%nat = Ok (Z.of_nat k)
        ↔ CleanOverlap [1; 2; 3]%nat [2; 3; 4]%nat k)
  ∧ (PathOverlappingLen less [1; 2; 3]%nat [2; 3; 4]%nat = Ok (-1)
     ↔ ¬ ∃ k, CleanOverlap [1; 2; 3]%nat [2; 3; 4]%nat k).
Proof.
  apply (PathOverlappingLen_result less less_strict_total
           [1; 2; 3]%nat [2; 3; 4]%nat).
  - decide_closed.
  - decide_closed.
  - simpl. lia.
Defined.

Lemma PathOverlappingLen_longest_witness :
  PathOverlappingLen less [1; 2; 3]%nat [2; 3; 4]%nat = Ok (Z.of_nat 2)
  ∧ (2 ≤ 2)%nat.
Proof.
  split; [by vm_compute |].
  apply (PathOverlappingLen_longest less less_strict_total
           [1; 2; 3]%nat [2; 3; 4]%nat 2 2).
  - decide_closed.
  - decide_closed.
  - by vm_compute.
  - simpl. lia.
  - simpl. lia.
  - reflexivity.
Defined.

Lemma ConnectAdjacentCandidateLines_same_witness :
  Turn.connect 0 [1; 2]%nat [1; 2]%nat O 50 [9]%nat
  = Ok (true, [9]%nat ++ [1; 2]%nat).
Proof.
  apply (ConnectAdjacentCandidateLines_same less O Turn.end_junction
           Turn.edge_length Turn.outgoing less_strict_total 0 [1; 2]%nat O 50
           [9]%nat).
  - decide_closed.
  - done.
  - simpl. lia.
Defined.

Lemma FindShortestPath_returns_route_witness :
  Route Turn.end_junction Turn.outgoing 2%nat [2; 1; 3]%nat 3%nat
  ∧ head [2; 1; 3]%nat = Some 2%nat ∧ last [2; 1; 3]%nat = Some 3%nat
  ∧ NoDup [2; 1; 3]%nat.
Proof.
  apply (FindShortestPath_returns_route less O Turn.end_junction
           Turn.edge_length Turn.outgoing 10 2%nat 3%nat O 50 [2; 1; 3]%nat).
  by vm_compute.
Defined.

Lemma FindShortestPath_budget_wraps_witness :
  wrap32 (4294967290 + 10) = 4
  ∧ Pair.search 10 0%nat 1%nat O 4294967290 [7]%nat = Ok (false, [7]%nat).
Proof.
  split; [by vm_compute |].
  apply (FindShortestPath_budget_wraps less O Pair.end_junction
           Pair.edge_length Pair.outgoing 10 0%nat 1%nat O 4294967290
           [7]%nat).
  - done.
  - intros e He. vm_compute in He. elem_cases He. by vm_compute.
  - simpl. lia.
Defined.

Lemma ConnectAdjacentCandidateLines_endpoints_witness :
  (∃ front, head [1; 2; 1; 3; 4]%nat = Some front
            ∧ head [1; 2]%nat = Some front)
  ∧ (∃ back, last [1; 2; 1; 3; 4]%nat = Some back
             ∧ last [3; 4]%nat = Some back).
Proof.
  apply (ConnectAdjacentCandidateLines_endpoints less O Turn.end_junction
           Turn.edge_length Turn.outgoing 10 [1; 2]%nat [3; 4]%nat O 50
           [1; 2; 1; 3; 4]%nat).
  by vm_compute.
Defined.

Lemma ConnectAdjacentCandidateLines_chain_witness :
  Chain Turn.end_junction Turn.outgoing [1; 2; 1; 3; 4]%nat.
Proof.
  apply (ConnectAdjacentCandidateLines_chain less O Turn.end_junction
           Turn.edge_length Turn.outgoing 10 [1; 2]%nat [3; 4]%nat O 50
           [1; 2; 1; 3; 4]%nat).
  - split; [decide_closed | done].
  - split; [decide_closed | done].
  - by vm_compute.
Defined.

Lemma ConnectCandidates_endpoints_witness :
  ∃ fromCandidates toCandidates from to front back,
    [[[1; 2]]; [[3; 4]]]%nat !! 0%nat = Some fromCandidates
    ∧ [[[1; 2]]; [[3; 4]]]%nat !! 1%nat = Some toCandidates
    ∧ from ∈ fromCandidates ∧ to ∈ toCandidates
    ∧ head from = Some front ∧ head [1; 2; 1; 3; 4]%nat = Some front
    ∧ last to = Some back ∧ last [1; 2; 1; 3; 4]%nat = Some back.
Proof.
  apply (ConnectCandidates_endpoints less O Turn.end_junction Turn.is_fake
           Turn.edge_length Turn.outgoing (ratio 3 10) 10 [point 50; point 0]
           [[[1; 2]]; [[3; 4]]]%nat [] no_stats turn_result 0
           [1; 2; 1; 3; 4]%nat).
  - by vm_compute.
  - reflexivity.
Defined.

Lemma ConnectCandidates_chain_witness :
  Chain Turn.end_junction Turn.outgoing [1; 2; 1; 3; 4]%nat.
Proof.
  apply (ConnectCandidates_chain less O Turn.end_junction Turn.is_fake
           Turn.edge_length Turn.outgoing (ratio 3 10) 10 [point 50; point 0]
           [[[1; 2]]; [[3; 4]]]%nat [] no_stats turn_result)
    with (j := 0%nat).
  - intros candidates sequence Hc Hs.
    elem_cases Hc; elem_cases Hs; (split; [decide_closed | done]).
  - by vm_compute.
  - reflexivity.
Defined.

Lemma ConnectCandidates_validated_witness :
  ValidatePath Turn.edge_length [1; 2; 1; 3; 4]%nat
    (m_distanceToNextPoint (point 50)) (ratio 3 10) = true.
Proof.
  apply (ConnectCandidates_validated less O Turn.end_junction Turn.is_fake
           Turn.edge_length Turn.outgoing (ratio 3 10) 10 [point 50; point 0]
           [[[1; 2]]; [[3; 4]]]%nat [] no_stats turn_result 0
           [1; 2; 1; 3; 4]%nat (point 50)).
  - by vm_compute.
  - reflexivity.
  - reflexivity.
Defined.

Lemma ConnectCandidates_counter_witness :
  length [[1]; []]%nat = (length [point 10; point 10; point 0] - 1)%nat
  ∧ m_noShortestPathFound {| m_noShortestPathFound := 1 |}
    = m_noShortestPathFound no_stats + 1.
Proof.
  apply (ConnectCandidates_counter less O Loose.end_junction Loose.is_fake
           Loose.edge_length Loose.outgoing (ratio 1 2) 10
           [point 10; point 10; point 0] [[[1]]; [[1]]; [[2]]]%nat []
           no_stats false
           {| resultPath := [[1]; []]%nat;
              stat := {| m_noShortestPathFound := 1 |};
              made := [CallConnect 0 [1] [1]; CallValidate 0 [1];
                       CallConnect 1 [1] [2]]%nat |}).
  by vm_compute.
Defined.

Lemma ConnectCandidates_forgets_output_witness :
  ∃ c', Turn.run (ratio 3 10) 10 [point 50; point 0] [[[1; 2]]; [[3; 4]]]%nat
          [[9]; [9]; [9]]%nat no_stats = Ok (true, c')
        ∧ stat c' = stat turn_result ∧ made c' = made turn_result
        ∧ (true = true → c' = turn_result).
Proof.
  apply (ConnectCandidates_forgets_output less O Turn.end_junction
           Turn.is_fake Turn.edge_length Turn.outgoing (ratio 3 10) 10
           [point 50; point 0] [[[1; 2]]; [[3; 4]]]%nat []
           [[9]; [9]; [9]]%nat no_stats true turn_result).
  by vm_compute.
Defined.

Lemma PathOverlappingLen_in_range_witness :
  PathOverlappingLen less [1; 2; 3]%nat [2; 3; 4]%nat = Ok 2
  ∧ (2 = -1
     ∨ (0 ≤ 2 ≤ Z.of_nat (length [1; 2; 3]%nat)
        ∧ 2 ≤ Z.of_nat (length [2; 3; 4]%nat)
        ∧ drop (length [1; 2; 3]%nat - Z.to_nat 2) [1; 2; 3]%nat
          = take (Z.to_nat 2) [2; 3; 4]%nat)).
Proof.
  split; [by vm_compute |].
  apply (PathOverlappingLen_in_range less [1; 2; 3]%nat [2; 3; 4]%nat 2).
  by vm_compute.
Defined.

End Samples.
